(** * The permutation F statistic of vegan (getF.c)

    A shallow embedding of [getEV], [svdfirst], [test_svd] and [do_getF],
    the properties of the specification that concern them, and further
    properties of the code.

    Conventions of the embedding.
    - A C [int] is a [Z]; signed arithmetic that leaves the 32-bit range is
      undefined in C and is reported as the fault [int_overflow].
    - A C [double] is a binary64 [float] with the IEEE operations of
      [PrimFloat].
    - A buffer is a [list]; a pointer into a buffer is the buffer and an
      offset.  A read or write outside the buffer is the fault
      [out_of_bounds].
    - A matrix is stored column by column, as R and Fortran do.
    - LINPACK's [dqrsl] and LAPACK's [dgesdd] are not part of the
      repository: their numerical results are variables of the sections
      below, and only their calling interface is fixed: which arguments
      they read and which arrays they fill, as their documentation has it.
    - A run that C leaves undefined, or that fails inside the R runtime
      (an allocation, an object of another shape than the code assumes),
      is a fault: the embedding says nothing about what follows. *)

From Stdlib Require Import ZArith Lia PrimFloat FloatOps SpecFloat String.
From Stdlib Require Uint63.
From stdpp Require Import base decidable list.

Open Scope Z_scope.

(** * Part I: the embedding *)

(** ** Numbers *)

Definition INT_MAX : Z := 2147483647.
Definition INT_MIN : Z := -2147483648.

Definition d0 : float := PrimFloat.zero.
Definition dadd : float → float → float := PrimFloat.add.
Definition dmul : float → float → float := PrimFloat.mul.

#[global] Instance float_inhabited : Inhabited float := populate d0.

(** ** Results of pure evaluation *)

Inductive fault : Type :=
  | int_overflow      (* signed overflow, or a double outside the int range *)
  | out_of_bounds     (* access outside a buffer *)
  | uninit_read       (* value of an automatic variable never assigned *)
  | bad_alloc         (* an allocation that R cannot serve *)
  | bad_object.       (* an R object without the shape the code assumes *)

Inductive res (A : Type) : Type :=
  | Val (a : A)
  | Bad (f : fault).
Arguments Val {A} a.
Arguments Bad {A} f.

#[global] Instance res_ret : MRet res := @Val.
#[global] Instance res_bind : MBind res := λ A B k r,
  match r with
  | Val a => k a
  | Bad f => Bad f
  end.

Definition int (z : Z) : res Z :=
  if decide (INT_MIN ≤ z ≤ INT_MAX) then Val z else Bad int_overflow.

Definition rd {A} (buf : list A) (i : Z) : res A :=
  if decide (0 ≤ i)
  then match buf !! Z.to_nat i with
       | Some v => Val v
       | None => Bad out_of_bounds
       end
  else Bad out_of_bounds.

Definition wr {A} (buf : list A) (i : Z) (v : A) : res (list A) :=
  if decide (0 ≤ i < Z.of_nat (length buf))
  then Val (<[Z.to_nat i := v]> buf)
  else Bad out_of_bounds.

(** [for (i = i0; i < i0 + cnt; i++) a = body(i, a)], for a bound that the
    body does not change. *)
Fixpoint for_res {A} (cnt : nat) (i : Z) (body : Z → A → res A) (a : A)
  : res A :=
  match cnt with
  | O => Val a
  | S c => a' ← body i a; for_res c (i + 1) body a'
  end.

(** ** getEV (getF.c, lines 26-43) *)

Definition getEV_diag_body (x : list float) (nr : Z) (i : Z) (sumev : float)
  : res float :=
  t ← int (i * nr);
  ii ← int (t + i);
  v ← rd x ii;
  Val (dadd sumev (dmul v v)).

Definition getEV_all_body (x : list float) (i : Z) (sumev : float)
  : res float :=
  v ← rd x i;
  Val (dadd sumev (dmul v v)).

(** The local [sumev] is [None] until it is assigned: neither [case] being
    taken, [return sumev] reads it unassigned. *)
Definition getEV (x : list float) (nr nc isDB : Z) : res float :=
  sumev ← match isDB with
          | 1 =>
              s ← for_res (Z.to_nat nr) 0 (getEV_diag_body x nr) d0;
              Val (Some s)
          | 0 =>
              n ← int (nr * nc);
              s ← for_res (Z.to_nat n) 0 (getEV_all_body x) d0;
              Val (Some s)
          | _ => Val None
          end;
  match sumev with
  | Some s => Val s
  | None => Bad uninit_read
  end.

(** What the specification says [sumOfSquares] returns: the squares of the
    entries, accumulated in storage order from zero. *)
Definition acc_sq (s v : float) : float := dadd s (dmul v v).

Definition sumOfSquares_all (x : list float) (rows cols : Z) : float :=
  foldl acc_sq d0 (take (Z.to_nat (rows * cols)) x).

(** Entry [(i, j)] of a matrix with [rows] rows. *)
Definition entry (x : list float) (rows : Z) (i j : nat) : float :=
  x !!! Z.to_nat (Z.of_nat i + rows * Z.of_nat j).

Definition sumOfSquares_diag (x : list float) (rows : Z) : float :=
  foldl (λ s i, acc_sq s (entry x rows i i)) d0 (seq 0 (Z.to_nat rows)).

Definition sumOfSquares (x : list float) (rows cols : Z) (diagonalOnly : bool)
  : float :=
  if diagonalOnly then sumOfSquares_diag x rows else sumOfSquares_all x rows cols.

(** The matrix [[1,2],[3,4]], column by column. *)
Definition m1234 : list float := [1%float; 3%float; 2%float; 4%float].

(** ** Stateful evaluation

    A function that works on buffers through pointers is a state
    transformer.  It returns, raises an R condition with [error()] (R then
    unwinds to the caller of [.Call]), or runs into a fault. *)

Inductive Rcondition : Type :=
  | Rf_error (fmt : string) (arg : Z).

Inductive outcome (St A : Type) : Type :=
  | Ret (a : A) (s : St)
  | Raise (e : Rcondition) (s : St)
  | Fault (f : fault).
Arguments Ret {St A} a s.
Arguments Raise {St A} e s.
Arguments Fault {St A} f.

Definition M (St A : Type) : Type := St → outcome St A.

#[global] Instance M_ret {St} : MRet (M St) := λ A a s, Ret a s.
#[global] Instance M_bind {St} : MBind (M St) := λ A B k m s,
  match m s with
  | Ret a s' => k a s'
  | Raise e s' => Raise e s'
  | Fault f => Fault f
  end.

Definition pure {St A} (r : res A) : M St A := λ s,
  match r with
  | Val a => Ret a s
  | Bad f => Fault f
  end.

Definition gets {St A} (f : St → A) : M St A := λ s, Ret (f s) s.
Definition modify {St} (f : St → St) : M St unit := λ s, Ret tt (f s).
Definition error {St A} (fmt : string) (arg : Z) : M St A :=
  λ s, Raise (Rf_error fmt arg) s.

(** [for (i = i0; i < i0 + cnt; i++) body(i)]. *)
Fixpoint for_M {St} (cnt : nat) (i : Z) (body : Z → M St unit) : M St unit :=
  match cnt with
  | O => mret tt
  | S c => body i;; for_M c (i + 1) body
  end.

(** [n] consecutive cells of a buffer from offset [off]. *)
Definition block {A} (buf : list A) (off n : Z) : res (list A) :=
  if decide (0 ≤ off ∧ 0 ≤ n ∧ off + n ≤ Z.of_nat (length buf))
  then Val (take (Z.to_nat n) (drop (Z.to_nat off) buf))
  else Bad out_of_bounds.

(** An array that an external routine returns is given by its entries; the
    routine fills the [n] cells from [off] that its interface fixes. *)
Definition fill {A} (buf : list A) (off n : Z) (out : nat → A) : res (list A) :=
  if decide (0 ≤ off ∧ 0 ≤ n ∧ off + n ≤ Z.of_nat (length buf))
  then Val (take (Z.to_nat off) buf ++ map out (seq 0 (Z.to_nat n))
            ++ drop (Z.to_nat (off + n)) buf)
  else Bad out_of_bounds.

(** [(int) d]: truncation toward zero; undefined outside the range of int. *)
Definition int_of_double (d : float) : res Z :=
  match Prim2SF d with
  | S754_zero _ => Val 0
  | S754_finite sg m e =>
      let mag := Z.shiftl (Z.pos m) e in
      int (if sg then - mag else mag)
  | _ => Bad int_overflow
  end.

(** ** svdfirst (getF.c, lines 47-77) *)

(** What LAPACK's dgesdd returns: the overwritten matrix, the singular
    values, the work array (its first cell holds the optimal length) and
    the status. *)
Record dgesdd_out : Type := {
  g_a : nat → float;
  g_s : nat → float;
  g_work : nat → float;
  g_info : Z
}.

(** The buffers svdfirst works on: the caller's matrix, reached through the
    pointer [x], and the three blocks it allocates. *)
Record svd_frame : Type := {
  sv_x : list float;
  sv_xwork : list float;
  sv_sigma : list float;
  sv_work : list float
}.

Definition set_xwork (v : list float) (fr : svd_frame) : svd_frame :=
  {| sv_x := sv_x fr; sv_xwork := v; sv_sigma := sv_sigma fr;
     sv_work := sv_work fr |}.
Definition set_sigma (v : list float) (fr : svd_frame) : svd_frame :=
  {| sv_x := sv_x fr; sv_xwork := sv_xwork fr; sv_sigma := v;
     sv_work := sv_work fr |}.
Definition set_work (v : list float) (fr : svd_frame) : svd_frame :=
  {| sv_x := sv_x fr; sv_xwork := sv_xwork fr; sv_sigma := sv_sigma fr;
     sv_work := v |}.

Section Svdfirst.

(** Contents of a block that R_alloc or allocMatrix has just handed out,
    by allocation site. *)
Variable fresh : string → nat → float.

(** dgesdd(jobz, m, n, a, lda, ldu, ldvt, lwork). *)
Variable dgesdd : string → Z → Z → list float → Z → Z → Z → Z → dgesdd_out.

Definition R_alloc (site : string) (n : Z) : res (list float) :=
  if decide (0 ≤ n)
  then Val (map (fresh site) (seq 0 (Z.to_nat n)))
  else Bad bad_alloc.

(** [xwork[i] = x[i]] *)
Definition copy_cell (i : Z) : M svd_frame unit :=
  x ← gets sv_x;
  v ← pure (rd x i);
  xwork ← gets sv_xwork;
  xwork' ← pure (wr xwork i v);
  modify (set_xwork xwork').

(** Lines 50-61: the private copy and the blocks for the results.
    Returns [len] and [minrc]. *)
Definition svd_setup (nr nc : Z) : M svd_frame (Z * Z) :=
  let minrc := if decide (nr < nc) then nr else nc in
  len ← pure (int (nr * nc));
  (* copy data: dgesdd will destroy the original *)
  xwork ← pure (R_alloc "xwork" len);
  modify (set_xwork xwork);;
  for_M (Z.to_nat len) 0 copy_cell;;
  (* singular values *)
  sigma ← pure (R_alloc "sigma" minrc);
  modify (set_sigma sigma);;
  niwork ← pure (int (8 * minrc));
  _ ← pure (R_alloc "iwork" niwork);
  mret (len, minrc).

(** Lines 62-76: the two calls of dgesdd.  With lwork = -1 dgesdd sets
    only the first cell of work, here [query], and the status. *)
Definition svd_calls (nr nc len minrc : Z) : M svd_frame float :=
  let jobz := "N"%string in
  (* query and set optimal work array *)
  a ← gets sv_xwork;
  let q := dgesdd jobz nr nc a nr nr nc (-1) in
  let query := g_work q 0%nat in
  if decide (g_info q ≠ 0)
  then error "error %d from Lapack dgesdd" (g_info q)
  else
    lwork ← pure (int_of_double query);
    work ← pure (R_alloc "work" lwork);
    modify (set_work work);;
    (* call svd *)
    a ← gets sv_xwork;
    let r := dgesdd jobz nr nc a nr nr nc lwork in
    a' ← pure (fill a 0 len (g_a r));
    modify (set_xwork a');;
    sigma ← gets sv_sigma;
    sigma' ← pure (fill sigma 0 minrc (g_s r));
    modify (set_sigma sigma');;
    work ← gets sv_work;
    work' ← pure (fill work 0 lwork (g_work r));
    modify (set_work work');;
    if decide (g_info r ≠ 0)
    then error "error %d from Lapack dgesdd, pos 2" (g_info r)
    else
      sigma ← gets sv_sigma;
      pure (rd sigma 0).

Definition svdfirst_body (nr nc : Z) : M svd_frame float :=
  '(len, minrc) ← svd_setup nr nc;
  svd_calls nr nc len minrc.

Definition svdfirst (x : list float) (nr nc : Z) : outcome svd_frame float :=
  svdfirst_body nr nc
    {| sv_x := x; sv_xwork := []; sv_sigma := []; sv_work := [] |}.

(** The matrix as dgesdd is handed it: the first [nr*nc] cells of [x]. *)
Definition svd_input (x : list float) (nr nc : Z) : list float :=
  take (Z.to_nat (nr * nc)) x.

(** The workspace query and, for a work array of [lwork] cells, the
    decomposition, as svdfirst calls them on [x]. *)
Definition svd_query (x : list float) (nr nc : Z) : dgesdd_out :=
  dgesdd "N" nr nc (svd_input x nr nc) nr nr nc (-1).

Definition svd_decomp (x : list float) (nr nc lwork : Z) : dgesdd_out :=
  dgesdd "N" nr nc (svd_input x nr nc) nr nr nc lwork.

End Svdfirst.

(** ** do_getF (getF.c, lines 93-182) *)

(** LINPACK's decimal coding of what dqrsl is to compute. *)
Definition FIT : Z := 1.
Definition RESID : Z := 10.
Definition COEF : Z := 100.
Definition QTY : Z := 1000.
Definition QY : Z := 10000.

(** How dqrsl reads its [job] argument, digit by digit. *)
Definition job_qy (job : Z) : bool := negb (job `quot` 10000 =? 0).
Definition job_qty (job : Z) : bool := negb (job `rem` 10000 =? 0).
Definition job_b (job : Z) : bool := negb ((job `rem` 1000) `quot` 100 =? 0).
Definition job_rsd (job : Z) : bool := negb ((job `rem` 100) `quot` 10 =? 0).
Definition job_xb (job : Z) : bool := negb (job `rem` 10 =? 0).

(** What dqrsl returns for the outputs this program asks for: Q'y, the
    residuals, the fitted values, and the status. *)
Record dqrsl_out : Type := {
  q_qty : nat → float;
  q_rsd : nat → float;
  q_xb : nat → float;
  q_info : Z
}.

(** An R matrix: its cells column by column, and its dim attribute. *)
Record Rmatrix (A : Type) : Type := {
  mdata : list A;
  mnrow : Z;
  mncol : Z
}.
Arguments mdata {A} _.
Arguments mnrow {A} _.
Arguments mncol {A} _.

(** The list that R's qr() returns, by position: qr, rank, qraux. *)
Record QRobj : Type := {
  qr_qr : list float;
  qr_rank : Z;
  qr_qraux : list float
}.

Inductive model : Type :=
  | Zmodel    (* the partial model QZ *)
  | Xmodel.   (* the design QR *)

(** One call of dqrsl: for which factorization, in which permutation row,
    on which column, with which job, and the status it handed back. *)
Record qrcall : Type := {
  c_model : model;
  c_row : Z;
  c_col : Z;
  c_job : Z;
  c_info : Z
}.

(** The memory of one call of do_getF: the four R objects of the caller,
    the blocks the function allocates, and the record of the dqrsl calls
    made so far (the last status is what the local [info] holds). *)
Record mem : Type := {
  m_perms : Rmatrix Z;
  m_E : Rmatrix float;
  m_QR : QRobj;
  m_QZ : option QRobj;
  rans : list float;
  rY : list float;
  fitted : list float;
  resid : list float;
  qty : list float;
  iperm : list Z;
  calls : list qrcall
}.

Definition set_rans (v : list float) (m : mem) : mem :=
  {| m_perms := m_perms m; m_E := m_E m; m_QR := m_QR m; m_QZ := m_QZ m;
     rans := v; rY := rY m; fitted := fitted m; resid := resid m;
     qty := qty m; iperm := iperm m; calls := calls m |}.
Definition set_rY (v : list float) (m : mem) : mem :=
  {| m_perms := m_perms m; m_E := m_E m; m_QR := m_QR m; m_QZ := m_QZ m;
     rans := rans m; rY := v; fitted := fitted m; resid := resid m;
     qty := qty m; iperm := iperm m; calls := calls m |}.
Definition set_fitted (v : list float) (m : mem) : mem :=
  {| m_perms := m_perms m; m_E := m_E m; m_QR := m_QR m; m_QZ := m_QZ m;
     rans := rans m; rY := rY m; fitted := v; resid := resid m;
     qty := qty m; iperm := iperm m; calls := calls m |}.
Definition set_resid (v : list float) (m : mem) : mem :=
  {| m_perms := m_perms m; m_E := m_E m; m_QR := m_QR m; m_QZ := m_QZ m;
     rans := rans m; rY := rY m; fitted := fitted m; resid := v;
     qty := qty m; iperm := iperm m; calls := calls m |}.
Definition set_qty (v : list float) (m : mem) : mem :=
  {| m_perms := m_perms m; m_E := m_E m; m_QR := m_QR m; m_QZ := m_QZ m;
     rans := rans m; rY := rY m; fitted := fitted m; resid := resid m;
     qty := v; iperm := iperm m; calls := calls m |}.
Definition set_iperm (v : list Z) (m : mem) : mem :=
  {| m_perms := m_perms m; m_E := m_E m; m_QR := m_QR m; m_QZ := m_QZ m;
     rans := rans m; rY := rY m; fitted := fitted m; resid := resid m;
     qty := qty m; iperm := v; calls := calls m |}.
Definition log_call (c : qrcall) (m : mem) : mem :=
  {| m_perms := m_perms m; m_E := m_E m; m_QR := m_QR m; m_QZ := m_QZ m;
     rans := rans m; rY := rY m; fitted := fitted m; resid := resid m;
     qty := qty m; iperm := iperm m; calls := calls m ++ [c] |}.

(** [buf[i]] and [buf[i] = v] on a block of the memory. *)
Definition load {A} (get : mem → list A) (i : Z) : M mem A :=
  buf ← gets get; pure (rd buf i).

Definition store {A} (get : mem → list A) (set : list A → mem → mem)
    (i : Z) (v : A) : M mem unit :=
  buf ← gets get; buf' ← pure (wr buf i v); modify (set buf').

(** The [n] cells from [off] of a block, as dqrsl is handed them, and the
    same cells as dqrsl fills them. *)
Definition load_block (get : mem → list float) (off n : Z)
  : M mem (list float) :=
  buf ← gets get; pure (block buf off n).

Definition store_block (get : mem → list float)
    (set : list float → mem → mem) (off n : Z) (out : nat → float)
  : M mem unit :=
  buf ← gets get; buf' ← pure (fill buf off n out); modify (set buf').

Definition when {St} (b : bool) (m : M St unit) : M St unit :=
  if b then m else mret tt.

Section DoGetF.

Variable fresh : string → nat → float.
Variable dgesdd : string → Z → Z → list float → Z → Z → Z → Z → dgesdd_out.

(** dqrsl(x, ldx, n, k, qraux, y, job). *)
Variable dqrsl : list float → Z → Z → Z → list float → list float → Z
                 → dqrsl_out.

(** allocMatrix(REALSXP, nrow, ncol) *)
Definition allocMatrix (nrow ncol : Z) : res (list float) :=
  if decide (0 ≤ nrow * ncol ≤ INT_MAX)
  then Val (map (fresh "ans") (seq 0 (Z.to_nat (nrow * ncol))))
  else Bad bad_alloc.

(** [iperm[i]--] *)
Definition zero_base (i : Z) : M mem unit :=
  v ← load iperm i;
  v' ← pure (int (v - 1));
  store iperm set_iperm i v'.

(** [rY[i + nr * j] = REAL(E)[ki + nr * j]] *)
Definition permute_cell (nr i ki j : Z) : M mem unit :=
  t ← pure (int (nr * j));
  src ← pure (int (ki + t));
  dst ← pure (int (i + t));
  v ← load (λ m, mdata (m_E m)) src;
  store rY set_rY dst v.

(** Y will be permuted data *)
Definition permute_row (nperm nr nc k i : Z) : M mem unit :=
  t ← pure (int (nperm * i));
  idx ← pure (int (k + t));
  ki ← load iperm idx;
  for_M (Z.to_nat nc) 0 (permute_cell nr i ki).

(** Partial model, column [i]: dqrsl on QZ with y and rsd both at
    [rY + i*nr]; qy, b and xb go to the scalar [dummy], which no job of
    this program asks dqrsl to fill. *)
Definition partial_col (nr : Z) (Zqrank : option Z) (k qrkind i : Z)
  : M mem unit :=
  off ← pure (int (i * nr));
  QZ ← gets m_QZ;
  Z ← pure (match QZ with Some Z => Val Z | None => Bad bad_object end);
  Zqrank ← pure (match Zqrank with
                 | Some rk => Val rk
                 | None => Bad uninit_read
                 end);
  y ← load_block rY off nr;
  let r := dqrsl (qr_qr Z) nr nr Zqrank (qr_qraux Z) y qrkind in
  when (job_qy qrkind || job_b qrkind || job_xb qrkind)
    (pure (Bad out_of_bounds));;
  when (job_qty qrkind) (store_block qty set_qty 0 nr (q_qty r));;
  when (job_rsd qrkind) (store_block rY set_rY off nr (q_rsd r));;
  modify (log_call {| c_model := Zmodel; c_row := k; c_col := i;
                      c_job := qrkind; c_info := q_info r |}).

(** Design model, column [i]: dqrsl on QR with y at [rY + i*nr], rsd at
    [resid + i*nr] and xb at [fitted + i*nr]. *)
Definition design_col (nr qrank k qrkind i : Z) : M mem unit :=
  off ← pure (int (i * nr));
  QR ← gets m_QR;
  y ← load_block rY off nr;
  let r := dqrsl (qr_qr QR) nr nr qrank (qr_qraux QR) y qrkind in
  when (job_qy qrkind || job_b qrkind) (pure (Bad out_of_bounds));;
  when (job_qty qrkind) (store_block qty set_qty 0 nr (q_qty r));;
  when (job_rsd qrkind) (store_block resid set_resid off nr (q_rsd r));;
  when (job_xb qrkind) (store_block fitted set_fitted off nr (q_xb r));;
  modify (log_call {| c_model := Xmodel; c_row := k; c_col := i;
                      c_job := qrkind; c_info := q_info r |}).

(** [svdfirst(fitted, nr, nc)]: the callee works on the caller's block
    through the pointer, and its own blocks die with the call. *)
Definition call_svdfirst (nr nc : Z) : M mem float := λ m,
  match svdfirst fresh dgesdd (fitted m) nr nc with
  | Ret v fr => Ret v (set_fitted (sv_x fr) m)
  | Raise e fr => Raise e (set_fitted (sv_x fr) m)
  | Fault f => Fault f
  end.

Definition call_getEV (get : mem → list float) (nr nc isDB : Z)
  : M mem float :=
  x ← gets get; pure (getEV x nr nc isDB).

(** The job of the design projection (lines 154-157). *)
Definition design_qrkind (PARTIAL FIRST : Z) : Z :=
  if decide (PARTIAL ≠ 0 ∨ FIRST ≠ 0) then FIT + RESID else FIT.

(** One turn of the loop over the rows of the permutation matrix. *)
(** One turn of the loop over the rows of the permutation matrix, first
    half (lines 136-161): permute, take the partial model out, project on
    the design. *)
Definition perm_project (nperm nr nc FIRST PARTIAL qrank : Z)
    (Zqrank : option Z) (k : Z) : M mem unit :=
  (* Y will be permuted data *)
  for_M (Z.to_nat nr) 0 (permute_row nperm nr nc k);;
  (* Partial model: qr.resid(QZ, Y) with LINPACK *)
  when (bool_decide (PARTIAL ≠ 0))
    (for_M (Z.to_nat nc) 0 (partial_col nr Zqrank k RESID));;
  (* qr.fitted(QR, Y) + qr.resid(QR, Y) with LINPACK *)
  let qrkind := design_qrkind PARTIAL FIRST in
  for_M (Z.to_nat nc) 0 (design_col nr qrank k qrkind).

(** Second half (lines 163-176): the two entries of row [k] of [ans]. *)
Definition perm_eigen (nperm nr nc FIRST PARTIAL k : Z) : M mem unit :=
  (if decide (FIRST ≠ 0)
   then ev1 ← call_svdfirst nr nc;
        store rans set_rans k (dmul ev1 ev1)
   else ev ← call_getEV fitted nr nc 0;
        store rans set_rans k ev);;
  when (bool_decide (PARTIAL ≠ 0 ∨ FIRST ≠ 0))
    (idx ← pure (int (k + nperm));
     ev ← call_getEV resid nr nc 0;
     store rans set_rans idx ev).

Definition perm_iter (nperm nr nc FIRST PARTIAL qrank : Z)
    (Zqrank : option Z) (k : Z) : M mem unit :=
  perm_project nperm nr nc FIRST PARTIAL qrank Zqrank k;;
  perm_eigen nperm nr nc FIRST PARTIAL k.

(** Everything before the loop; returns [qrank] and [Zqrank], the latter
    unassigned without a partial model. *)
Definition getF_init (nperm nr nc PARTIAL : Z) : M mem (Z * option Z) :=
  ans ← pure (allocMatrix nperm 2);
  modify (set_rans ans);;
  (* Y = duplicate(E) *)
  E ← gets m_E;
  modify (set_rY (mdata E));;
  (* pointers and new objects to the QR decomposition *)
  QR ← gets m_QR;
  let qrank := qr_rank QR in
  Zqrank ← (if decide (PARTIAL ≠ 0)
            then QZ ← gets m_QZ;
                 pure (match QZ with
                       | Some Z => Val (Some (qr_rank Z))
                       | None => Bad bad_object
                       end)
            else mret None);
  len ← pure (int (nr * nc));
  buf ← pure (R_alloc fresh "fitted" len);
  modify (set_fitted buf);;
  buf ← pure (R_alloc fresh "resid" len);
  modify (set_resid buf);;
  buf ← pure (R_alloc fresh "qty" nr);
  modify (set_qty buf);;
  (* permutation matrix must be duplicated *)
  perms ← gets m_perms;
  modify (set_iperm (mdata perms));;
  (* permutations to zero base *)
  n ← pure (int (nperm * nr));
  for_M (Z.to_nat n) 0 zero_base;;
  mret (qrank, Zqrank).

Definition getF_loop (nperm nr nc FIRST PARTIAL : Z) (rk : Z * option Z)
  : M mem unit :=
  for_M (Z.to_nat nperm) 0
    (perm_iter nperm nr nc FIRST PARTIAL (fst rk) (snd rk)).

(** The memory at entry. *)
Definition entry_mem (perms : Rmatrix Z) (E : Rmatrix float) (QR : QRobj)
    (QZ : option QRobj) : mem :=
  {| m_perms := perms; m_E := E; m_QR := QR; m_QZ := QZ;
     rans := []; rY := []; fitted := []; resid := []; qty := [];
     iperm := []; calls := [] |}.

Definition do_getF (perms : Rmatrix Z) (E : Rmatrix float) (QR : QRobj)
    (QZ : option QRobj) (first isPartial : Z) : outcome mem (list float) :=
  let nperm := mnrow perms in
  let nr := mnrow E in
  let nc := mncol E in
  let FIRST := first in
  let PARTIAL := isPartial in
  (rk ← getF_init nperm nr nc PARTIAL;
   getF_loop nperm nr nc FIRST PARTIAL rk;;
   gets rans) (entry_mem perms E QR QZ).

End DoGetF.

(** ** Instances of the external routines and sample inputs *)

(** What a fresh block holds, for the samples. *)
Definition junk : string → nat → float := λ _ _, 999%float.

(** The array with the cells of [l]. *)
Definition entries (l : list float) : nat → float := λ i, nth i l d0.

(** dqrsl where the projection is plain: a factorization of rank 0 fits
    nothing, one of full rank fits everything. *)
Definition dqrsl_plain (status : Z) (x : list float) (ldx n k : Z)
    (qraux y : list float) (job : Z) : dqrsl_out :=
  if decide (k ≤ 0)
  then {| q_qty := entries y; q_rsd := entries y; q_xb := λ _, d0;
          q_info := status |}
  else {| q_qty := entries y; q_rsd := λ _, d0; q_xb := entries y;
          q_info := status |}.

(** [(double) z], for a small [z] that is not negative. *)
Definition double_of_int (z : Z) : float := PrimFloat.of_uint63 (Uint63.of_Z z).

(** dgesdd where the first singular value is plain: the Euclidean norm of
    the cells, which is the singular value of a matrix of one column or one
    row; on other shapes this is an instance of the interface and no more.
    A NaN among the cells is reported with status -4, as LAPACK does for
    its fourth argument; the matrix is overwritten with zeros. *)
Definition dgesdd_norm (jobz : string) (m n : Z) (a : list float)
    (lda ldu ldvt lwork : Z) : dgesdd_out :=
  let mn := Z.min m n in
  let need := 3 * mn + Z.max (Z.max m n) (7 * mn) in
  {| g_a := λ _, d0;
     g_s := λ i, match i with
                 | O => PrimFloat.sqrt (foldl acc_sq d0 a)
                 | _ => d0
                 end;
     g_work := λ i, match i with O => double_of_int need | _ => d0 end;
     g_info := if existsb PrimFloat.is_nan a then -4 else 0 |}.

(** dgesdd that does not converge in the decomposition proper. *)
Definition dgesdd_stall (jobz : string) (m n : Z) (a : list float)
    (lda ldu ldvt lwork : Z) : dgesdd_out :=
  {| g_a := λ _, d0; g_s := λ _, d0;
     g_work := λ _, 8%float;
     g_info := if decide (lwork = -1) then 0 else 1 |}.

(** The response [[1,2],[3,4]], the two permutations of its rows, one per
    row of the table, and factorizations of full rank and of rank 0. *)
Definition E22 : Rmatrix float := {| mdata := m1234; mnrow := 2; mncol := 2 |}.
Definition perms22 : Rmatrix Z :=
  {| mdata := [1; 2; 2; 1]; mnrow := 2; mncol := 2 |}.
Definition QRfull : QRobj :=
  {| qr_qr := [1%float; 0%float; 0%float; 1%float]; qr_rank := 2;
     qr_qraux := [1%float; 1%float] |}.
Definition QRnull : QRobj :=
  {| qr_qr := [0%float; 0%float; 0%float; 0%float]; qr_rank := 0;
     qr_qraux := [0%float; 0%float] |}.

(** do_getF on the samples, with dqrsl reporting [status]. *)
Definition run22 (status : Z) (QR : QRobj) (QZ : option QRobj)
    (first isPartial : Z) : outcome mem (list float) :=
  do_getF junk dgesdd_norm (dqrsl_plain status) perms22 E22 QR QZ first
    isPartial.

(** ** Notions that the statements use *)

(** [post m s Q QE]: run from [s], [m] returns into [Q] or raises into
    [QE]. *)
Definition post {St A} (m : M St A) (s : St) (Q : A → St → Prop)
    (QE : Rcondition → St → Prop) : Prop :=
  match m s with
  | Ret a s' => Q a s'
  | Raise e s' => QE e s'
  | Fault _ => True
  end.

(** [keeps P QE m]: [m] carries [P] from the state it starts in to the state
    it returns in, and raises into [QE]. *)
Definition keeps {St A} (P : St → Prop) (QE : Rcondition → St → Prop)
    (m : M St A) : Prop :=
  ∀ s, P s → post m s (λ _, P) QE.

(** The two conditions that svdfirst raises, for a status [code]. *)
Definition dgesdd_failed (code : Z) (e : Rcondition) : Prop :=
  code ≠ 0
  ∧ (e = Rf_error "error %d from Lapack dgesdd" code
     ∨ e = Rf_error "error %d from Lapack dgesdd, pos 2" code).

Section SvdFrames.

Variable fresh : string → nat → float.
Variable dgesdd : string → Z → Z → list float → Z → Z → Z → Z → dgesdd_out.

Definition frame0 (x : list float) : svd_frame :=
  {| sv_x := x; sv_xwork := []; sv_sigma := []; sv_work := [] |}.

(** The inputs on which svdfirst reaches dgesdd: the products fit an int
    and the matrix has its [nr*nc] cells. *)
Definition svd_wf (x : list float) (nr nc : Z) : Prop :=
  0 ≤ nr * nc ≤ INT_MAX
  ∧ nr * nc ≤ Z.of_nat (length x)
  ∧ 0 ≤ Z.min nr nc ∧ 8 * Z.min nr nc ≤ INT_MAX.

Definition frame1 (x : list float) (nr nc : Z) : svd_frame :=
  {| sv_x := x; sv_xwork := svd_input x nr nc;
     sv_sigma := map (fresh "sigma") (seq 0 (Z.to_nat (Z.min nr nc)));
     sv_work := [] |}.

(** The blocks once the decomposition has run with [lwork] cells of
    work. *)
Definition frame2 (x : list float) (nr nc lwork : Z) : svd_frame :=
  let r := svd_decomp dgesdd x nr nc lwork in
  {| sv_x := x;
     sv_xwork := map (g_a r) (seq 0 (Z.to_nat (nr * nc)));
     sv_sigma := map (g_s r) (seq 0 (Z.to_nat (Z.min nr nc)));
     sv_work := map (g_work r) (seq 0 (Z.to_nat lwork)) |}.

End SvdFrames.

(** Properties of the memory that survive the stores of the loop: a store
    into a working block, or into [ans], that leaves its length alone. *)
Definition work_closed (P : mem → Prop) : Prop :=
  (∀ v m, P m → length v = length (rY m) → P (set_rY v m))
  ∧ (∀ v m, P m → length v = length (fitted m) → P (set_fitted v m))
  ∧ (∀ v m, P m → length v = length (resid m) → P (set_resid v m))
  ∧ (∀ v m, P m → length v = length (qty m) → P (set_qty v m)).

Definition rans_closed (P : mem → Prop) : Prop :=
  ∀ v m, P m → length v = length (rans m) → P (set_rans v m).

(** The calls of dqrsl that row [k] makes. *)
Definition iter_call (PARTIAL FIRST k : Z) (c : qrcall) : Prop :=
  c_row c = k
  ∧ ((c_model c = Zmodel ∧ c_job c = RESID ∧ PARTIAL ≠ 0)
     ∨ (c_model c = Xmodel
        ∧ c_job c = if decide (PARTIAL ≠ 0 ∨ FIRST ≠ 0)
                    then FIT + RESID else FIT)).

(** The first [n] cells of the permutation table brought to zero base. *)
Definition zero_based (n : nat) (data : list Z) : list Z :=
  map (λ v, v - 1) (take n data) ++ drop n data.

(** The memory when the loop over the permutations is entered. *)
Definition loop_entry (fresh : string → nat → float) (perms : Rmatrix Z)
    (E : Rmatrix float) (QR : QRobj) (QZ : option QRobj) : mem :=
  {| m_perms := perms; m_E := E; m_QR := QR; m_QZ := QZ;
     rans := map (fresh "ans"%string) (seq 0 (Z.to_nat (mnrow perms * 2)));
     rY := mdata E;
     fitted := map (fresh "fitted"%string) (seq 0 (Z.to_nat (mnrow E * mncol E)));
     resid := map (fresh "resid"%string) (seq 0 (Z.to_nat (mnrow E * mncol E)));
     qty := map (fresh "qty"%string) (seq 0 (Z.to_nat (mnrow E)));
     iperm := zero_based (Z.to_nat (mnrow perms * mnrow E)) (mdata perms);
     calls := [] |}.

(** The memory when the turn of the loop for row [k] ends. *)
Definition row_end fresh dgesdd dqrsl (perms : Rmatrix Z) (E : Rmatrix float)
    (QR : QRobj) (QZ : option QRobj) (first isPartial : Z) (k : nat)
    (mk : mem) : Prop :=
  ∃ rk m0 m1,
    getF_init fresh (mnrow perms) (mnrow E) (mncol E) isPartial
      (entry_mem perms E QR QZ) = Ret rk m0
    ∧ for_M k 0
        (perm_iter fresh dgesdd dqrsl (mnrow perms) (mnrow E) (mncol E)
           first isPartial (fst rk) (snd rk)) m0 = Ret tt m1
    ∧ perm_iter fresh dgesdd dqrsl (mnrow perms) (mnrow E) (mncol E)
        first isPartial (fst rk) (snd rk) (Z.of_nat k) m1 = Ret tt mk.

#[global] Instance model_eq_dec : EqDecision model.
Proof. solve_decision. Defined.

(** Row, column and job of the calls made on the design, in order. *)
Definition design_calls (m : mem) : list (Z * Z * Z) :=
  map (λ c, (c_row c, c_col c, c_job c))
    (filter (λ c, c_model c = Xmodel) (calls m)).

(** One call per column for row [k], and that for every row in turn. *)
Definition row_schedule (k : Z) (cols : nat) (job : Z) : list (Z * Z * Z) :=
  map (λ i : nat, (k, Z.of_nat i, job)) (seq 0 cols).

Definition design_schedule (rows cols : nat) (job : Z) : list (Z * Z * Z) :=
  flat_map (λ k : nat, row_schedule (Z.of_nat k) cols job) (seq 0 rows).

(** How row [k] gets its explained variance from the fitted values. *)
Definition explained_by fresh dgesdd (FIRST nr nc : Z) (fit : list float)
    (ev : float) : Prop :=
  if decide (FIRST ≠ 0)
  then ∃ v fr, svdfirst fresh dgesdd fit nr nc = Ret v fr ∧ ev = dmul v v
  else getEV fit nr nc 0 = Val ev.

(** The lengths of the blocks that the loop works on. *)
Definition sized (nperm nr nc : Z) (m : mem) : Prop :=
  length (rans m) = Z.to_nat (nperm * 2)
  ∧ length (fitted m) = Z.to_nat (nr * nc)
  ∧ length (resid m) = Z.to_nat (nr * nc).

(** The same routine, reporting another status. *)
Definition with_status
    (st : list float → Z → Z → Z → list float → list float → Z → Z)
    (dqrsl : list float → Z → Z → Z → list float → list float → Z → dqrsl_out)
    : list float → Z → Z → Z → list float → list float → Z → dqrsl_out :=
  λ x ldx n k qraux y job,
    let r := dqrsl x ldx n k qraux y job in
    {| q_qty := q_qty r; q_rsd := q_rsd r; q_xb := q_xb r;
       q_info := st x ldx n k qraux y job |}.

(** The memory, the statuses on record apart. *)
Definition forget_call (c : qrcall) : qrcall :=
  {| c_model := c_model c; c_row := c_row c; c_col := c_col c;
     c_job := c_job c; c_info := 0 |}.

Definition forget (m : mem) : mem :=
  {| m_perms := m_perms m; m_E := m_E m; m_QR := m_QR m; m_QZ := m_QZ m;
     rans := rans m; rY := rY m; fitted := fitted m; resid := resid m;
     qty := qty m; iperm := iperm m; calls := map forget_call (calls m) |}.

Definition outcome_map {St A} (f : St → St) (o : outcome St A)
  : outcome St A :=
  match o with
  | Ret a s => Ret a (f s)
  | Raise e s => Raise e (f s)
  | Fault g => Fault g
  end.

(** Two computations that do the same but for the statuses on record. *)
Definition sim {A} (m1 m2 : M mem A) : Prop :=
  ∀ s1 s2, forget s1 = forget s2 →
           outcome_map forget (m1 s1) = outcome_map forget (m2 s2).

(** ** Further sample inputs *)

(** A matrix of one column, whose singular value is its norm, 5; the same
    with a NaN in it. *)
Definition v34 : list float := [3%float; 4%float].
Definition vnan : list float := [PrimFloat.nan; 1%float].

Definition row_end22 (status : Z) (QR : QRobj) (QZ : option QRobj)
    (first isPartial : Z) (k : nat) (mk : mem) : Prop :=
  row_end junk dgesdd_norm (dqrsl_plain status) perms22 E22 QR QZ first
    isPartial k mk.

(** ** test_svd (getF.c, lines 80-87) *)

(** The memory of test_svd: the cells of its argument and the vector of
    length one that it allocates and returns. *)
Record test_frame : Type := {
  ts_x : list float;
  ts_ans : list float
}.

Section TestSvd.

Variable fresh : string → nat → float.
Variable dgesdd : string → Z → Z → list float → Z → Z → Z → Z → dgesdd_out.

(** [REAL(ans)[0] = svdfirst(REAL(x), nr, nc)], on [ans] as allocVector
    hands it out. *)
Definition test_svd (x : Rmatrix float) : outcome test_frame (list float) :=
  let nr := mnrow x in
  let nc := mncol x in
  let ans := map (fresh "ans") (seq 0 1) in
  match svdfirst fresh dgesdd (mdata x) nr nc with
  | Ret v fr =>
      match wr ans 0 v with
      | Val ans' => Ret ans' {| ts_x := sv_x fr; ts_ans := ans' |}
      | Bad f => Fault f
      end
  | Raise e fr => Raise e {| ts_x := sv_x fr; ts_ans := ans |}
  | Fault f => Fault f
  end.

End TestSvd.

(** ** Notions that the further statements use *)

(** Model, row, column and job of the calls of dqrsl, in order. *)
Definition call_trace (m : mem) : list (model * Z * Z * Z) :=
  map (λ c, (c_model c, c_row c, c_col c, c_job c)) (calls m).

(** The calls of one row: with a partial model one call per column on QZ,
    asking for residuals, then one call per column on QR. *)
Definition row_trace (PARTIAL FIRST : Z) (cols : nat) (k : Z)
  : list (model * Z * Z * Z) :=
  (if decide (PARTIAL ≠ 0)
   then map (λ i : nat, (Zmodel, k, Z.of_nat i, RESID)) (seq 0 cols)
   else [])
  ++ map (λ i : nat, (Xmodel, k, Z.of_nat i,
                      if decide (PARTIAL ≠ 0 ∨ FIRST ≠ 0)
                      then FIT + RESID else FIT))
       (seq 0 cols).

Definition full_trace (PARTIAL FIRST : Z) (rows cols : nat)
  : list (model * Z * Z * Z) :=
  flat_map (λ k : nat, row_trace PARTIAL FIRST cols (Z.of_nat k)) (seq 0 rows).

(** Column [j] of a matrix of [nr] rows stored column by column: the [nr]
    cells from [j * nr], which is what dqrsl is handed as [y]. *)
Definition column (nr j : Z) (buf : list float) : list float :=
  take (Z.to_nat nr) (drop (Z.to_nat (j * nr)) buf).

(** The [nr] cells that dqrsl writes for one column. *)
Definition filled (nr : Z) (out : nat → float) : list float :=
  map out (seq 0 (Z.to_nat nr)).

(** The memory when the first loop of the turn for row [k] ends (line 142):
    the response is permuted, nothing is projected yet. *)
Definition row_permuted fresh dgesdd dqrsl (perms : Rmatrix Z)
    (E : Rmatrix float) (QR : QRobj) (QZ : option QRobj)
    (first isPartial : Z) (k : nat) (mp : mem) : Prop :=
  ∃ rk m0 m1,
    getF_init fresh (mnrow perms) (mnrow E) (mncol E) isPartial
      (entry_mem perms E QR QZ) = Ret rk m0
    ∧ for_M k 0
        (perm_iter fresh dgesdd dqrsl (mnrow perms) (mnrow E) (mncol E)
           first isPartial (fst rk) (snd rk)) m0 = Ret tt m1
    ∧ for_M (Z.to_nat (mnrow E)) 0
        (permute_row (mnrow perms) (mnrow E) (mncol E) (Z.of_nat k)) m1
      = Ret tt mp.

(** Cell [(i, j)] of the permuted response [buf] is the cell of [E] in the
    row that the zero-based table [ip] names for row [i] of permutation
    [k]. *)
Definition permuted_cell (nperm nr k : Z) (E : list float) (ip : list Z)
    (buf : list float) (i j : Z) : Prop :=
  ∃ ki v,
    0 ≤ k + nperm * i ∧ ip !! Z.to_nat (k + nperm * i) = Some ki
    ∧ 0 ≤ ki + nr * j ∧ E !! Z.to_nat (ki + nr * j) = Some v
    ∧ buf !! Z.to_nat (i + nr * j) = Some v.

(** What no store of the loop changes: the caller's objects and the
    zero-based table. *)
Definition loop_frame (perms : Rmatrix Z) (E : Rmatrix float) (QR : QRobj)
    (QZ : option QRobj) (m : mem) : Prop :=
  m_E m = E ∧ m_QR m = QR ∧ m_QZ m = QZ
  ∧ iperm m = zero_based (Z.to_nat (mnrow perms * mnrow E)) (mdata perms).

Definition row_permuted22 (status : Z) (QR : QRobj) (QZ : option QRobj)
    (first isPartial : Z) (k : nat) (mp : mem) : Prop :=
  row_permuted junk dgesdd_norm (dqrsl_plain status) perms22 E22 QR QZ first
    isPartial k mp.

(** [runs m s Q QE]: run from [s], [m] returns into [Q] or raises into
    [QE], and nothing on the way is undefined. *)
Definition runs {St A} (m : M St A) (s : St) (Q : A → St → Prop)
    (QE : Rcondition → St → Prop) : Prop :=
  match m s with
  | Ret a s' => Q a s'
  | Raise e s' => QE e s'
  | Fault _ => False
  end.

(** The arguments R hands to do_getF when vegan calls it: a response of
    [nr] by [nc] cells, a table of [nperm] permutations of [1..nr], one per
    row, sizes that an int holds, and a factorization QZ when the model is
    partial. *)
Definition getF_wf (perms : Rmatrix Z) (E : Rmatrix float)
    (QZ : option QRobj) (isPartial : Z) : Prop :=
  0 ≤ mnrow perms ∧ 0 ≤ mnrow E ∧ 0 ≤ mncol E
  ∧ mnrow perms * 2 ≤ INT_MAX
  ∧ mnrow E * mncol E ≤ INT_MAX
  ∧ mnrow perms * mnrow E ≤ INT_MAX
  ∧ length (mdata E) = Z.to_nat (mnrow E * mncol E)
  ∧ length (mdata perms) = Z.to_nat (mnrow perms * mnrow E)
  ∧ Forall (λ p, 1 ≤ p ≤ mnrow E) (mdata perms)
  ∧ (isPartial ≠ 0 → is_Some QZ).

(** What svdfirst needs in order to reach its two status checks: a matrix
    with a row and a column, and a dgesdd that answers the workspace query
    with a length that is a non-negative int. *)
Definition dgesdd_usable
    (dgesdd : string → Z → Z → list float → Z → Z → Z → Z → dgesdd_out)
    (nr nc : Z) : Prop :=
  1 ≤ Z.min nr nc ∧ 8 * Z.min nr nc ≤ INT_MAX
  ∧ ∀ a, ∃ lwork,
      int_of_double (g_work (dgesdd "N"%string nr nc a nr nr nc (-1)) 0%nat)
      = Val lwork
      ∧ 0 ≤ lwork.

(** The memory as every turn of the loop finds it and leaves it. *)
Definition loop_ready (perms : Rmatrix Z) (E : Rmatrix float) (QR : QRobj)
    (QZ : option QRobj) (m : mem) : Prop :=
  loop_frame perms E QR QZ m
  ∧ sized (mnrow perms) (mnrow E) (mncol E) m
  ∧ length (rY m) = Z.to_nat (mnrow E * mncol E)
  ∧ length (qty m) = Z.to_nat (mnrow E).

(** A table with a missing value: R's NA_integer_ is INT_MIN. *)
Definition permsNA : Rmatrix Z :=
  {| mdata := [1; 2; INT_MIN; 1]; mnrow := 2; mncol := 2 |}.

(** The cells that dqrsl writes for the [cols] columns of [y], column
    after column; [out] picks the array: the fitted values or the
    residuals. *)
Definition projected (dqrsl : list float → Z → Z → Z → list float
                              → list float → Z → dqrsl_out)
    (QR : QRobj) (nr : Z) (cols : nat) (job : Z)
    (out : dqrsl_out → nat → float) (y : list float) : list float :=
  flat_map
    (λ j : nat,
       filled nr (out (dqrsl (qr_qr QR) nr nr (qr_rank QR) (qr_qraux QR)
                         (column nr (Z.of_nat j) y) job)))
    (seq 0 cols).

(** * Part II: the properties *)

(** ** Facts on evaluation *)

Lemma int_Val z : INT_MIN ≤ z ≤ INT_MAX → int z = Val z.
Proof. intros H. unfold int. by rewrite decide_True. Qed.

Lemma int_inv z v : int z = Val v → v = z ∧ INT_MIN ≤ z ≤ INT_MAX.
Proof. unfold int. case_decide; [|done]. by intros [= <-]. Qed.

Lemma rd_Val {A} (buf : list A) (i : nat) v :
  buf !! i = Some v → rd buf (Z.of_nat i) = Val v.
Proof.
  intros H. unfold rd. rewrite decide_True by lia.
  by rewrite Nat2Z.id, H.
Qed.

Lemma rd_inv {A} (buf : list A) i v :
  rd buf i = Val v → 0 ≤ i ∧ buf !! Z.to_nat i = Some v.
Proof.
  unfold rd. case_decide; [|done].
  destruct (buf !! Z.to_nat i) eqn:E; [|done]. by intros [= <-].
Qed.

Lemma wr_inv {A} (buf buf' : list A) i v :
  wr buf i v = Val buf' →
  0 ≤ i < Z.of_nat (length buf) ∧ buf' = <[Z.to_nat i := v]> buf.
Proof. unfold wr. case_decide; [|done]. by intros [= <-]. Qed.

Lemma res_bind_inv {A B} (r : res A) (k : A → res B) b :
  r ≫= k = Val b → ∃ a, r = Val a ∧ k a = Val b.
Proof. destruct r as [a|f]; [|done]. intros H. by exists a. Qed.

Lemma res_bind_Val {A B} (a : A) (k : A → res B) : Val a ≫= k = k a.
Proof. reflexivity. Qed.

(** ** The two loops of getEV *)

Lemma getEV_all_body_Val (x : list float) (i : nat) (a v : float) :
  x !! i = Some v → getEV_all_body x (Z.of_nat i) a = Val (acc_sq a v).
Proof. intros Hv. unfold getEV_all_body. by rewrite (rd_Val _ _ _ Hv). Qed.

Lemma getEV_diag_body_Val (x : list float) (nr : Z) (i : nat) (a v : float) :
  0 ≤ nr → Z.of_nat i * nr + Z.of_nat i ≤ INT_MAX →
  x !! Z.to_nat (Z.of_nat i * nr + Z.of_nat i) = Some v →
  getEV_diag_body x nr (Z.of_nat i) a = Val (acc_sq a v).
Proof.
  intros Hnr Hmax Hv. unfold getEV_diag_body.
  rewrite int_Val by (unfold INT_MIN; nia). rewrite res_bind_Val.
  rewrite int_Val by (unfold INT_MIN; nia). rewrite res_bind_Val.
  rewrite <- (Z2Nat.id (Z.of_nat i * nr + Z.of_nat i)) by nia.
  by rewrite (rd_Val _ _ _ Hv).
Qed.

Lemma getEV_all_loop (x : list float) (cnt i : nat) (a : float) :
  (i + cnt ≤ length x)%nat →
  for_res cnt (Z.of_nat i) (getEV_all_body x) a
  = Val (foldl acc_sq a (take cnt (drop i x))).
Proof.
  revert i a. induction cnt as [|cnt IH]; intros i a Hlen; [done|].
  destruct (lookup_lt_is_Some_2 x i) as [v Hv]; [lia|].
  cbn [for_res]. rewrite (getEV_all_body_Val _ _ _ _ Hv), res_bind_Val.
  replace (Z.of_nat i + 1) with (Z.of_nat (S i)) by lia.
  rewrite IH by lia.
  by rewrite (drop_S _ _ _ Hv).
Qed.

Lemma getEV_diag_loop (x : list float) (nr : Z) (cnt i : nat) (a : float) :
  0 ≤ nr → nr * nr ≤ INT_MAX → nr * nr ≤ Z.of_nat (length x) →
  Z.of_nat (i + cnt) ≤ nr →
  for_res cnt (Z.of_nat i) (getEV_diag_body x nr) a
  = Val (foldl (λ s i, acc_sq s (entry x nr i i)) a (seq i cnt)).
Proof.
  intros Hnr Hmax Hlen. revert i a.
  induction cnt as [|cnt IH]; intros i a Hi; [done|].
  assert (0 ≤ Z.of_nat i * nr ∧ Z.of_nat i * nr + Z.of_nat i < nr * nr)
    as [Hlo Hhi] by nia.
  destruct (lookup_lt_is_Some_2 x (Z.to_nat (Z.of_nat i * nr + Z.of_nat i)))
    as [v Hv]; [lia|].
  cbn [for_res].
  rewrite (getEV_diag_body_Val _ _ _ _ v) by (done || lia).
  rewrite res_bind_Val.
  replace (Z.of_nat i + 1) with (Z.of_nat (S i)) by lia.
  rewrite IH by lia. cbn [seq foldl]. do 2 f_equal.
  unfold entry.
  replace (Z.of_nat i + nr * Z.of_nat i) with (Z.of_nat i * nr + Z.of_nat i)
    by lia.
  by rewrite (list_lookup_total_correct _ _ _ Hv).
Qed.

Lemma getEV_all_Val (x : list float) (nr nc : Z) :
  0 ≤ nr → 0 ≤ nc → nr * nc ≤ INT_MAX → nr * nc ≤ Z.of_nat (length x) →
  getEV x nr nc 0 = Val (sumOfSquares_all x nr nc).
Proof.
  intros Hnr Hnc Hmax Hlen. unfold getEV, sumOfSquares_all.
  rewrite int_Val by (unfold INT_MIN; nia). rewrite res_bind_Val.
  rewrite (getEV_all_loop x (Z.to_nat (nr * nc)) 0) by lia. done.
Qed.

Lemma getEV_diag_Val (x : list float) (nr nc : Z) :
  0 ≤ nr → nr * nr ≤ INT_MAX → nr * nr ≤ Z.of_nat (length x) →
  getEV x nr nc 1 = Val (sumOfSquares_diag x nr).
Proof.
  intros Hnr Hmax Hlen. unfold getEV, sumOfSquares_diag.
  rewrite (getEV_diag_loop x nr (Z.to_nat nr) 0) by lia. done.
Qed.

(** A loop fails only with a fault of its body. *)
Lemma for_res_Bad {A} (body : Z → A → res A) (cnt : nat) (i : Z) (a : A) f :
  for_res cnt i body a = Bad f → ∃ j b, body j b = Bad f.
Proof.
  revert i a. induction cnt as [|cnt IH]; intros i a; [done|].
  cbn [for_res]. destruct (body i a) as [a'|f'] eqn:E.
  - rewrite res_bind_Val. apply IH.
  - intros [= <-]. eauto.
Qed.

Lemma int_not_uninit z : int z ≠ Bad uninit_read.
Proof. unfold int. by case_decide. Qed.

Lemma rd_not_uninit {A} (buf : list A) i : rd buf i ≠ Bad uninit_read.
Proof. unfold rd. case_decide; [|done]. by destruct (buf !! _). Qed.

Lemma res_bind_not_Bad {A B} (r : res A) (k : A → res B) f :
  r ≠ Bad f → (∀ a, k a ≠ Bad f) → r ≫= k ≠ Bad f.
Proof. intros Hr Hk. destruct r as [a|g]; [apply Hk|]. intros [= ->]. done. Qed.

Lemma getEV_all_body_not_uninit x i a :
  getEV_all_body x i a ≠ Bad uninit_read.
Proof.
  unfold getEV_all_body.
  apply res_bind_not_Bad; [apply rd_not_uninit|done].
Qed.

Lemma getEV_diag_body_not_uninit x nr i a :
  getEV_diag_body x nr i a ≠ Bad uninit_read.
Proof.
  unfold getEV_diag_body.
  apply res_bind_not_Bad; [apply int_not_uninit|intros t].
  apply res_bind_not_Bad; [apply int_not_uninit|intros ii].
  apply res_bind_not_Bad; [apply rd_not_uninit|done].
Qed.

(** C6. getEV with flag 0 is the sum of the squares of the first [nr*nc]
    entries, with flag 1 the sum of the squares of the diagonal entries of
    the [nr] by [nr] layout; on [[1,2],[3,4]] these are 30 and 17. *)
Theorem getEV_sumOfSquares (x : list float) (nr nc : Z) (diagonalOnly : bool) :
  0 ≤ nr → 0 ≤ nc →
  (if diagonalOnly then nr * nr else nr * nc) ≤ INT_MAX →
  (if diagonalOnly then nr * nr else nr * nc) ≤ Z.of_nat (length x) →
  getEV x nr nc (if diagonalOnly then 1 else 0)
  = Val (sumOfSquares x nr nc diagonalOnly)
  ∧ getEV m1234 2 2 0 = Val 30%float
  ∧ getEV m1234 2 2 1 = Val 17%float.
Proof.
  intros Hnr Hnc Hmax Hlen. split; [|split; vm_compute; reflexivity].
  destruct diagonalOnly; unfold sumOfSquares.
  - by apply getEV_diag_Val.
  - by apply getEV_all_Val.
Qed.

Lemma getEV_sumOfSquares_witness :
  (0 ≤ 2 ∧ 2 * 2 ≤ INT_MAX ∧ 2 * 2 ≤ Z.of_nat (length m1234))
  ∧ getEV m1234 2 2 1 = Val (sumOfSquares m1234 2 2 true)
  ∧ getEV m1234 2 2 0 = Val (sumOfSquares m1234 2 2 false)
  ∧ sumOfSquares m1234 2 2 true = 17%float
  ∧ sumOfSquares m1234 2 2 false = 30%float.
Proof.
  split; [unfold INT_MAX; simpl; lia|].
  split; [|split; [|split; vm_compute; reflexivity]].
  - apply (getEV_sumOfSquares m1234 2 2 true); unfold INT_MAX; simpl; lia.
  - apply (getEV_sumOfSquares m1234 2 2 false); unfold INT_MAX; simpl; lia.
Defined.

(** C10. getEV is defined for the flags 0 and 1 only: with any other flag
    no branch of the switch runs and the value returned is that of the
    unassigned [sumev], whatever the buffer and the dimensions; with 0 or 1
    the variable is assigned, and on a buffer of the size the flag needs a
    value is returned. *)
Theorem getEV_flag_domain (x : list float) (nr nc isDB : Z) :
  (isDB ≠ 0 → isDB ≠ 1 → getEV x nr nc isDB = Bad uninit_read)
  ∧ (isDB = 0 ∨ isDB = 1 → getEV x nr nc isDB ≠ Bad uninit_read)
  ∧ ((∃ v, getEV x nr nc isDB = Val v) → isDB = 0 ∨ isDB = 1)
  ∧ (isDB = 0 ∨ isDB = 1 →
     0 ≤ nr → 0 ≤ nc → nr * nc ≤ INT_MAX → nr * nr ≤ INT_MAX →
     nr * nc ≤ Z.of_nat (length x) → nr * nr ≤ Z.of_nat (length x) →
     ∃ v, getEV x nr nc isDB = Val v).
Proof.
  assert (isDB ≠ 0 → isDB ≠ 1 → getEV x nr nc isDB = Bad uninit_read) as Hother.
  { intros H0 H1. unfold getEV. destruct isDB as [|[p|p|]|p]; done. }
  split; [done|]. split; [|split].
  - intros [-> | ->] Hbad; unfold getEV in Hbad.
    + destruct (int (nr * nc)) as [n|f] eqn:En.
      * rewrite res_bind_Val in Hbad.
        destruct (for_res _ _ _ _) as [s|f] eqn:El; [done|].
        injection Hbad as ->. apply for_res_Bad in El as (j & b & Hb).
        by apply getEV_all_body_not_uninit in Hb.
      * injection Hbad as ->. by apply int_not_uninit in En.
    + destruct (for_res _ _ _ _) as [s|f] eqn:El; [done|].
      injection Hbad as ->. apply for_res_Bad in El as (j & b & Hb).
      by apply getEV_diag_body_not_uninit in Hb.
  - intros [v Hv]. destruct (decide (isDB = 0)) as [|H0]; [by left|].
    destruct (decide (isDB = 1)) as [|H1]; [by right|].
    rewrite Hother in Hv by done. done.
  - intros [-> | ->] Hnr Hnc Hm1 Hm2 Hl1 Hl2.
    + eexists. by apply getEV_all_Val.
    + eexists. by apply getEV_diag_Val.
Qed.

Lemma getEV_flag_domain_witness :
  (2 ≠ 0 ∧ 2 ≠ 1 ∧ getEV m1234 2 2 2 = Bad uninit_read)
  ∧ ((0 = 0 ∨ 0 = 1) ∧ 0 ≤ 2 ∧ 2 * 2 ≤ INT_MAX
     ∧ 2 * 2 ≤ Z.of_nat (length m1234)
     ∧ getEV m1234 2 2 0 ≠ Bad uninit_read
     ∧ ∃ v, getEV m1234 2 2 0 = Val v).
Proof.
  split.
  - split; [lia|]. split; [lia|].
    apply (getEV_flag_domain m1234 2 2 2); lia.
  - split; [by left|]. split; [lia|].
    split; [unfold INT_MAX; lia|]. split; [simpl; lia|].
    split.
    + apply (getEV_flag_domain m1234 2 2 0). by left.
    + apply (getEV_flag_domain m1234 2 2 0);
        first [by left | unfold INT_MAX; simpl; lia].
Defined.

(** ** Reasoning about stateful evaluation *)

Section Post.
Context {St : Type}.
Implicit Types (s : St) (QE : Rcondition → St → Prop).

Lemma post_ret {A} (a : A) s (Q : A → St → Prop) QE :
  Q a s → post (mret a) s Q QE.
Proof. done. Qed.

Lemma post_bind {A B} (m : M St A) (k : A → M St B) s
    (Q : B → St → Prop) QE :
  post m s (λ a s', post (k a) s' Q QE) QE → post (m ≫= k) s Q QE.
Proof.
  unfold post, mbind, M_bind. by destruct (m s).
Qed.

Lemma post_pure {A} (r : res A) s (Q : A → St → Prop) QE :
  (∀ a, r = Val a → Q a s) → post (pure r) s Q QE.
Proof. unfold post, pure. destruct r; auto. Qed.

Lemma post_gets {A} (f : St → A) s (Q : A → St → Prop) QE :
  Q (f s) s → post (gets f) s Q QE.
Proof. done. Qed.

Lemma post_modify (f : St → St) s (Q : unit → St → Prop) QE :
  Q tt (f s) → post (modify f) s Q QE.
Proof. done. Qed.

Lemma post_error {A} fmt arg s (Q : A → St → Prop) QE :
  QE (Rf_error fmt arg) s → post (error fmt arg) s Q QE.
Proof. done. Qed.

Lemma post_when (b : bool) (m : M St unit) s (Q : unit → St → Prop) QE :
  (b = true → post m s Q QE) → (b = false → Q tt s) →
  post (when b m) s Q QE.
Proof. destruct b; cbn; auto. Qed.

Lemma post_mono {A} (m : M St A) s (Q Q' : A → St → Prop) QE QE' :
  post m s Q QE →
  (∀ a s', Q a s' → Q' a s') → (∀ e s', QE e s' → QE' e s') →
  post m s Q' QE'.
Proof. unfold post. destruct (m s); auto. Qed.

(** A loop with an invariant indexed by the number of turns done. *)
Lemma post_for (I : nat → St → Prop) (body : Z → M St unit) QE
    (cnt : nat) (i0 : Z) s :
  I O s →
  (∀ j s', (j < cnt)%nat → I j s' →
           post (body (i0 + Z.of_nat j)) s' (λ _, I (S j)) QE) →
  post (for_M cnt i0 body) s (λ _, I cnt) QE.
Proof.
  revert I i0 s. induction cnt as [|cnt IH]; intros I i0 s H0 Hstep; [done|].
  cbn [for_M]. apply post_bind.
  pose proof (Hstep O s ltac:(lia) H0) as Hfirst.
  rewrite Z.add_0_r in Hfirst.
  eapply post_mono; [exact Hfirst| |done].
  intros [] s' Hs'. cbn beta.
  apply (IH (λ j, I (S j))); [done|].
  intros j s'' Hj HI.
  replace (i0 + 1 + Z.of_nat j) with (i0 + Z.of_nat (S j)) by lia.
  apply Hstep; [lia|done].
Qed.

Lemma post_for_keeps (P : St → Prop) (body : Z → M St unit) QE
    (cnt : nat) (i0 : Z) s :
  P s →
  (∀ j s', (j < cnt)%nat → P s' →
           post (body (i0 + Z.of_nat j)) s' (λ _, P) QE) →
  post (for_M cnt i0 body) s (λ _, P) QE.
Proof. intros HP Hstep. by apply (post_for (λ _, P)). Qed.

Lemma post_Ret {A} (m : M St A) s (Q : A → St → Prop) QE a s' :
  post m s Q QE → m s = Ret a s' → Q a s'.
Proof. unfold post. intros H E. by rewrite E in H. Qed.

Lemma post_Raise {A} (m : M St A) s (Q : A → St → Prop) QE e s' :
  post m s Q QE → m s = Raise e s' → QE e s'.
Proof. unfold post. intros H E. by rewrite E in H. Qed.

(** Taking a successful run apart. *)
Lemma bind_Ret {A B} (m : M St A) (k : A → M St B) s b s' :
  (m ≫= k) s = Ret b s' → ∃ a s1, m s = Ret a s1 ∧ k a s1 = Ret b s'.
Proof.
  unfold mbind, M_bind. destruct (m s) as [a s1| |]; [|done..]. eauto.
Qed.

Lemma pure_Ret {A} (r : res A) s a s' :
  pure r s = Ret a s' → r = Val a ∧ s' = s.
Proof. unfold pure. destruct r; [|done]. by intros [= <- <-]. Qed.

Lemma for_M_split (body : Z → M St unit) (cnt j : nat) (i0 : Z) s sf :
  (j < cnt)%nat →
  for_M cnt i0 body s = Ret tt sf →
  ∃ s1 s2, for_M j i0 body s = Ret tt s1
           ∧ body (i0 + Z.of_nat j) s1 = Ret tt s2
           ∧ for_M (cnt - S j) (i0 + Z.of_nat (S j)) body s2 = Ret tt sf.
Proof.
  revert j i0 s. induction cnt as [|cnt IH]; intros j i0 s Hj Hrun; [lia|].
  cbn [for_M] in Hrun. apply bind_Ret in Hrun as ([] & s1 & Hb & Hrest).
  destruct j as [|j].
  - exists s, s1. rewrite Z.add_0_r. split; [done|]. split; [done|].
    by replace (S cnt - 1)%nat with cnt by lia.
  - destruct (IH j (i0 + 1) s1) as (t1 & t2 & H1 & H2 & H3); [lia|done|].
    exists t1, t2. split; [|split].
    + cbn [for_M]. unfold mbind, M_bind. by rewrite Hb.
    + by replace (i0 + Z.of_nat (S j)) with (i0 + 1 + Z.of_nat j) by lia.
    + replace (i0 + Z.of_nat (S (S j))) with (i0 + 1 + Z.of_nat (S j))
        by lia.
      done.
Qed.

End Post.

Ltac mstep :=
  lazymatch goal with
  | |- post (mbind _ _) _ _ _ => apply post_bind
  | |- post (mret _) _ _ _ => apply post_ret
  | |- post (pure _) _ _ _ => apply post_pure; intros ? ?
  | |- post (gets _) _ _ _ => apply post_gets
  | |- post (modify _) _ _ _ => apply post_modify
  | |- post (error _ _) _ _ _ => apply post_error
  | |- post (when _ _) _ _ _ => apply post_when; intros ?
  | |- post (if decide _ then _ else _) _ _ _ => case_decide
  end; cbn beta zeta.

Section Keeps.
Context {St : Type} (P : St → Prop) (QE : Rcondition → St → Prop).

Lemma keeps_ret {A} (a : A) : keeps P QE (mret a).
Proof. by intros s Hs. Qed.

Lemma keeps_bind {A B} (m : M St A) (k : A → M St B) :
  keeps P QE m → (∀ a, keeps P QE (k a)) → keeps P QE (m ≫= k).
Proof.
  intros Hm Hk s Hs. apply post_bind.
  eapply post_mono; [by apply Hm| |done]. intros a s' Hs'. by apply Hk.
Qed.

Lemma keeps_pure {A} (r : res A) : keeps P QE (pure r).
Proof. intros s Hs. by apply post_pure. Qed.

Lemma keeps_gets {A} (f : St → A) : keeps P QE (gets f).
Proof. by intros s Hs. Qed.

Lemma keeps_modify (f : St → St) :
  (∀ s, P s → P (f s)) → keeps P QE (modify f).
Proof. intros Hf s Hs. by apply Hf. Qed.

Lemma keeps_error {A} fmt arg :
  (∀ s, P s → QE (Rf_error fmt arg) s) → keeps P QE (@error St A fmt arg).
Proof. intros H s Hs. by apply H. Qed.

Lemma keeps_when (b : bool) (m : M St unit) :
  (b = true → keeps P QE m) → keeps P QE (when b m).
Proof. destruct b; cbn; [auto|]. intros _. apply keeps_ret. Qed.

Lemma keeps_for (body : Z → M St unit) (cnt : nat) (i0 : Z) :
  (∀ i, keeps P QE (body i)) → keeps P QE (for_M cnt i0 body).
Proof.
  intros Hb s Hs. apply post_for_keeps; [done|].
  intros j s' _ Hs'. by apply Hb.
Qed.

End Keeps.

Ltac keeps_step :=
  lazymatch goal with
  | |- keeps _ _ (mbind _ _) => apply keeps_bind; [|intros ?]
  | |- keeps _ _ (mret _) => apply keeps_ret
  | |- keeps _ _ (pure _) => apply keeps_pure
  | |- keeps _ _ (gets _) => apply keeps_gets
  | |- keeps _ _ (modify _) => apply keeps_modify
  | |- keeps _ _ (error _ _) => apply keeps_error
  | |- keeps _ _ (when _ _) => apply keeps_when; intros ?
  | |- keeps _ _ (for_M _ _ _) => apply keeps_for; intros ?
  | |- keeps _ _ (if decide _ then _ else _) => case_decide
  | |- keeps _ _ (let '(_, _) := ?p in _) => destruct p
  end; cbn beta zeta.

(** ** svdfirst *)

Section SvdfirstFacts.

Variable fresh : string → nat → float.
Variable dgesdd : string → Z → Z → list float → Z → Z → Z → Z → dgesdd_out.

(** Nothing in svdfirst writes through [x], and the only conditions it
    raises are the two after dgesdd. *)
Lemma svdfirst_body_keeps (P : svd_frame → Prop) nr nc :
  (∀ v fr, P fr → P (set_xwork v fr)) →
  (∀ v fr, P fr → P (set_sigma v fr)) →
  (∀ v fr, P fr → P (set_work v fr)) →
  keeps P (λ e fr, P fr ∧ ∃ code, dgesdd_failed code e)
    (svdfirst_body fresh dgesdd nr nc).
Proof.
  intros Hx Hs Hw. unfold svdfirst_body, svd_setup, svd_calls, copy_cell.
  repeat keeps_step; auto.
  all: intros s Hs'; split; [done|]; eexists; split; eauto.
Qed.

Lemma minrc_min nr nc : (if decide (nr < nc) then nr else nc) = Z.min nr nc.
Proof. case_decide; lia. Qed.

Lemma set_xwork_id fr : set_xwork (sv_xwork fr) fr = fr.
Proof. by destruct fr. Qed.

Lemma copy_cell_run fr (i : nat) v :
  sv_x fr !! i = Some v → (i < length (sv_xwork fr))%nat →
  copy_cell (Z.of_nat i) fr
  = Ret tt (set_xwork (<[i := v]> (sv_xwork fr)) fr).
Proof.
  intros Hv Hi. unfold copy_cell, mbind, M_bind, gets, pure, modify.
  rewrite (rd_Val _ _ _ Hv). unfold wr.
  rewrite decide_True by lia. by rewrite Nat2Z.id.
Qed.

Lemma copy_loop_run (cnt i : nat) fr :
  (i + cnt ≤ length (sv_x fr))%nat →
  (i + cnt ≤ length (sv_xwork fr))%nat →
  for_M cnt (Z.of_nat i) copy_cell fr
  = Ret tt (set_xwork (take i (sv_xwork fr) ++ take cnt (drop i (sv_x fr))
                       ++ drop (i + cnt) (sv_xwork fr)) fr).
Proof.
  revert i fr. induction cnt as [|cnt IH]; intros i fr Hx Hw.
  - cbn [for_M]. rewrite Nat.add_0_r, take_0. cbn [app].
    by rewrite take_drop, set_xwork_id.
  - destruct (lookup_lt_is_Some_2 (sv_x fr) i) as [v Hv]; [lia|].
    cbn [for_M]. unfold mbind, M_bind at 1.
    rewrite (copy_cell_run _ _ _ Hv) by lia.
    replace (Z.of_nat i + 1) with (Z.of_nat (S i)) by lia.
    rewrite IH; cbn [sv_x sv_xwork set_xwork];
      rewrite ?length_insert; [|lia..].
    f_equal. unfold set_xwork; cbn. f_equal.
    rewrite (drop_S _ _ _ Hv). cbn [take].
    rewrite drop_insert_lt by lia.
    rewrite (take_S_r _ _ v) by (apply list_lookup_insert_eq; lia).
    rewrite take_insert_ge by lia. rewrite <- app_assoc. cbn [app].
    by rewrite Nat.add_succ_r.
Qed.

Lemma copy_loop_bound (cnt i : nat) fr fr' :
  for_M cnt (Z.of_nat i) copy_cell fr = Ret tt fr' →
  (0 < cnt)%nat → (i + cnt ≤ length (sv_x fr))%nat.
Proof.
  revert i fr. induction cnt as [|cnt IH]; intros i fr Hrun Hcnt; [lia|].
  cbn [for_M] in Hrun. apply bind_Ret in Hrun as ([] & fr1 & Hc & Hrest).
  unfold copy_cell in Hc.
  apply bind_Ret in Hc as (x & s1 & [= <- <-] & Hc).
  apply bind_Ret in Hc as (v & s1 & [Hrd ->]%pure_Ret & Hc).
  apply bind_Ret in Hc as (xw & s1 & [= <- <-] & Hc).
  apply bind_Ret in Hc as (xw' & s1 & [Hwr ->]%pure_Ret & [= <-]).
  apply rd_inv in Hrd as [_ Hv]. rewrite Nat2Z.id in Hv.
  apply lookup_lt_Some in Hv.
  destruct cnt as [|cnt]; [lia|].
  replace (Z.of_nat i + 1) with (Z.of_nat (S i)) in Hrest by lia.
  apply IH in Hrest; [|lia]. cbn in Hrest. lia.
Qed.

Lemma svd_setup_run x nr nc :
  svd_wf x nr nc →
  svd_setup fresh nr nc (frame0 x) = Ret (nr * nc, Z.min nr nc) (frame1 fresh x nr nc).
Proof.
  intros (Hlen & Hx & Hmin & Hmax). unfold svd_setup.
  rewrite minrc_min. unfold mbind, M_bind at 1.
  rewrite int_Val by (unfold INT_MIN; lia). cbn [pure].
  unfold mbind, M_bind at 1. unfold R_alloc at 1.
  rewrite decide_True by lia. cbn [pure].
  unfold mbind, M_bind at 1. cbn [modify].
  unfold mbind, M_bind at 1.
  rewrite (copy_loop_run _ 0);
    cbn [sv_x sv_xwork set_xwork frame0];
    rewrite ?length_map, ?length_seq; [|lia..].
  unfold mbind, M_bind at 1. unfold R_alloc at 1.
  rewrite decide_True by lia. cbn [pure].
  unfold mbind, M_bind at 1. cbn [modify].
  unfold mbind, M_bind at 1.
  rewrite int_Val by (unfold INT_MIN; lia). cbn [pure].
  unfold mbind, M_bind at 1. unfold R_alloc at 1.
  rewrite decide_True by lia. cbn [pure mret M_ret].
  f_equal. unfold frame1, svd_input, set_sigma, set_xwork; cbn.
  f_equal. rewrite take_0, drop_0.
  rewrite drop_ge by (rewrite length_map, length_seq; lia).
  cbn [app]. by rewrite app_nil_r.
Qed.

Lemma svd_setup_Ret x nr nc len minrc fr :
  svd_setup fresh nr nc (frame0 x) = Ret (len, minrc) fr →
  svd_wf x nr nc.
Proof.
  unfold svd_setup. rewrite minrc_min. intros H.
  apply bind_Ret in H as (n & s1 & [Hn ->]%pure_Ret & H).
  apply int_inv in Hn as [-> Hn].
  apply bind_Ret in H as (xw & s1 & [Hxw ->]%pure_Ret & H).
  unfold R_alloc in Hxw. case_decide as Hpos; [|done].
  injection Hxw as <-.
  apply bind_Ret in H as ([] & s1 & [= <-] & H).
  apply bind_Ret in H as ([] & s1 & Hloop & H).
  apply bind_Ret in H as (sg & s2 & [Hsg ->]%pure_Ret & H).
  unfold R_alloc in Hsg. case_decide as Hmin; [|done].
  apply bind_Ret in H as ([] & s3 & [= <-] & H).
  apply bind_Ret in H as (n8 & s4 & [Hn8 ->]%pure_Ret & H).
  apply int_inv in Hn8 as [-> Hn8].
  repeat split; try lia.
  destruct (Z.to_nat (nr * nc)) as [|c] eqn:Ec; [lia|].
  apply (copy_loop_bound _ 0) in Hloop; [|lia]. cbn in Hloop. lia.
Qed.

Lemma fill_whole {A} (buf : list A) (n : Z) (out : nat → A) :
  0 ≤ n → length buf = Z.to_nat n →
  fill buf 0 n out = Val (map out (seq 0 (Z.to_nat n))).
Proof.
  intros Hn Hlen. unfold fill. rewrite decide_True by lia.
  rewrite Z.add_0_l. cbn [Z.to_nat take app].
  rewrite drop_ge by lia. by rewrite app_nil_r.
Qed.

Lemma svd_calls_query_fails x nr nc :
  g_info (svd_query dgesdd x nr nc) ≠ 0 →
  svd_calls fresh dgesdd nr nc (nr * nc) (Z.min nr nc) (frame1 fresh x nr nc)
  = Raise (Rf_error "error %d from Lapack dgesdd"
             (g_info (svd_query dgesdd x nr nc))) (frame1 fresh x nr nc).
Proof.
  intros Hq. unfold svd_calls, mbind, M_bind, gets. cbn [sv_xwork frame1].
  fold (svd_query dgesdd x nr nc). by rewrite decide_True.
Qed.

Lemma svd_calls_decomp x nr nc lwork :
  svd_wf x nr nc →
  g_info (svd_query dgesdd x nr nc) = 0 →
  int_of_double (g_work (svd_query dgesdd x nr nc) 0) = Val lwork →
  0 ≤ lwork →
  svd_calls fresh dgesdd nr nc (nr * nc) (Z.min nr nc) (frame1 fresh x nr nc)
  = if decide (g_info (svd_decomp dgesdd x nr nc lwork) ≠ 0)
    then Raise (Rf_error "error %d from Lapack dgesdd, pos 2"
                  (g_info (svd_decomp dgesdd x nr nc lwork)))
           (frame2 dgesdd x nr nc lwork)
    else pure (rd (sv_sigma (frame2 dgesdd x nr nc lwork)) 0) (frame2 dgesdd x nr nc lwork).
Proof.
  intros (Hlen & Hx & Hmin & Hmax) Hq Hlw Hpos.
  unfold svd_calls. unfold mbind, M_bind at 1. cbn [gets sv_xwork frame1].
  fold (svd_query dgesdd x nr nc). rewrite decide_False by lia.
  unfold mbind, M_bind at 1. rewrite Hlw. cbn [pure].
  unfold mbind, M_bind at 1. unfold R_alloc.
  rewrite decide_True by done. cbn [pure].
  unfold mbind, M_bind at 1. cbn [modify].
  unfold mbind, M_bind at 1. cbn [gets sv_xwork set_work].
  fold (svd_decomp dgesdd x nr nc lwork).
  unfold mbind, M_bind at 1.
  rewrite fill_whole;
    [|lia|cbn; unfold svd_input; rewrite length_take; lia].
  cbn [pure]. unfold mbind, M_bind at 1. cbn [modify].
  unfold mbind, M_bind at 1. cbn [gets sv_sigma set_xwork].
  unfold mbind, M_bind at 1.
  rewrite fill_whole; [|lia|cbn; by rewrite length_map, length_seq].
  cbn [pure]. unfold mbind, M_bind at 1. cbn [modify].
  unfold mbind, M_bind at 1. cbn [gets sv_work set_sigma].
  unfold mbind, M_bind at 1.
  rewrite fill_whole; [|lia|cbn; by rewrite length_map, length_seq].
  cbn [pure]. unfold mbind, M_bind at 1. cbn [modify].
  unfold set_work, set_sigma, set_xwork, frame1.
  cbn [sv_x sv_xwork sv_sigma sv_work].
  unfold frame2, svd_decomp. by case_decide.
Qed.

Lemma svd_calls_Ret x nr nc v fr :
  svd_wf x nr nc →
  svd_calls fresh dgesdd nr nc (nr * nc) (Z.min nr nc) (frame1 fresh x nr nc)
  = Ret v fr →
  g_info (svd_query dgesdd x nr nc) = 0
  ∧ ∃ lwork, int_of_double (g_work (svd_query dgesdd x nr nc) 0) = Val lwork
             ∧ g_info (svd_decomp dgesdd x nr nc lwork) = 0
             ∧ v = g_s (svd_decomp dgesdd x nr nc lwork) 0%nat
             ∧ fr = frame2 dgesdd x nr nc lwork.
Proof.
  intros Hwf Hrun.
  destruct (decide (g_info (svd_query dgesdd x nr nc) = 0)) as [Hq|Hq];
    [|by rewrite svd_calls_query_fails in Hrun].
  split; [done|].
  destruct (int_of_double (g_work (svd_query dgesdd x nr nc) 0))
    as [lwork|f] eqn:Hlw.
  - destruct (decide (0 ≤ lwork)) as [Hpos|Hneg].
    + rewrite (svd_calls_decomp _ _ _ lwork) in Hrun by done.
      case_decide as Hr; [done|].
      apply pure_Ret in Hrun as [Hrd ->].
      apply rd_inv in Hrd as [_ Hrd]. cbn in Hrd.
      exists lwork. split; [done|]. split; [lia|]. split; [|done].
      destruct (Z.to_nat (Z.min nr nc)); [done|].
      change (Z.to_nat 0) with O in Hrd. cbn in Hrd. congruence.
    + exfalso. revert Hrun. unfold svd_calls.
      unfold mbind, M_bind at 1. cbn [gets sv_xwork frame1].
      fold (svd_query dgesdd x nr nc). rewrite decide_False by lia.
      unfold mbind, M_bind at 1. rewrite Hlw. cbn [pure].
      unfold mbind, M_bind at 1. unfold R_alloc.
      by rewrite decide_False by done.
  - exfalso. revert Hrun. unfold svd_calls.
    unfold mbind, M_bind at 1. cbn [gets sv_xwork frame1].
    fold (svd_query dgesdd x nr nc). rewrite decide_False by lia.
    unfold mbind, M_bind at 1. by rewrite Hlw.
Qed.

Lemma svdfirst_unfold x nr nc :
  svd_wf x nr nc →
  svdfirst fresh dgesdd x nr nc
  = svd_calls fresh dgesdd nr nc (nr * nc) (Z.min nr nc) (frame1 fresh x nr nc).
Proof.
  intros Hwf. unfold svdfirst, svdfirst_body, mbind, M_bind.
  fold (frame0 x). by rewrite svd_setup_run.
Qed.

Lemma svdfirst_Ret_wf x nr nc v fr :
  svdfirst fresh dgesdd x nr nc = Ret v fr → svd_wf x nr nc.
Proof.
  unfold svdfirst, svdfirst_body. fold (frame0 x). intros H.
  apply bind_Ret in H as ([len minrc] & fr1 & Hs & _).
  by apply svd_setup_Ret in Hs.
Qed.

(** What a successful call has done. *)
Lemma svdfirst_Ret x nr nc v fr :
  svdfirst fresh dgesdd x nr nc = Ret v fr →
  svd_wf x nr nc
  ∧ g_info (svd_query dgesdd x nr nc) = 0
  ∧ ∃ lwork, int_of_double (g_work (svd_query dgesdd x nr nc) 0) = Val lwork
             ∧ g_info (svd_decomp dgesdd x nr nc lwork) = 0
             ∧ v = g_s (svd_decomp dgesdd x nr nc lwork) 0%nat
             ∧ fr = frame2 dgesdd x nr nc lwork.
Proof.
  intros Hrun. pose proof (svdfirst_Ret_wf _ _ _ _ _ Hrun) as Hwf.
  split; [done|]. rewrite svdfirst_unfold in Hrun by done.
  by apply svd_calls_Ret.
Qed.

Lemma svdfirst_input x nr nc :
  post (svdfirst_body fresh dgesdd nr nc) (frame0 x)
    (λ _ fr, sv_x fr = x)
    (λ e fr, sv_x fr = x ∧ ∃ code, dgesdd_failed code e).
Proof. by apply (svdfirst_body_keeps (λ fr, sv_x fr = x)). Qed.

End SvdfirstFacts.

(** C5. Whatever dgesdd does to the matrix it is handed, the block that the
    caller passed to svdfirst holds after the call, returned or raised,
    what it held before: svdfirst hands dgesdd a copy. *)
Theorem svdfirst_input_intact fresh dgesdd (x : list float) (nr nc : Z) :
  match svdfirst fresh dgesdd x nr nc with
  | Ret _ fr | Raise _ fr => sv_x fr = x
  | Fault _ => True
  end.
Proof.
  pose proof (svdfirst_input fresh dgesdd x nr nc) as H.
  unfold post in H.
  change (svdfirst_body fresh dgesdd nr nc (frame0 x))
    with (svdfirst fresh dgesdd x nr nc) in H.
  destruct (svdfirst fresh dgesdd x nr nc); cbn beta in H; [done| |done].
  by destruct H.
Qed.

(** The copy is what dgesdd overwrites: with [dgesdd_norm], which leaves
    zeros behind, the caller's block is as before and the copy is gone. *)
Example svdfirst_copy_destroyed :
  ∃ v fr, svdfirst junk dgesdd_norm m1234 2 2 = Ret v fr
          ∧ sv_x fr = m1234
          ∧ sv_xwork fr = [0%float; 0%float; 0%float; 0%float].
Proof. do 2 eexists. split; [vm_compute; reflexivity|]. by split. Qed.

(** C4. svdfirst returns a value only when both calls of dgesdd, the
    workspace query and the decomposition, report status 0, and the value is
    then the first singular value of the decomposition; a non-zero status
    of either call is raised as an R error that carries that status. *)
Theorem svdfirst_status fresh dgesdd (x : list float) (nr nc : Z) :
  (∀ v fr, svdfirst fresh dgesdd x nr nc = Ret v fr →
     g_info (svd_query dgesdd x nr nc) = 0
     ∧ ∃ lwork,
         int_of_double (g_work (svd_query dgesdd x nr nc) 0) = Val lwork
         ∧ g_info (svd_decomp dgesdd x nr nc lwork) = 0
         ∧ v = g_s (svd_decomp dgesdd x nr nc lwork) 0%nat)
  ∧ (svd_wf x nr nc →
     g_info (svd_query dgesdd x nr nc) ≠ 0 →
     ∃ fr, svdfirst fresh dgesdd x nr nc
           = Raise (Rf_error "error %d from Lapack dgesdd"
                      (g_info (svd_query dgesdd x nr nc))) fr)
  ∧ (svd_wf x nr nc →
     g_info (svd_query dgesdd x nr nc) = 0 →
     ∀ lwork,
       int_of_double (g_work (svd_query dgesdd x nr nc) 0) = Val lwork →
       0 ≤ lwork →
       g_info (svd_decomp dgesdd x nr nc lwork) ≠ 0 →
       ∃ fr, svdfirst fresh dgesdd x nr nc
             = Raise (Rf_error "error %d from Lapack dgesdd, pos 2"
                        (g_info (svd_decomp dgesdd x nr nc lwork))) fr).
Proof.
  split; [|split].
  - intros v fr Hrun.
    apply svdfirst_Ret in Hrun as (_ & Hq & lwork & Hlw & Hr & Hv & _).
    eauto.
  - intros Hwf Hq. eexists.
    rewrite svdfirst_unfold by done. by apply svd_calls_query_fails.
  - intros Hwf Hq lwork Hlw Hpos Hr. eexists.
    rewrite svdfirst_unfold by done.
    rewrite (svd_calls_decomp _ _ _ _ _ lwork) by done.
    by rewrite decide_True.
Qed.

(** ** do_getF: what its stores keep *)

Lemma wr_length {A} (buf buf' : list A) i v :
  wr buf i v = Val buf' → length buf' = length buf.
Proof. intros [_ ->]%wr_inv. apply length_insert. Qed.

Lemma fill_length {A} (buf buf' : list A) off n out :
  fill buf off n out = Val buf' → length buf' = length buf.
Proof.
  unfold fill. case_decide as H; [|done]. intros [= <-].
  rewrite !length_app, length_take, length_map, length_seq, length_drop.
  lia.
Qed.

Section Frame.

Variable fresh : string → nat → float.
Variable dgesdd : string → Z → Z → list float → Z → Z → Z → Z → dgesdd_out.
Variable dqrsl : list float → Z → Z → Z → list float → list float → Z
                 → dqrsl_out.

Variable P : mem → Prop.
Variable QE : Rcondition → mem → Prop.

Lemma load_keeps {A} (get : mem → list A) i : keeps P QE (load get i).
Proof. unfold load. repeat keeps_step. Qed.

Lemma load_block_keeps get off n : keeps P QE (load_block get off n).
Proof. unfold load_block. repeat keeps_step. Qed.

Lemma call_getEV_keeps get nr nc isDB :
  keeps P QE (call_getEV get nr nc isDB).
Proof. unfold call_getEV. repeat keeps_step. Qed.

Lemma store_keeps {A} (get : mem → list A) set i v :
  (∀ v m, P m → length v = length (get m) → P (set v m)) →
  keeps P QE (store get set i v).
Proof.
  intros Hset s Hs. unfold store. repeat mstep.
  apply Hset; [done|]. by eapply wr_length.
Qed.

Lemma store_block_keeps get set off n out :
  (∀ v m, P m → length v = length (get m) → P (set v m)) →
  keeps P QE (store_block get set off n out).
Proof.
  intros Hset s Hs. unfold store_block. repeat mstep.
  apply Hset; [done|]. by eapply fill_length.
Qed.

Hypothesis Hwork : work_closed P.

Lemma permute_row_keeps nperm nr nc k i :
  keeps P QE (permute_row nperm nr nc k i).
Proof.
  destruct Hwork as (HrY & _).
  unfold permute_row, permute_cell.
  repeat first [apply load_keeps | by apply store_keeps | keeps_step].
Qed.

Lemma partial_col_keeps nr Zqrank k qrkind i :
  (∀ m info, P m →
     P (log_call {| c_model := Zmodel; c_row := k; c_col := i;
                    c_job := qrkind; c_info := info |} m)) →
  keeps P QE (partial_col dqrsl nr Zqrank k qrkind i).
Proof.
  destruct Hwork as (HrY & _ & _ & Hqty). intros Hlog.
  unfold partial_col.
  repeat first [apply load_block_keeps | by apply store_block_keeps
               | keeps_step]; auto.
Qed.

Lemma design_col_keeps nr qrank k qrkind i :
  (∀ m info, P m →
     P (log_call {| c_model := Xmodel; c_row := k; c_col := i;
                    c_job := qrkind; c_info := info |} m)) →
  keeps P QE (design_col dqrsl nr qrank k qrkind i).
Proof.
  destruct Hwork as (_ & Hfit & Hres & Hqty). intros Hlog.
  unfold design_col.
  repeat first [apply load_block_keeps | by apply store_block_keeps
               | keeps_step]; auto.
Qed.

Lemma perm_project_keeps nperm nr nc FIRST PARTIAL qrank Zqrank k :
  (∀ c m, P m → iter_call PARTIAL FIRST k c → P (log_call c m)) →
  keeps P QE
    (perm_project dqrsl nperm nr nc FIRST PARTIAL qrank Zqrank k).
Proof.
  intros Hlog. unfold perm_project.
  repeat first [apply permute_row_keeps | keeps_step].
  - apply partial_col_keeps. intros m info Hm. apply Hlog; [done|].
    split; [done|]. left. cbn.
    match goal with
    | H : bool_decide _ = true |- _ => by apply bool_decide_eq_true in H
    end.
  - apply design_col_keeps. intros m info Hm. apply Hlog; [done|].
    split; [done|]. by right.
Qed.

Hypothesis Hrans : rans_closed P.

Lemma call_svdfirst_keeps nr nc :
  (∀ e m, P m → (∃ code, dgesdd_failed code e) → QE e m) →
  keeps P QE (call_svdfirst fresh dgesdd nr nc).
Proof.
  destruct Hwork as (_ & Hfit & _). intros HQE m Hm.
  unfold post, call_svdfirst.
  pose proof (svdfirst_input fresh dgesdd (fitted m) nr nc) as H.
  unfold post in H.
  change (svdfirst_body fresh dgesdd nr nc (frame0 (fitted m)))
    with (svdfirst fresh dgesdd (fitted m) nr nc) in H.
  destruct (svdfirst fresh dgesdd (fitted m) nr nc) as [v fr|e fr|f];
    cbn beta in H; [| |done].
  - apply Hfit; [done|]. by rewrite H.
  - destruct H as [Hx He]. apply HQE; [|done].
    apply Hfit; [done|]. by rewrite Hx.
Qed.

Lemma perm_eigen_keeps nperm nr nc FIRST PARTIAL k :
  (∀ e m, P m → FIRST ≠ 0 → (∃ code, dgesdd_failed code e) → QE e m) →
  keeps P QE (perm_eigen fresh dgesdd nperm nr nc FIRST PARTIAL k).
Proof.
  intros HQE. unfold perm_eigen.
  repeat first [apply call_getEV_keeps | by apply store_keeps
               | apply call_svdfirst_keeps | keeps_step]; auto.
Qed.

Lemma perm_iter_keeps nperm nr nc FIRST PARTIAL qrank Zqrank k :
  (∀ c m, P m → iter_call PARTIAL FIRST k c → P (log_call c m)) →
  (∀ e m, P m → FIRST ≠ 0 → (∃ code, dgesdd_failed code e) → QE e m) →
  keeps P QE
    (perm_iter fresh dgesdd dqrsl nperm nr nc FIRST PARTIAL qrank Zqrank k).
Proof.
  intros Hlog HQE. unfold perm_iter. apply keeps_bind.
  - by apply perm_project_keeps.
  - intros []. by apply perm_eigen_keeps.
Qed.

Lemma getF_loop_keeps nperm nr nc FIRST PARTIAL rk :
  (∀ c m, P m → (∃ k, iter_call PARTIAL FIRST k c) → P (log_call c m)) →
  (∀ e m, P m → FIRST ≠ 0 → (∃ code, dgesdd_failed code e) → QE e m) →
  keeps P QE (getF_loop fresh dgesdd dqrsl nperm nr nc FIRST PARTIAL rk).
Proof.
  intros Hlog HQE. unfold getF_loop. apply keeps_for. intros k.
  apply perm_iter_keeps; eauto.
Qed.

End Frame.

(** ** do_getF: the memory when the loop is entered *)

Lemma zero_based_step (data : list Z) (j : nat) v :
  data !! j = Some v →
  <[j := v - 1]> (zero_based j data) = zero_based (S j) data.
Proof.
  intros Hv. unfold zero_based.
  pose proof (lookup_lt_Some _ _ _ Hv) as Hj.
  rewrite (take_S_r _ _ _ Hv), (drop_S _ _ _ Hv), map_app. cbn [map].
  rewrite <- app_assoc. cbn [app].
  replace j with (length (map (λ v, (v - 1)%Z) (take j data)) + 0)%nat at 1
    by (rewrite length_map, length_take; lia).
  by rewrite insert_app_r.
Qed.

Lemma zero_based_lookup (data : list Z) (j : nat) v :
  zero_based j data !! j = Some v → data !! j = Some v.
Proof.
  unfold zero_based. intros H.
  destruct (decide (j < length data)%nat) as [Hj|Hj].
  - rewrite lookup_app_r in H by (rewrite length_map, length_take; lia).
    rewrite length_map, length_take, lookup_drop in H.
    by replace (j + (j - j `min` length data))%nat with j in H by lia.
  - apply lookup_lt_Some in H.
    rewrite length_app, length_map, length_take, length_drop in H. lia.
Qed.

Section Init.

Variable fresh : string → nat → float.
Variables (perms : Rmatrix Z) (E : Rmatrix float) (QR : QRobj)
  (QZ : option QRobj) (isPartial : Z).

(** The loop that brings the permutations to zero base changes nothing
    but [iperm], cell by cell. *)
Lemma zero_base_loop QE (s0 : mem) (cnt : nat) :
  iperm s0 = mdata perms →
  post (for_M cnt 0 zero_base) s0
    (λ _ s, s = set_iperm (zero_based cnt (mdata perms)) s0) QE.
Proof.
  intros H0.
  apply (post_for (λ j s, s = set_iperm (zero_based j (mdata perms)) s0)).
  - unfold zero_based. rewrite take_0, drop_0. cbn [map app].
    rewrite <- H0. by destruct s0.
  - intros j s Hj ->. rewrite Z.add_0_l. unfold zero_base, load, store.
    repeat mstep.
    match goal with H : rd _ _ = Val _ |- _ =>
      apply rd_inv in H as [_ Hrd] end.
    match goal with H : int _ = Val _ |- _ =>
      apply int_inv in H as [-> _] end.
    match goal with H : wr _ _ _ = Val _ |- _ =>
      apply wr_inv in H as [_ ->] end.
    cbn [iperm set_iperm] in *. rewrite Nat2Z.id in *.
    apply zero_based_lookup in Hrd.
    rewrite (zero_based_step _ _ _ Hrd). done.
Qed.

Lemma getF_init_post :
  post (getF_init fresh (mnrow perms) (mnrow E) (mncol E) isPartial)
    (entry_mem perms E QR QZ)
    (λ rk m0,
       m0 = loop_entry fresh perms E QR QZ
       ∧ fst rk = qr_rank QR
       ∧ (isPartial ≠ 0 → ∃ Z, QZ = Some Z ∧ snd rk = Some (qr_rank Z))
       ∧ 0 ≤ mnrow perms * 2 ≤ INT_MAX
       ∧ 0 ≤ mnrow E * mncol E ≤ INT_MAX
       ∧ 0 ≤ mnrow E)
    (λ _ _, False).
Proof.
  unfold getF_init.
  mstep. mstep. mstep. mstep. mstep. mstep. mstep. mstep. mstep. mstep.
  mstep.
  eapply post_mono with
    (Q := λ Zqrank m,
            m = set_rY (mdata E) (set_rans a (entry_mem perms E QR QZ))
            ∧ (isPartial ≠ 0 →
               ∃ Z, QZ = Some Z ∧ Zqrank = Some (qr_rank Z)))
    (QE := λ _ _, False); [| |done].
  { case_decide as HP; repeat mstep.
    - split; [done|]. intros _. cbn [m_QZ set_rY set_rans entry_mem] in *.
      destruct QZ as [Zq|]; [|done].
      match goal with H : Val _ = Val _ |- _ => injection H as <- end.
      eauto.
    - split; [done|]. tauto. }
  intros Zqrank m [-> HZ]. cbn beta.
  repeat (mstep; try discriminate).
  eapply post_mono;
    [apply (zero_base_loop (λ _ _, False)); reflexivity| |done].
  intros [] s ->. cbn beta. mstep.
  repeat match goal with
         | H : int _ = Val _ |- _ => apply int_inv in H as [-> ?]
         | H : allocMatrix _ _ _ = Val _ |- _ =>
             unfold allocMatrix in H; case_decide; [|done];
             injection H as <-
         | H : R_alloc _ _ _ = Val _ |- _ =>
             unfold R_alloc in H; case_decide; [|done];
             injection H as <-
         end.
  repeat split; try done; try lia.
Qed.

End Init.

Section Whole.

Variable fresh : string → nat → float.
Variable dgesdd : string → Z → Z → list float → Z → Z → Z → Z → dgesdd_out.
Variable dqrsl : list float → Z → Z → Z → list float → list float → Z
                 → dqrsl_out.
Variables (perms : Rmatrix Z) (E : Rmatrix float) (QR : QRobj)
  (QZ : option QRobj) (first isPartial : Z).

Lemma getF_init_Ret rk m0 :
  getF_init fresh (mnrow perms) (mnrow E) (mncol E) isPartial
    (entry_mem perms E QR QZ) = Ret rk m0 →
  m0 = loop_entry fresh perms E QR QZ
  ∧ fst rk = qr_rank QR
  ∧ (isPartial ≠ 0 → ∃ Z, QZ = Some Z ∧ snd rk = Some (qr_rank Z))
  ∧ 0 ≤ mnrow perms * 2 ≤ INT_MAX
  ∧ 0 ≤ mnrow E * mncol E ≤ INT_MAX
  ∧ 0 ≤ mnrow E.
Proof.
  intros H.
  exact (post_Ret _ _ _ _ _ _
           (getF_init_post fresh perms E QR QZ isPartial) H).
Qed.

Lemma do_getF_Ret ans m :
  do_getF fresh dgesdd dqrsl perms E QR QZ first isPartial = Ret ans m →
  ∃ rk,
    getF_init fresh (mnrow perms) (mnrow E) (mncol E) isPartial
      (entry_mem perms E QR QZ) = Ret rk (loop_entry fresh perms E QR QZ)
    ∧ getF_loop fresh dgesdd dqrsl (mnrow perms) (mnrow E) (mncol E)
        first isPartial rk (loop_entry fresh perms E QR QZ) = Ret tt m
    ∧ ans = rans m.
Proof.
  unfold do_getF. intros H.
  apply bind_Ret in H as (rk & m0 & Hinit & H).
  apply bind_Ret in H as ([] & m1 & Hloop & [= <- <-]).
  pose proof (getF_init_Ret _ _ Hinit) as (-> & _).
  eauto.
Qed.

Section Invariant.

Variable P : mem → Prop.
Variable QE : Rcondition → mem → Prop.
Hypothesis Hwork : work_closed P.
Hypothesis Hrans : rans_closed P.
Hypothesis Hlog :
  ∀ c m, P m → (∃ k, iter_call isPartial first k c) → P (log_call c m).
Hypothesis HQE :
  ∀ e m, P m → first ≠ 0 → (∃ code, dgesdd_failed code e) → QE e m.
Hypothesis Hentry : P (loop_entry fresh perms E QR QZ).

(** What holds when the loop is entered and survives its stores and
    its calls holds wherever do_getF stops. *)
Lemma do_getF_invariant :
  match do_getF fresh dgesdd dqrsl perms E QR QZ first isPartial with
  | Ret ans m => P m ∧ ans = rans m
  | Raise e m => QE e m
  | Fault _ => True
  end.
Proof.
  unfold do_getF.
  set (body := _ ≫= _).
  assert (post body (entry_mem perms E QR QZ)
            (λ ans m, P m ∧ ans = rans m) QE) as H; [|exact H].
  subst body. apply post_bind.
  eapply post_mono; [apply getF_init_post| |done].
  intros rk m0 (-> & _). apply post_bind.
  eapply post_mono;
    [by apply (getF_loop_keeps fresh dgesdd dqrsl P QE)| |done].
  intros [] m1 Hm1. by apply post_gets.
Qed.

(** ... and at the end of every row. *)
Lemma row_end_invariant k mk :
  row_end fresh dgesdd dqrsl perms E QR QZ first isPartial k mk → P mk.
Proof.
  intros (rk & m0 & m1 & Hinit & Hpre & Hk).
  apply getF_init_Ret in Hinit as (-> & _).
  assert (P m1) as Hm1.
  { eapply (post_Ret _ _ (λ _, P) QE); [|exact Hpre].
    apply keeps_for; [|done]. intros i.
    apply perm_iter_keeps; eauto. }
  eapply (post_Ret _ _ (λ _, P) QE); [|exact Hk].
  apply perm_iter_keeps; eauto.
Qed.

End Invariant.

End Whole.

(** C9. Wherever do_getF stops, and at the end of every turn of its loop,
    the response matrix [E] and the two factorizations [QR] and [QZ] are
    what the caller passed: every store of the function goes to [ans], to
    one of the blocks it allocated, or to one of its two duplicates. *)
Theorem caller_objects_intact fresh dgesdd dqrsl (perms : Rmatrix Z)
    (E : Rmatrix float) (QR : QRobj) (QZ : option QRobj)
    (first isPartial : Z) :
  match do_getF fresh dgesdd dqrsl perms E QR QZ first isPartial with
  | Ret _ m | Raise _ m => m_E m = E ∧ m_QR m = QR ∧ m_QZ m = QZ
  | Fault _ => True
  end
  ∧ ∀ k mk,
      row_end fresh dgesdd dqrsl perms E QR QZ first isPartial k mk →
      m_E mk = E ∧ m_QR mk = QR ∧ m_QZ mk = QZ.
Proof.
  set (P := λ m : mem, m_E m = E ∧ m_QR m = QR ∧ m_QZ m = QZ).
  assert (work_closed P) as Hw.
  { refine (conj _ (conj _ (conj _ _))); intros v m Hm _; exact Hm. }
  assert (rans_closed P) as Hr by (intros v m Hm _; exact Hm).
  assert (∀ c m, P m → (∃ k, iter_call isPartial first k c) →
                 P (log_call c m)) as Hlog by (by intros c m Hm _).
  assert (∀ e m, P m → first ≠ 0 → (∃ code, dgesdd_failed code e) → P m)
    as HQE by done.
  assert (P (loop_entry fresh perms E QR QZ)) as Hentry by done.
  split.
  - pose proof (do_getF_invariant fresh dgesdd dqrsl perms E QR QZ
                  first isPartial P (λ _, P) Hw Hr Hlog HQE Hentry) as H.
    destruct (do_getF _ _ _ _ _ _ _ _ _); [|auto..].
    by apply H.
  - intros k mk.
    by apply (row_end_invariant fresh dgesdd dqrsl perms E QR QZ
                first isPartial P (λ _, P) Hw Hr Hlog HQE Hentry).
Qed.

(** ** do_getF: the calls of dqrsl on the design *)

Lemma row_schedule_S k cols job :
  row_schedule k (S cols) job
  = row_schedule k cols job ++ [(k, Z.of_nat cols, job)].
Proof. unfold row_schedule. by rewrite seq_S, map_app. Qed.

Lemma design_schedule_S rows cols job :
  design_schedule (S rows) cols job
  = design_schedule rows cols job ++ row_schedule (Z.of_nat rows) cols job.
Proof.
  unfold design_schedule. rewrite seq_S, flat_map_app. cbn.
  by rewrite app_nil_r.
Qed.

Lemma design_calls_log c m :
  design_calls (log_call c m)
  = design_calls m
    ++ match c_model c with
       | Xmodel => [(c_row c, c_col c, c_job c)]
       | Zmodel => []
       end.
Proof.
  unfold design_calls, log_call; cbn [calls].
  rewrite filter_app, map_app. f_equal.
  by destruct c as [[] ? ? ? ?].
Qed.

Section DesignCalls.

Variable fresh : string → nat → float.
Variable dgesdd : string → Z → Z → list float → Z → Z → Z → Z → dgesdd_out.
Variable dqrsl : list float → Z → Z → Z → list float → list float → Z
                 → dqrsl_out.

(** A call on column [i] leaves in the memory what its stores keep, and
    one more entry in the record of calls. *)
Lemma design_col_logs (P : mem → Prop) QE nr qrank k qrkind i s :
  work_closed P → P s →
  post (design_col dqrsl nr qrank k qrkind i) s
    (λ _ s', ∃ s0 info,
       P s0
       ∧ s' = log_call {| c_model := Xmodel; c_row := k; c_col := i;
                          c_job := qrkind; c_info := info |} s0)
    QE.
Proof.
  intros (_ & Hfit & Hres & Hqty) Hs.
  unfold design_col, load_block, store_block.
  repeat (mstep; try discriminate).
  all: do 2 eexists; (split; [|reflexivity]).
  all: repeat match goal with
         | H : fill _ _ _ _ = Val _ |- _ => apply fill_length in H
         end.
  all: repeat first [ done | apply Hfit | apply Hres | apply Hqty ].
Qed.

Lemma design_calls_closed l :
  work_closed (λ m, design_calls m = l)
  ∧ rans_closed (λ m, design_calls m = l).
Proof. by repeat split; intros v m Hm _. Qed.

(** The turn for row [k] makes the calls of [row_schedule k]. *)
Lemma perm_iter_design_calls nperm nr nc FIRST PARTIAL qrank Zqrank k l s :
  design_calls s = l →
  post (perm_iter fresh dgesdd dqrsl nperm nr nc FIRST PARTIAL qrank Zqrank k)
    s
    (λ _ s', design_calls s'
             = l ++ row_schedule k (Z.to_nat nc)
                      (design_qrkind PARTIAL FIRST))
    (λ _ _, True).
Proof.
  intros Hs. destruct (design_calls_closed l) as [Hw Hr].
  unfold perm_iter, perm_project. do 2 apply post_bind.
  (* permute *)
  eapply post_mono;
    [apply (keeps_for (λ m, design_calls m = l) (λ _ _, True)); [|done]
    | |done].
  { intros i. by apply permute_row_keeps. }
  intros [] s1 Hs1. cbn beta. apply post_bind.
  (* partial model *)
  eapply post_mono;
    [apply (keeps_when (λ m, design_calls m = l) (λ _ _, True)); [|done]
    | |done].
  { intros _. apply keeps_for. intros i.
    apply partial_col_keeps; [done|]. intros m info Hm.
    by rewrite design_calls_log, app_nil_r. }
  intros [] s2 Hs2. cbn beta.
  (* design *)
  eapply post_mono;
    [apply (post_for
              (λ j m, design_calls m
                      = l ++ row_schedule k j (design_qrkind PARTIAL FIRST))
              _ (λ _ _, True))
    | |done].
  { unfold row_schedule. cbn. by rewrite app_nil_r. }
  { intros j s' Hj Hs'. rewrite Z.add_0_l.
    eapply post_mono;
      [by apply (design_col_logs
                   (λ m, design_calls m
                         = l ++ row_schedule k j
                                  (design_qrkind PARTIAL FIRST))
                   (λ _ _, True))
      | |done].
    intros [] s'' (s0 & info & Hs0 & ->). cbn beta.
    rewrite design_calls_log, Hs0, row_schedule_S. cbn.
    by rewrite app_assoc. }
  intros [] s3 Hs3. cbn beta.
  (* the two entries of the row *)
  destruct (design_calls_closed
              (l ++ row_schedule k (Z.to_nat nc)
                      (design_qrkind PARTIAL FIRST))) as [Hw' Hr'].
  by apply (perm_eigen_keeps fresh dgesdd _ (λ _ _, True) Hw' Hr').
Qed.

End DesignCalls.

Section Runs.

Variable fresh : string → nat → float.
Variable dgesdd : string → Z → Z → list float → Z → Z → Z → Z → dgesdd_out.
Variable dqrsl : list float → Z → Z → Z → list float → list float → Z
                 → dqrsl_out.
Variables (perms : Rmatrix Z) (E : Rmatrix float) (QR : QRobj)
  (QZ : option QRobj) (first isPartial : Z).

Lemma do_getF_design_calls ans m :
  do_getF fresh dgesdd dqrsl perms E QR QZ first isPartial = Ret ans m →
  design_calls m
  = design_schedule (Z.to_nat (mnrow perms)) (Z.to_nat (mncol E))
      (design_qrkind isPartial first).
Proof.
  intros (rk & _ & Hloop & _)%do_getF_Ret.
  eapply (post_Ret _ _
            (λ _ m', design_calls m'
                     = design_schedule (Z.to_nat (mnrow perms))
                         (Z.to_nat (mncol E))
                         (design_qrkind isPartial first))
            (λ _ _, True)); [|exact Hloop].
  unfold getF_loop.
  apply (post_for
           (λ n m', design_calls m'
                    = design_schedule n (Z.to_nat (mncol E))
                        (design_qrkind isPartial first))); [done|].
  intros k s Hk Hs. rewrite Z.add_0_l.
  eapply post_mono; [by apply perm_iter_design_calls| |done].
  intros [] s' Hs'. cbn beta. by rewrite design_schedule_S.
Qed.

Lemma do_getF_design_jobs :
  match do_getF fresh dgesdd dqrsl perms E QR QZ first isPartial with
  | Ret _ m | Raise _ m =>
      Forall (λ c, c.2 = design_qrkind isPartial first) (design_calls m)
  | Fault _ => True
  end.
Proof.
  set (P := λ m : mem,
         Forall (λ c : Z * Z * Z, c.2 = design_qrkind isPartial first)
           (design_calls m)).
  assert (work_closed P) as Hw.
  { refine (conj _ (conj _ (conj _ _))); intros v m Hm _; exact Hm. }
  assert (rans_closed P) as Hr by (intros v m Hm _; exact Hm).
  assert (∀ c m, P m → (∃ k, iter_call isPartial first k c) →
                 P (log_call c m)) as Hlog.
  { intros c m Hm (k & _ & Hc). unfold P. rewrite design_calls_log.
    apply Forall_app. split; [done|].
    destruct Hc as [(-> & _)|(-> & Hj)]; [done|].
    by apply Forall_singleton. }
  pose proof (do_getF_invariant fresh dgesdd dqrsl perms E QR QZ
                first isPartial P (λ _, P) Hw Hr Hlog) as H.
  destruct (do_getF _ _ _ _ _ _ _ _ _); [| |done].
  - apply H; [done|by apply Forall_nil].
  - apply H; [done|by apply Forall_nil].
Qed.

End Runs.

Lemma design_qrkind_flags PARTIAL FIRST :
  job_xb (design_qrkind PARTIAL FIRST) = true
  ∧ job_rsd (design_qrkind PARTIAL FIRST)
    = bool_decide (PARTIAL ≠ 0 ∨ FIRST ≠ 0)
  ∧ job_qy (design_qrkind PARTIAL FIRST) = false
  ∧ job_b (design_qrkind PARTIAL FIRST) = false.
Proof.
  unfold design_qrkind. case_decide.
  - by rewrite bool_decide_eq_true_2.
  - by rewrite bool_decide_eq_false_2.
Qed.

(** C1, as the code has it. The design projection is applied once per
    column for every permutation row, in order; its job asks for the
    fitted values alone when neither [isPartial] nor [first] is set, and for
    fitted values and residuals when either is. *)
Theorem design_projection_job fresh dgesdd dqrsl (perms : Rmatrix Z)
    (E : Rmatrix float) (QR : QRobj) (QZ : option QRobj)
    (first isPartial : Z) :
  let job := design_qrkind isPartial first in
  (∀ ans m,
     do_getF fresh dgesdd dqrsl perms E QR QZ first isPartial = Ret ans m →
     design_calls m
     = design_schedule (Z.to_nat (mnrow perms)) (Z.to_nat (mncol E)) job)
  ∧ match do_getF fresh dgesdd dqrsl perms E QR QZ first isPartial with
    | Ret _ m | Raise _ m => Forall (λ c, c.2 = job) (design_calls m)
    | Fault _ => True
    end
  ∧ job = (if bool_decide (isPartial ≠ 0 ∨ first ≠ 0) then FIT + RESID else FIT)
  ∧ job_xb job = true
  ∧ job_rsd job = bool_decide (isPartial ≠ 0 ∨ first ≠ 0).
Proof.
  intros job. split; [|split; [|split]].
  - intros ans m. apply do_getF_design_calls.
  - apply do_getF_design_jobs.
  - unfold job, design_qrkind. case_decide.
    + by rewrite bool_decide_eq_true_2.
    + by rewrite bool_decide_eq_false_2.
  - destruct (design_qrkind_flags isPartial first) as (? & ? & _). done.
Qed.

Lemma zero_based_whole (data : list Z) (n : nat) :
  length data = n → zero_based n data = map (λ v, v - 1) data.
Proof.
  intros Hn. unfold zero_based.
  rewrite take_ge, drop_ge by lia. by rewrite app_nil_r.
Qed.

(** C7. The caller's permutation table is what it was wherever do_getF
    stops and at the end of every turn of the loop; the indices the loop
    reads are those of the duplicate, each of the [nperm * nr] cells one
    less than in the table, and they are so from the first turn on.  For a
    table of [nperm] rows and [nr] columns that is every cell. *)
Theorem permutations_zero_based fresh dgesdd dqrsl (perms : Rmatrix Z)
    (E : Rmatrix float) (QR : QRobj) (QZ : option QRobj)
    (first isPartial : Z) :
  let n := Z.to_nat (mnrow perms * mnrow E) in
  match do_getF fresh dgesdd dqrsl perms E QR QZ first isPartial with
  | Ret _ m | Raise _ m =>
      m_perms m = perms ∧ iperm m = zero_based n (mdata perms)
  | Fault _ => True
  end
  ∧ (∀ k mk,
       row_end fresh dgesdd dqrsl perms E QR QZ first isPartial k mk →
       m_perms mk = perms ∧ iperm mk = zero_based n (mdata perms))
  ∧ (length (mdata perms) = n →
     zero_based n (mdata perms) = map (λ v, v - 1) (mdata perms)).
Proof.
  intros n.
  set (P := λ m : mem,
         m_perms m = perms ∧ iperm m = zero_based n (mdata perms)).
  assert (work_closed P) as Hw.
  { refine (conj _ (conj _ (conj _ _))); intros v m Hm _; exact Hm. }
  assert (rans_closed P) as Hr by (intros v m Hm _; exact Hm).
  assert (∀ c m, P m → (∃ k, iter_call isPartial first k c) →
                 P (log_call c m)) as Hlog by (by intros c m Hm _).
  assert (∀ e m, P m → first ≠ 0 → (∃ code, dgesdd_failed code e) → P m)
    as HQE by done.
  assert (P (loop_entry fresh perms E QR QZ)) as Hentry by done.
  split; [|split].
  - pose proof (do_getF_invariant fresh dgesdd dqrsl perms E QR QZ
                  first isPartial P (λ _, P) Hw Hr Hlog HQE Hentry) as H.
    destruct (do_getF _ _ _ _ _ _ _ _ _); [|auto..].
    by apply H.
  - intros k mk.
    by apply (row_end_invariant fresh dgesdd dqrsl perms E QR QZ
                first isPartial P (λ _, P) Hw Hr Hlog HQE Hentry).
  - apply zero_based_whole.
Qed.

(** ** The two entries of a row of [ans] *)

Lemma getEV_all_loop_inv (x : list float) (cnt i : nat) (a v : float) :
  for_res cnt (Z.of_nat i) (getEV_all_body x) a = Val v →
  v = foldl acc_sq a (take cnt (drop i x)).
Proof.
  revert i a. induction cnt as [|cnt IH]; intros i a H.
  - cbn in H. rewrite take_0. cbn. congruence.
  - cbn [for_res] in H. apply res_bind_inv in H as (a' & Hb & H).
    unfold getEV_all_body in Hb. apply res_bind_inv in Hb as (xi & Hrd & Hb).
    apply rd_inv in Hrd as [_ Hrd]. rewrite Nat2Z.id in Hrd.
    injection Hb as <-.
    replace (Z.of_nat i + 1) with (Z.of_nat (S i)) in H by lia.
    apply IH in H. by rewrite (drop_S _ _ _ Hrd).
Qed.

Lemma getEV_all_inv (x : list float) (nr nc : Z) (v : float) :
  getEV x nr nc 0 = Val v → v = sumOfSquares_all x nr nc.
Proof.
  unfold getEV, sumOfSquares_all. intros H.
  apply res_bind_inv in H as (sumev & H & Hs).
  apply res_bind_inv in H as (n & Hn & H). apply int_inv in Hn as [-> _].
  apply res_bind_inv in H as (s & Hloop & [= <-]). injection Hs as <-.
  by apply (getEV_all_loop_inv x _ 0) in Hloop.
Qed.

Lemma sumOfSquares_all_whole (x : list float) (nr nc : Z) :
  length x = Z.to_nat (nr * nc) →
  sumOfSquares_all x nr nc = foldl acc_sq d0 x.
Proof. intros H. unfold sumOfSquares_all. by rewrite take_ge by lia. Qed.

Section Entries.

Variable fresh : string → nat → float.
Variable dgesdd : string → Z → Z → list float → Z → Z → Z → Z → dgesdd_out.
Variable dqrsl : list float → Z → Z → Z → list float → list float → Z
                 → dqrsl_out.

Lemma gets_Ret {St A} (f : St → A) s a s' :
  gets f s = Ret a s' → a = f s ∧ s' = s.
Proof. by intros [= <- <-]. Qed.

Lemma store_rans_Ret i v s s' :
  store rans set_rans i v s = Ret tt s' →
  0 ≤ i < Z.of_nat (length (rans s))
  ∧ s' = set_rans (<[Z.to_nat i := v]> (rans s)) s.
Proof.
  unfold store. intros H.
  apply bind_Ret in H as (buf & s1 & [-> ->]%gets_Ret & H).
  apply bind_Ret in H as (buf' & s1 & [Hwr ->]%pure_Ret & [= <-]).
  by apply wr_inv in Hwr as [? ->].
Qed.

Lemma call_getEV_Ret get nr nc isDB s v s' :
  call_getEV get nr nc isDB s = Ret v s' →
  getEV (get s) nr nc isDB = Val v ∧ s' = s.
Proof.
  unfold call_getEV. intros H.
  apply bind_Ret in H as (x & s1 & [-> ->]%gets_Ret & H).
  by apply pure_Ret in H.
Qed.

Lemma call_svdfirst_Ret nr nc s v s' :
  call_svdfirst fresh dgesdd nr nc s = Ret v s' →
  (∃ fr, svdfirst fresh dgesdd (fitted s) nr nc = Ret v fr) ∧ s' = s.
Proof.
  unfold call_svdfirst. intros H.
  pose proof (svdfirst_input fresh dgesdd (fitted s) nr nc) as Hx.
  unfold post in Hx.
  change (svdfirst_body fresh dgesdd nr nc (frame0 (fitted s)))
    with (svdfirst fresh dgesdd (fitted s) nr nc) in Hx.
  destruct (svdfirst fresh dgesdd (fitted s) nr nc) as [v' fr| |];
    [|done..].
  injection H as <- <-. cbn beta in Hx. rewrite Hx.
  split; [eauto|]. by destruct s.
Qed.

(** The second half of a turn stores into [ans] only, at [k] and, under
    [PARTIAL] or [FIRST], at [k + nperm]. *)
Lemma perm_eigen_Ret nperm nr nc FIRST PARTIAL k s s' :
  perm_eigen fresh dgesdd nperm nr nc FIRST PARTIAL k s = Ret tt s' →
  ∃ ev,
    explained_by fresh dgesdd FIRST nr nc (fitted s) ev
    ∧ 0 ≤ k < Z.of_nat (length (rans s))
    ∧ if decide (PARTIAL ≠ 0 ∨ FIRST ≠ 0)
      then ∃ ev', getEV (resid s) nr nc 0 = Val ev'
                  ∧ 0 ≤ k + nperm < Z.of_nat (length (rans s))
                  ∧ s' = set_rans (<[Z.to_nat (k + nperm) := ev']>
                                     (<[Z.to_nat k := ev]> (rans s))) s
      else s' = set_rans (<[Z.to_nat k := ev]> (rans s)) s.
Proof.
  unfold perm_eigen, explained_by. intros H.
  apply bind_Ret in H as ([] & s1 & H1 & H2).
  assert (∃ ev, (if decide (FIRST ≠ 0)
                 then ∃ v fr, svdfirst fresh dgesdd (fitted s) nr nc
                              = Ret v fr ∧ ev = dmul v v
                 else getEV (fitted s) nr nc 0 = Val ev)
                ∧ 0 ≤ k < Z.of_nat (length (rans s))
                ∧ s1 = set_rans (<[Z.to_nat k := ev]> (rans s)) s)
    as (ev & Hev & Hk & ->).
  { case_decide.
    - apply bind_Ret in H1 as (v & s0 & [[fr Hsvd] ->]%call_svdfirst_Ret
                               & [Hk ->]%store_rans_Ret).
      exists (dmul v v). split; [eauto|]. by split.
    - apply bind_Ret in H1 as (v & s0 & [Hg ->]%call_getEV_Ret
                               & [Hk ->]%store_rans_Ret).
      exists v. split; [done|]. by split. }
  exists ev. split; [done|]. split; [done|].
  destruct (decide (PARTIAL ≠ 0 ∨ FIRST ≠ 0)) as [Hflags|Hflags].
  - rewrite (bool_decide_eq_true_2 _ Hflags) in H2. cbn [when] in H2.
    apply bind_Ret in H2 as (idx & s0 & [Hidx ->]%pure_Ret & H2).
    apply int_inv in Hidx as [-> _].
    apply bind_Ret in H2 as (ev' & s0 & [Hg ->]%call_getEV_Ret
                             & [Hk' ->]%store_rans_Ret).
    cbn [resid rans set_rans] in *. rewrite length_insert in Hk'.
    exists ev'. split; [done|]. split; [done|]. by destruct s.
  - rewrite (bool_decide_eq_false_2 _ Hflags) in H2. cbn [when] in H2.
    by injection H2 as <-.
Qed.

End Entries.

Lemma post_of_Ret {St A} (m : M St A) s (Q : A → St → Prop) :
  (∀ a s', m s = Ret a s' → Q a s') → post m s Q (λ _ _, True).
Proof. intros H. unfold post. destruct (m s); auto. Qed.

Lemma sized_closed nperm nr nc :
  work_closed (sized nperm nr nc) ∧ rans_closed (sized nperm nr nc).
Proof.
  unfold sized. split; [refine (conj _ (conj _ (conj _ _)))|];
    intros v m (H1 & H2 & H3) Hv; cbn; repeat split; congruence.
Qed.

Section Rows.

Variable fresh : string → nat → float.
Variable dgesdd : string → Z → Z → list float → Z → Z → Z → Z → dgesdd_out.
Variable dqrsl : list float → Z → Z → Z → list float → list float → Z
                 → dqrsl_out.
Variables (nperm nr nc FIRST PARTIAL qrank : Z) (Zqrank : option Z).

Let iter := perm_iter fresh dgesdd dqrsl nperm nr nc FIRST PARTIAL qrank
              Zqrank.

Lemma perm_iter_sized k s s' :
  sized nperm nr nc s → iter k s = Ret tt s' → sized nperm nr nc s'.
Proof.
  intros Hs Hrun. destruct (sized_closed nperm nr nc) as [Hw Hr].
  eapply (post_Ret _ _ (λ _, sized nperm nr nc) (λ _ _, True));
    [|exact Hrun].
  by apply perm_iter_keeps.
Qed.

Lemma rows_sized cnt i0 s s' :
  sized nperm nr nc s → for_M cnt i0 iter s = Ret tt s' →
  sized nperm nr nc s'.
Proof.
  intros Hs Hrun. destruct (sized_closed nperm nr nc) as [Hw Hr].
  eapply (post_Ret _ _ (λ _, sized nperm nr nc) (λ _ _, True));
    [|exact Hrun].
  apply keeps_for; [|done]. intros k. by apply perm_iter_keeps.
Qed.

(** What the turn for row [k] leaves in [ans], in terms of the fitted
    values and residuals that it leaves. *)
Lemma perm_iter_Ret k s s' :
  iter k s = Ret tt s' →
  ∃ ev,
    explained_by fresh dgesdd FIRST nr nc (fitted s') ev
    ∧ 0 ≤ k < Z.of_nat (length (rans s))
    ∧ if decide (PARTIAL ≠ 0 ∨ FIRST ≠ 0)
      then ∃ ev', getEV (resid s') nr nc 0 = Val ev'
                  ∧ 0 ≤ k + nperm < Z.of_nat (length (rans s))
                  ∧ rans s' = <[Z.to_nat (k + nperm) := ev']>
                                (<[Z.to_nat k := ev]> (rans s))
      else rans s' = <[Z.to_nat k := ev]> (rans s).
Proof.
  unfold iter, perm_iter. intros H.
  apply bind_Ret in H as ([] & s1 & Hproj & Heig).
  assert (rans s1 = rans s) as Hrans.
  { eapply (post_Ret _ _ (λ _ m, rans m = rans s) (λ _ _, True));
      [|exact Hproj].
    apply perm_project_keeps; [|done..].
    by refine (conj _ (conj _ (conj _ _))). }
  apply perm_eigen_Ret in Heig as (ev & Hev & Hk & Heig).
  rewrite Hrans in *. exists ev.
  destruct (decide (PARTIAL ≠ 0 ∨ FIRST ≠ 0)) as [Hflags|Hflags].
  - destruct Heig as (ev' & Hev' & Hk' & ->).
    split; [done|]. split; [done|]. by exists ev'.
  - by subst s'.
Qed.

(** A turn leaves the other cells of [ans] alone. *)
Lemma perm_iter_others (k : nat) s s' (j : nat) :
  0 ≤ nperm →
  iter (Z.of_nat k) s = Ret tt s' →
  j ≠ k → j ≠ (k + Z.to_nat nperm)%nat →
  rans s' !! j = rans s !! j.
Proof.
  intros Hn (ev & _ & _ & H)%perm_iter_Ret Hj1 Hj2.
  case_decide.
  - destruct H as (ev' & _ & _ & ->).
    rewrite !list_lookup_insert_ne; [done|lia..].
  - rewrite H. rewrite list_lookup_insert_ne; [done|lia].
Qed.

Lemma rows_others (cnt a : nat) s s' (j : nat) :
  0 ≤ nperm →
  for_M cnt (Z.of_nat a) iter s = Ret tt s' →
  (∀ k, (a ≤ k < a + cnt)%nat → j ≠ k ∧ j ≠ (k + Z.to_nat nperm)%nat) →
  rans s' !! j = rans s !! j.
Proof.
  intros Hn Hrun Hj.
  eapply (post_Ret _ _ (λ _ m, rans m !! j = rans s !! j) (λ _ _, True));
    [|exact Hrun].
  apply post_for_keeps; [done|].
  intros i s1 Hi Hs1. apply post_of_Ret. intros [] s2 Hs2.
  replace (Z.of_nat a + Z.of_nat i) with (Z.of_nat (a + i)) in Hs2 by lia.
  rewrite <- Hs1. destruct (Hj (a + i)%nat) as [? ?]; [lia|].
  by eapply perm_iter_others.
Qed.

End Rows.

Section Table.

Variable fresh : string → nat → float.
Variable dgesdd : string → Z → Z → list float → Z → Z → Z → Z → dgesdd_out.
Variable dqrsl : list float → Z → Z → Z → list float → list float → Z
                 → dqrsl_out.
Variables (perms : Rmatrix Z) (E : Rmatrix float) (QR : QRobj)
  (QZ : option QRobj) (first isPartial : Z).

Local Abbreviation nperm := (mnrow perms).
Local Abbreviation nr := (mnrow E).
Local Abbreviation nc := (mncol E).

(** Row [k] of the table that do_getF returns, from the memory at the end
    of the turn for row [k]. *)
Lemma row_entries ans m (k : nat) :
  do_getF fresh dgesdd dqrsl perms E QR QZ first isPartial = Ret ans m →
  Z.of_nat k < nperm →
  ∃ mk ev,
    row_end fresh dgesdd dqrsl perms E QR QZ first isPartial k mk
    ∧ sized nperm nr nc mk
    ∧ explained_by fresh dgesdd first nr nc (fitted mk) ev
    ∧ ans !! k = Some ev
    ∧ ans !! (k + Z.to_nat nperm)%nat
      = Some (if decide (isPartial ≠ 0 ∨ first ≠ 0)
              then sumOfSquares_all (resid mk) nr nc
              else fresh "ans"%string (k + Z.to_nat nperm)%nat).
Proof.
  intros (rk & Hinit & Hloop & ->)%do_getF_Ret Hk.
  unfold getF_loop in Hloop.
  apply (for_M_split _ _ k) in Hloop as (m1 & mk & Hpre & Hrow & Hrest);
    [|lia].
  rewrite Z.add_0_l in Hrow, Hrest.
  assert (sized nperm nr nc (loop_entry fresh perms E QR QZ)) as Hs0.
  { unfold sized, loop_entry; cbn.
    by rewrite !length_map, !length_seq. }
  pose proof (rows_sized _ _ _ _ _ _ _ _ _ _ _ _ _ _ Hs0 Hpre) as Hs1.
  pose proof (perm_iter_sized _ _ _ _ _ _ _ _ _ _ _ _ _ Hs1 Hrow) as Hsk.
  pose proof (perm_iter_Ret _ _ _ _ _ _ _ _ _ _ _ _ _ Hrow)
    as (ev & Hev & Hk0 & Hans).
  exists mk, ev. split; [by exists rk, (loop_entry fresh perms E QR QZ), m1|].
  split; [done|]. split; [done|].
  assert (0 ≤ nperm) as Hn by lia.
  destruct Hs1 as (Hlen1 & _).
  (* the later rows leave row [k] alone *)
  rewrite (rows_others _ _ _ _ _ _ _ _ _ _ _ _ _ _ k Hn Hrest)
    by (intros; lia).
  rewrite (rows_others _ _ _ _ _ _ _ _ _ _ _ _ _ _
             (k + Z.to_nat nperm)%nat Hn Hrest) by (intros; lia).
  destruct (decide (isPartial ≠ 0 ∨ first ≠ 0)) as [Hflags|Hflags].
  - destruct Hans as (ev' & Hev' & Hk' & ->).
    apply getEV_all_inv in Hev' as ->.
    replace (Z.to_nat (Z.of_nat k + nperm))
      with (k + Z.to_nat nperm)%nat by lia.
    rewrite Nat2Z.id. split.
    + rewrite list_lookup_insert_ne by lia.
      apply list_lookup_insert_eq. lia.
    + apply list_lookup_insert_eq. rewrite length_insert. lia.
  - rewrite Hans, Nat2Z.id. split.
    + apply list_lookup_insert_eq. lia.
    + rewrite list_lookup_insert_ne by lia.
      (* the earlier rows leave the cell alone *)
      rewrite (rows_others _ _ _ _ _ _ _ _ _ _ _ 0%nat _ _
                 (k + Z.to_nat nperm)%nat Hn Hpre) by (intros; lia).
      unfold loop_entry; cbn [rans].
      rewrite list_lookup_fmap, lookup_seq_lt by lia. done.
Qed.

End Table.

Lemma row_end_functional fresh dgesdd dqrsl perms E QR QZ first isPartial k
    mk mk' :
  row_end fresh dgesdd dqrsl perms E QR QZ first isPartial k mk →
  row_end fresh dgesdd dqrsl perms E QR QZ first isPartial k mk' →
  mk = mk'.
Proof.
  intros (rk & m0 & m1 & H0 & H1 & H2) (rk' & m0' & m1' & H0' & H1' & H2').
  rewrite H0 in H0'. injection H0' as <- <-.
  rewrite H1 in H1'. injection H1' as <-.
  rewrite H2 in H2'. by injection H2' as <-.
Qed.

(** C3. In the table that do_getF returns, the cell of row [k] in column 1
    holds the sum of the squares of the cells of the residual block, as
    that block is when the turn for row [k] ends, if [isPartial] or
    [first] is set; if neither is set the cell holds what allocMatrix
    left there: nothing is ever stored into it. *)
Theorem residual_variance_entry fresh dgesdd dqrsl (perms : Rmatrix Z)
    (E : Rmatrix float) (QR : QRobj) (QZ : option QRobj)
    (first isPartial : Z) ans m (k : nat) :
  do_getF fresh dgesdd dqrsl perms E QR QZ first isPartial = Ret ans m →
  Z.of_nat k < mnrow perms →
  (∃ mk, row_end fresh dgesdd dqrsl perms E QR QZ first isPartial k mk)
  ∧ ∀ mk,
      row_end fresh dgesdd dqrsl perms E QR QZ first isPartial k mk →
      ans !! (k + Z.to_nat (mnrow perms))%nat
      = Some (if bool_decide (isPartial ≠ 0 ∨ first ≠ 0)
              then foldl acc_sq d0 (resid mk)
              else fresh "ans"%string (k + Z.to_nat (mnrow perms))%nat)
      ∧ foldl acc_sq d0 (resid mk)
        = sumOfSquares (resid mk) (mnrow E) (mncol E) false.
Proof.
  intros Hrun Hk.
  destruct (row_entries _ _ _ _ _ _ _ _ _ _ _ _ Hrun Hk)
    as (mk & ev & Hend & (_ & _ & Hlen) & _ & _ & Hcol1).
  split; [by exists mk|]. intros mk' Hend'.
  rewrite <- (row_end_functional _ _ _ _ _ _ _ _ _ _ _ _ Hend Hend').
  rewrite <- (sumOfSquares_all_whole _ _ _ Hlen). split; [|done].
  rewrite Hcol1. by destruct (decide _) as [H|H];
    [rewrite (bool_decide_eq_true_2 _ H)|rewrite (bool_decide_eq_false_2 _ H)].
Qed.

Lemma svd_input_whole (x : list float) (nr nc : Z) :
  length x = Z.to_nat (nr * nc) → svd_input x nr nc = x.
Proof. intros H. unfold svd_input. by rewrite take_ge by lia. Qed.

(** C8. In the table that do_getF returns, the cell of row [k] in column 0
    holds, with [first] set, the square of the first of the singular values
    that dgesdd returns for the fitted block, as that block is when the
    turn for row [k] ends, which is the largest when dgesdd returns them in
    descending order; without [first] it holds the sum of the squares of
    all the cells of the fitted block (getEV with flag 0). *)
Theorem explained_variance_entry fresh dgesdd dqrsl (perms : Rmatrix Z)
    (E : Rmatrix float) (QR : QRobj) (QZ : option QRobj)
    (first isPartial : Z) ans m (k : nat) :
  do_getF fresh dgesdd dqrsl perms E QR QZ first isPartial = Ret ans m →
  Z.of_nat k < mnrow perms →
  let nr := mnrow E in
  let nc := mncol E in
  (∃ mk, row_end fresh dgesdd dqrsl perms E QR QZ first isPartial k mk)
  ∧ ∀ mk,
      row_end fresh dgesdd dqrsl perms E QR QZ first isPartial k mk →
      if decide (first ≠ 0)
      then ∃ lwork,
          let r := dgesdd "N"%string nr nc (fitted mk) nr nr nc lwork in
          g_info r = 0
          ∧ ans !! k = Some (dmul (g_s r 0%nat) (g_s r 0%nat))
          ∧ ((∀ i j, (i < j < Z.to_nat (Z.min nr nc))%nat →
                     PrimFloat.leb (g_s r j) (g_s r i) = true) →
             ∀ j, (0 < j < Z.to_nat (Z.min nr nc))%nat →
                  PrimFloat.leb (g_s r j) (g_s r 0%nat) = true)
      else ans !! k = Some (foldl acc_sq d0 (fitted mk))
           ∧ foldl acc_sq d0 (fitted mk)
             = sumOfSquares (fitted mk) nr nc false.
Proof.
  intros Hrun Hk nr nc.
  destruct (row_entries _ _ _ _ _ _ _ _ _ _ _ _ Hrun Hk)
    as (mk & ev & Hend & (_ & Hlen & _) & Hev & Hcol0 & _).
  split; [by exists mk|]. intros mk' Hend'.
  rewrite <- (row_end_functional _ _ _ _ _ _ _ _ _ _ _ _ Hend Hend').
  unfold explained_by in Hev.
  fold nr nc in Hev, Hlen. case_decide as Hfirst.
  - destruct Hev as (v & fr & Hsvd & ->).
    apply svdfirst_Ret in Hsvd as (_ & _ & lwork & _ & Hinfo & -> & _).
    unfold svd_decomp in *. rewrite (svd_input_whole _ _ _ Hlen) in *.
    exists lwork. cbn zeta. split; [done|]. split; [done|].
    intros Hdesc j Hj. apply Hdesc. lia.
  - apply getEV_all_inv in Hev as ->.
    unfold sumOfSquares. rewrite <- (sumOfSquares_all_whole _ _ _ Hlen).
    by rewrite Hcol0.
Qed.

(** ** do_getF: the status of dqrsl has no part in the result *)

Lemma Ret_inj {St A} (a a' : A) (s s' : St) :
  Ret a s = Ret a' s' → a = a' ∧ s = s'.
Proof. by intros [= -> ->]. Qed.

Lemma Raise_inj {St A} (e e' : Rcondition) (s s' : St) :
  @Raise St A e s = Raise e' s' → e = e' ∧ s = s'.
Proof. by intros [= -> ->]. Qed.

Section Sim.

Lemma sim_ret {A} (a : A) : sim (mret a) (mret a).
Proof.
  intros s1 s2 H. change (Ret a (forget s1) = Ret a (forget s2)).
  by rewrite H.
Qed.

Lemma sim_bind {A B} (m1 m2 : M mem A) (k1 k2 : A → M mem B) :
  sim m1 m2 → (∀ a, sim (k1 a) (k2 a)) → sim (m1 ≫= k1) (m2 ≫= k2).
Proof.
  intros Hm Hk s1 s2 Hs. specialize (Hm s1 s2 Hs).
  unfold mbind, M_bind.
  destruct (m1 s1) as [a t1|e t1|f], (m2 s2) as [a' t2|e' t2|f'];
    cbn [outcome_map] in Hm; try discriminate.
  - apply Ret_inj in Hm as [<- Ht]. by apply Hk.
  - apply Raise_inj in Hm as [<- Ht]. cbn [outcome_map]. by rewrite Ht.
  - injection Hm as <-. done.
Qed.

Lemma sim_pure {A} (r : res A) : sim (pure r) (pure r).
Proof. intros s1 s2 H. destruct r; cbn; by rewrite ?H. Qed.

Lemma sim_error {A} fmt arg : sim (@error mem A fmt arg) (error fmt arg).
Proof. intros s1 s2 H. cbn. by rewrite H. Qed.

Lemma sim_gets {A} (f : mem → A) :
  (∀ s, f (forget s) = f s) → sim (gets f) (gets f).
Proof.
  intros Hf s1 s2 H. cbn. rewrite H. f_equal.
  by rewrite <- (Hf s1), <- (Hf s2), H.
Qed.

Lemma sim_modify (f g : mem → mem) :
  (∀ s1 s2, forget s1 = forget s2 → forget (f s1) = forget (g s2)) →
  sim (modify f) (modify g).
Proof. intros Hf s1 s2 H. cbn. f_equal. by apply Hf. Qed.

Lemma sim_set {B} (set : B → mem → mem) v :
  (∀ s, forget (set v s) = set v (forget s)) →
  sim (modify (set v)) (modify (set v)).
Proof.
  intros Hset. apply sim_modify. intros s1 s2 H.
  by rewrite !Hset, H.
Qed.

Lemma sim_log c1 c2 :
  forget_call c1 = forget_call c2 →
  sim (modify (log_call c1)) (modify (log_call c2)).
Proof.
  intros Hc. apply sim_modify. intros s1 s2 H.
  unfold forget, log_call; cbn. rewrite !map_app. cbn.
  rewrite Hc. injection H as -> -> -> -> -> -> -> -> -> -> ->. done.
Qed.

Lemma sim_when (b : bool) (m1 m2 : M mem unit) :
  sim m1 m2 → sim (when b m1) (when b m2).
Proof. destruct b; [done|]. intros _. apply sim_ret. Qed.

Lemma sim_for (body1 body2 : Z → M mem unit) (cnt : nat) (i0 : Z) :
  (∀ i, sim (body1 i) (body2 i)) →
  sim (for_M cnt i0 body1) (for_M cnt i0 body2).
Proof.
  intros Hb. revert i0. induction cnt as [|cnt IH]; intros i0.
  - apply sim_ret.
  - cbn [for_M]. apply sim_bind; [apply Hb|]. intros _. apply IH.
Qed.

End Sim.

Ltac sim_step :=
  lazymatch goal with
  | |- sim (mbind _ _) (mbind _ _) => apply sim_bind; [|intros ?]
  | |- sim (mret _) (mret _) => apply sim_ret
  | |- sim (pure _) (pure _) => apply sim_pure
  | |- sim (gets _) (gets _) => apply sim_gets; intros ?; reflexivity
  | |- sim (modify (log_call _)) (modify (log_call _)) =>
      apply sim_log; reflexivity
  | |- sim (modify (_ _)) (modify (_ _)) =>
      apply sim_set; intros ?; reflexivity
  | |- sim (error _ _) (error _ _) => apply sim_error
  | |- sim (when _ _) (when _ _) => apply sim_when
  | |- sim (for_M _ _ _) (for_M _ _ _) => apply sim_for; intros ?
  | |- sim (if decide _ then _ else _) (if decide _ then _ else _) =>
      case_decide
  end; cbn beta zeta.

Section StatusFree.

Variable fresh : string → nat → float.
Variable dgesdd : string → Z → Z → list float → Z → Z → Z → Z → dgesdd_out.
Variable dqrsl : list float → Z → Z → Z → list float → list float → Z
                 → dqrsl_out.
Variable st : list float → Z → Z → Z → list float → list float → Z → Z.

Lemma sim_call_svdfirst nr nc :
  sim (call_svdfirst fresh dgesdd nr nc) (call_svdfirst fresh dgesdd nr nc).
Proof.
  intros s1 s2 H. unfold call_svdfirst.
  assert (fitted s1 = fitted s2) as ->
      by exact (f_equal fitted H).
  destruct (svdfirst fresh dgesdd (fitted s2) nr nc) as [v fr|e fr|f];
    cbn [outcome_map]; [| |done].
  - f_equal. change (set_fitted (sv_x fr) (forget s1)
                     = set_fitted (sv_x fr) (forget s2)). by rewrite H.
  - f_equal. change (set_fitted (sv_x fr) (forget s1)
                     = set_fitted (sv_x fr) (forget s2)). by rewrite H.
Qed.

Lemma sim_perm_iter nperm nr nc FIRST PARTIAL qrank Zqrank k :
  sim (perm_iter fresh dgesdd (with_status st dqrsl) nperm nr nc FIRST
         PARTIAL qrank Zqrank k)
      (perm_iter fresh dgesdd dqrsl nperm nr nc FIRST PARTIAL qrank
         Zqrank k).
Proof.
  unfold perm_iter, perm_project, perm_eigen, permute_row, permute_cell,
    partial_col, design_col, call_getEV, load, store, load_block,
    store_block.
  repeat first [apply sim_call_svdfirst | sim_step].
Qed.

Lemma sim_getF_init nperm nr nc PARTIAL :
  sim (getF_init fresh nperm nr nc PARTIAL)
      (getF_init fresh nperm nr nc PARTIAL).
Proof.
  unfold getF_init, zero_base, load, store.
  repeat sim_step.
Qed.

(** The statuses on record apart, do_getF stops in the same way and in
    the same memory whatever status dqrsl reports. *)
Lemma do_getF_status_free perms E QR QZ first isPartial :
  outcome_map forget
    (do_getF fresh dgesdd (with_status st dqrsl) perms E QR QZ first
       isPartial)
  = outcome_map forget
      (do_getF fresh dgesdd dqrsl perms E QR QZ first isPartial).
Proof.
  unfold do_getF.
  assert (∀ A (m1 m2 : M mem A) s, sim m1 m2 →
            outcome_map forget (m1 s) = outcome_map forget (m2 s)) as Hrun
      by (intros A m1 m2 s H; by apply H).
  apply Hrun. apply sim_bind; [apply sim_getF_init|]. intros rk.
  apply sim_bind.
  - unfold getF_loop. apply sim_for. intros k. apply sim_perm_iter.
  - intros _. sim_step.
Qed.

End StatusFree.

(** C2, as the code has it. do_getF hands dqrsl the address of its local
    [info] and never reads it: whatever status dqrsl reports, do_getF
    stops in the same way, with the same table and the same blocks; the
    only conditions it raises are the two that svdfirst raises for a
    non-zero status of dgesdd, and those only with [first] set. *)
Theorem qr_status_not_fatal fresh dgesdd dqrsl (perms : Rmatrix Z)
    (E : Rmatrix float) (QR : QRobj) (QZ : option QRobj)
    (first isPartial : Z) :
  (∀ st,
     outcome_map forget
       (do_getF fresh dgesdd (with_status st dqrsl) perms E QR QZ first
          isPartial)
     = outcome_map forget
         (do_getF fresh dgesdd dqrsl perms E QR QZ first isPartial))
  ∧ match do_getF fresh dgesdd dqrsl perms E QR QZ first isPartial with
    | Raise e _ => first ≠ 0 ∧ ∃ code, dgesdd_failed code e
    | _ => True
    end.
Proof.
  split; [intros st; apply do_getF_status_free|].
  pose proof (do_getF_invariant fresh dgesdd dqrsl perms E QR QZ
                first isPartial (λ _, True)
                (λ e _, first ≠ 0 ∧ ∃ code, dgesdd_failed code e)) as H.
  destruct (do_getF _ _ _ _ _ _ _ _ _); [done| |done].
  by apply H.
Qed.

(** ** The theorems on sample inputs *)

Lemma svdfirst_status_witness :
  (∃ fr, svdfirst junk dgesdd_norm v34 2 1 = Ret 5%float fr
         ∧ g_info (svd_query dgesdd_norm v34 2 1) = 0
         ∧ ∃ lwork, g_info (svd_decomp dgesdd_norm v34 2 1 lwork) = 0
                    ∧ 5%float = g_s (svd_decomp dgesdd_norm v34 2 1 lwork) 0%nat)
  ∧ (svd_wf vnan 2 1
     ∧ g_info (svd_query dgesdd_norm vnan 2 1) ≠ 0
     ∧ ∃ fr, svdfirst junk dgesdd_norm vnan 2 1
             = Raise (Rf_error "error %d from Lapack dgesdd" (-4)) fr)
  ∧ (svd_wf v34 2 1
     ∧ g_info (svd_query dgesdd_stall v34 2 1) = 0
     ∧ int_of_double (g_work (svd_query dgesdd_stall v34 2 1) 0) = Val 8
     ∧ g_info (svd_decomp dgesdd_stall v34 2 1 8) ≠ 0
     ∧ ∃ fr, svdfirst junk dgesdd_stall v34 2 1
             = Raise (Rf_error "error %d from Lapack dgesdd, pos 2" 1) fr).
Proof.
  assert (svd_wf vnan 2 1 ∧ svd_wf v34 2 1) as [Hnan H34].
  { unfold svd_wf, INT_MAX; cbn; lia. }
  split; [|split].
  - eexists. split; [vm_compute; reflexivity|].
    destruct (proj1 (svdfirst_status junk dgesdd_norm v34 2 1) 5%float
                _ ltac:(vm_compute; reflexivity))
      as (Hq & lwork & _ & Hr & Hv).
    split; [exact Hq|]. exists lwork. by split.
  - split; [done|]. split; [by vm_compute|].
    apply (proj1 (proj2 (svdfirst_status junk dgesdd_norm vnan 2 1)));
      [done|by vm_compute].
  - split; [done|]. split; [by vm_compute|]. split; [by vm_compute|].
    split; [by vm_compute|].
    apply (proj2 (proj2 (svdfirst_status junk dgesdd_stall v34 2 1)) H34
             ltac:(by vm_compute) 8);
      [by vm_compute|lia|by vm_compute].
Defined.

Ltac run_row_end :=
  unfold row_end22, row_end; eexists _, _, _;
  split; [vm_compute; reflexivity|];
  split; [vm_compute; reflexivity|];
  vm_compute; reflexivity.

(** C1, as the specification has it, fails: with neither flag set the job
    of every design call is 1, which asks dqrsl for the fitted values and
    not for the residuals, and the residual block is never stored into. *)
Lemma design_job_residuals_only_counterexample :
  ∃ ans m,
    run22 0 QRfull None 0 0 = Ret ans m
    ∧ design_calls m = [(0, 0, 1); (0, 1, 1); (1, 0, 1); (1, 1, 1)]
    ∧ job_rsd 1 = false ∧ job_xb 1 = true
    ∧ resid m = map (junk "resid"%string) (seq 0 4).
Proof. eexists _, _. split; [vm_compute; reflexivity|]. by vm_compute. Qed.

Lemma design_projection_job_witness :
  ∃ ans m,
    run22 0 QRfull (Some QRnull) 0 1 = Ret ans m
    ∧ design_calls m = design_schedule 2 2 11
    ∧ job_xb 11 = true ∧ job_rsd 11 = true.
Proof.
  eexists _, _. split; [vm_compute; reflexivity|].
  destruct (design_projection_job junk dgesdd_norm (dqrsl_plain 0) perms22
              E22 QRfull (Some QRnull) 0 1) as (Hcalls & _ & _ & Hxb & Hrsd).
  split; [|by split].
  eapply (Hcalls _). vm_compute; reflexivity.
Defined.

(** C2, as the specification has it, fails: every one of the eight calls
    of dqrsl reports status 7, and do_getF returns its table. *)
Lemma qr_status_fatal_counterexample :
  ∃ ans m,
    run22 7 QRfull (Some QRnull) 0 1 = Ret ans m
    ∧ length (calls m) = 8%nat
    ∧ Forall (λ c, c_info c = 7) (calls m)
    ∧ ans = [30%float; 30%float; 0%float; 0%float].
Proof.
  eexists _, _. split; [vm_compute; reflexivity|].
  split; [done|]. split; [|done]. by repeat constructor.
Qed.

Lemma residual_variance_entry_witness :
  ∃ ans m mk,
    run22 0 QRnull None 1 0 = Ret ans m
    ∧ Z.of_nat 1 < mnrow perms22
    ∧ row_end22 0 QRnull None 1 0 1 mk
    ∧ ans !! 3%nat = Some (foldl acc_sq d0 (resid mk))
    ∧ foldl acc_sq d0 (resid mk) = 30%float.
Proof.
  eexists _, _, _. split; [vm_compute; reflexivity|].
  split; [by vm_compute|]. split; [run_row_end|].
  split; [|vm_compute; reflexivity].
  eapply (proj2 (residual_variance_entry junk dgesdd_norm (dqrsl_plain 0)
                   perms22 E22 QRnull None 1 0 _ _ 1%nat
                   ltac:(vm_compute; reflexivity) ltac:(by vm_compute)) _).
  run_row_end.
Defined.

Lemma explained_variance_entry_witness :
  ∃ ans m mk,
    run22 0 QRfull None 1 0 = Ret ans m
    ∧ Z.of_nat 1 < mnrow perms22
    ∧ row_end22 0 QRfull None 1 0 1 mk
    ∧ ∃ lwork,
        let r := dgesdd_norm "N" 2 2 (fitted mk) 2 2 2 lwork in
        ans !! 1%nat = Some (dmul (g_s r 0%nat) (g_s r 0%nat))
        ∧ PrimFloat.leb (g_s r 1%nat) (g_s r 0%nat) = true.
Proof.
  eexists _, _, _. split; [vm_compute; reflexivity|].
  split; [by vm_compute|]. split; [run_row_end|].
  pose proof (proj2 (explained_variance_entry junk dgesdd_norm
                       (dqrsl_plain 0) perms22 E22 QRfull None 1 0 _ _ 1%nat
                       ltac:(vm_compute; reflexivity) ltac:(by vm_compute))
                _ ltac:(run_row_end)) as H.
  cbn [decide] in H. destruct H as (lwork & _ & Hans & Hmax).
  exists lwork. split; [exact Hans|].
  apply Hmax; [|cbn; lia].
  intros i j Hij. assert (i = 0%nat ∧ j = 1%nat) as [-> ->] by (cbn in Hij; lia).
  vm_compute; reflexivity.
Defined.

Lemma caller_objects_intact_witness :
  ∃ mk,
    row_end22 0 QRfull (Some QRnull) 1 1 1 mk
    ∧ m_E mk = E22 ∧ m_QR mk = QRfull ∧ m_QZ mk = Some QRnull.
Proof.
  eexists. split; [run_row_end|].
  destruct (caller_objects_intact junk dgesdd_norm (dqrsl_plain 0)
              perms22 E22 QRfull (Some QRnull) 1 1) as [_ Hrow].
  apply (Hrow 1%nat). run_row_end.
Defined.

Lemma permutations_zero_based_witness :
  ∃ mk,
    row_end22 0 QRfull None 0 0 0 mk
    ∧ length (mdata perms22) = 4%nat
    ∧ m_perms mk = perms22
    ∧ iperm mk = [0; 1; 1; 0].
Proof.
  eexists. split; [run_row_end|]. split; [done|].
  destruct (permutations_zero_based junk dgesdd_norm (dqrsl_plain 0)
              perms22 E22 QRfull None 0 0) as (_ & Hrow & Hall).
  destruct (Hrow 0%nat _ ltac:(run_row_end)) as [Hp Hi].
  split; [exact Hp|]. rewrite Hi, Hall by done. done.
Defined.

(** ** getEV at the edges *)

(** X1. On a matrix without rows getEV returns zero for both flags, and
    with flag 0 also on a matrix without columns; the buffer is not read. *)
Theorem getEV_empty (x : list float) (nr nc isDB : Z) :
  (isDB = 0 ∧ nr * nc = 0) ∨ (isDB = 1 ∧ nr ≤ 0) →
  getEV x nr nc isDB = Val d0.
Proof.
  intros [[-> H]|[-> H]]; unfold getEV.
  - rewrite H. cbn. done.
  - replace (Z.to_nat nr) with O by lia. done.
Qed.

Lemma getEV_empty_witness :
  ((0 = 0 ∧ 0 * 5 = 0) ∨ (0 = 1 ∧ 0 ≤ 0)) ∧ getEV [] 0 5 0 = Val d0.
Proof.
  split; [left; lia|]. apply (getEV_empty [] 0 5 0). left. lia.
Defined.

Lemma getEV_diag_loop_oob (x : list float) (nr : Z) (cnt i : nat) (a : float) :
  0 ≤ nr → nr * nr ≤ INT_MAX → Z.of_nat (i + cnt) ≤ nr → (0 < cnt)%nat →
  Z.of_nat (length x) ≤ Z.of_nat (i + cnt - 1) * nr + Z.of_nat (i + cnt - 1) →
  for_res cnt (Z.of_nat i) (getEV_diag_body x nr) a = Bad out_of_bounds.
Proof.
  intros Hnr Hmax. revert i a.
  induction cnt as [|cnt IH]; intros i a Hi Hcnt Hlen; [lia|].
  cbn [for_res].
  assert (0 ≤ Z.of_nat i * nr ∧ Z.of_nat i * nr + Z.of_nat i < nr * nr)
    as [Hlo Hhi] by nia.
  destruct (x !! Z.to_nat (Z.of_nat i * nr + Z.of_nat i)) as [v|] eqn:Hv.
  - rewrite (getEV_diag_body_Val _ _ _ _ v) by (done || lia).
    rewrite res_bind_Val.
    replace (Z.of_nat i + 1) with (Z.of_nat (S i)) by lia.
    destruct cnt as [|cnt].
    + apply lookup_lt_Some in Hv.
      replace (i + 1 - 1)%nat with i in Hlen by lia. lia.
    + apply IH; [lia|lia|].
      by replace (S i + S cnt - 1)%nat with (i + S (S cnt) - 1)%nat by lia.
  - unfold getEV_diag_body.
    rewrite int_Val by (unfold INT_MIN; nia). rewrite res_bind_Val.
    rewrite int_Val by (unfold INT_MIN; nia). rewrite res_bind_Val.
    unfold rd. rewrite decide_True by lia. by rewrite Hv.
Qed.

(** X2. With flag 1 getEV walks the diagonal of an [nr] by [nr] layout
    whatever [nc] is: on the [nr * nc] cells of a matrix with fewer columns
    than rows it reads outside the buffer. *)
Theorem getEV_diag_needs_square (x : list float) (nr nc : Z) :
  0 ≤ nc → nc < nr → nr * nr ≤ INT_MAX →
  Z.of_nat (length x) = nr * nc →
  getEV x nr nc 1 = Bad out_of_bounds.
Proof.
  intros Hnc Hlt Hmax Hlen. unfold getEV.
  rewrite (getEV_diag_loop_oob x nr (Z.to_nat nr) 0); [done|lia..|].
  rewrite Hlen. replace (Z.of_nat (0 + Z.to_nat nr - 1)) with (nr - 1) by lia.
  nia.
Qed.

Lemma getEV_diag_needs_square_witness :
  (0 ≤ 1 ∧ 1 < 2 ∧ 2 * 2 ≤ INT_MAX ∧ Z.of_nat (length v34) = 2 * 1)
  ∧ getEV v34 2 1 1 = Bad out_of_bounds.
Proof.
  split; [unfold INT_MAX; cbn; lia|].
  apply (getEV_diag_needs_square v34 2 1); unfold INT_MAX; cbn; lia.
Defined.

(** ** svdfirst: when it returns *)

(** X3. On a matrix with at least one row and one column whose [nr * nc]
    cells are there, when dgesdd reports status 0 for the workspace query
    and for the decomposition and the length it asks for is a non-negative
    int, svdfirst returns the first singular value of the decomposition. *)
Theorem svdfirst_returns fresh dgesdd (x : list float) (nr nc lwork : Z) :
  svd_wf x nr nc → 1 ≤ Z.min nr nc →
  g_info (svd_query dgesdd x nr nc) = 0 →
  int_of_double (g_work (svd_query dgesdd x nr nc) 0) = Val lwork →
  0 ≤ lwork →
  g_info (svd_decomp dgesdd x nr nc lwork) = 0 →
  svdfirst fresh dgesdd x nr nc
  = Ret (g_s (svd_decomp dgesdd x nr nc lwork) 0%nat)
      (frame2 dgesdd x nr nc lwork).
Proof.
  intros Hwf Hmin Hq Hlw Hpos Hr.
  rewrite svdfirst_unfold by done.
  rewrite (svd_calls_decomp _ _ _ _ _ lwork) by done.
  rewrite decide_False by lia.
  unfold frame2; cbn [sv_sigma]. unfold rd. rewrite decide_True by lia.
  destruct (Z.to_nat (Z.min nr nc)) as [|n] eqn:En; [lia|].
  done.
Qed.

Lemma svdfirst_returns_witness :
  (svd_wf v34 2 1 ∧ 1 ≤ Z.min 2 1
   ∧ g_info (svd_query dgesdd_norm v34 2 1) = 0
   ∧ int_of_double (g_work (svd_query dgesdd_norm v34 2 1) 0) = Val 10
   ∧ g_info (svd_decomp dgesdd_norm v34 2 1 10) = 0)
  ∧ svdfirst junk dgesdd_norm v34 2 1
    = Ret 5%float (frame2 dgesdd_norm v34 2 1 10).
Proof.
  assert (svd_wf v34 2 1) as Hwf by (unfold svd_wf, INT_MAX; cbn; lia).
  split; [repeat split; try done; by vm_compute|].
  apply (svdfirst_returns junk dgesdd_norm v34 2 1 10);
    [done|lia|by vm_compute|by vm_compute|lia|by vm_compute].
Defined.

(** X4. On a matrix without rows or without columns svdfirst allocates no
    cell for the singular values and, when both calls of dgesdd report
    status 0, reads [sigma[0]] outside that block. *)
Theorem svdfirst_empty_matrix fresh dgesdd (x : list float) (nr nc lwork : Z) :
  svd_wf x nr nc → Z.min nr nc = 0 →
  g_info (svd_query dgesdd x nr nc) = 0 →
  int_of_double (g_work (svd_query dgesdd x nr nc) 0) = Val lwork →
  0 ≤ lwork →
  g_info (svd_decomp dgesdd x nr nc lwork) = 0 →
  svdfirst fresh dgesdd x nr nc = Fault out_of_bounds.
Proof.
  intros Hwf Hmin Hq Hlw Hpos Hr.
  rewrite svdfirst_unfold by done.
  rewrite (svd_calls_decomp _ _ _ _ _ lwork) by done.
  rewrite decide_False by lia.
  unfold frame2; cbn [sv_sigma]. rewrite Hmin. done.
Qed.

Lemma svdfirst_empty_matrix_witness :
  (svd_wf [] 0 3 ∧ Z.min 0 3 = 0
   ∧ g_info (svd_query dgesdd_norm [] 0 3) = 0
   ∧ int_of_double (g_work (svd_query dgesdd_norm [] 0 3) 0) = Val 3
   ∧ g_info (svd_decomp dgesdd_norm [] 0 3 3) = 0)
  ∧ svdfirst junk dgesdd_norm [] 0 3 = Fault out_of_bounds.
Proof.
  assert (svd_wf [] 0 3) as Hwf by (unfold svd_wf, INT_MAX; cbn; lia).
  split; [repeat split; try done; by vm_compute|].
  apply (svdfirst_empty_matrix junk dgesdd_norm [] 0 3 3);
    [done|lia|by vm_compute|by vm_compute|lia|by vm_compute].
Defined.

(** ** test_svd *)

(** X5. test_svd leaves the cells of its argument as they are, returned or
    raised; what it returns is a vector of one cell, the value svdfirst
    returns on the matrix; what it raises is what svdfirst raises, and it
    returns or raises exactly when svdfirst does. *)
Theorem test_svd_wraps fresh dgesdd (x : Rmatrix float) :
  match test_svd fresh dgesdd x with
  | Ret ans t =>
      ts_x t = mdata x ∧ ts_ans t = ans
      ∧ ∃ v fr, ans = [v]
                ∧ svdfirst fresh dgesdd (mdata x) (mnrow x) (mncol x)
                  = Ret v fr
  | Raise e t =>
      ts_x t = mdata x
      ∧ (∃ code, dgesdd_failed code e)
      ∧ ∃ fr, svdfirst fresh dgesdd (mdata x) (mnrow x) (mncol x)
              = Raise e fr
  | Fault f =>
      svdfirst fresh dgesdd (mdata x) (mnrow x) (mncol x) = Fault f
  end.
Proof.
  unfold test_svd.
  pose proof (svdfirst_input fresh dgesdd (mdata x) (mnrow x) (mncol x)) as H.
  unfold post in H.
  change (svdfirst_body fresh dgesdd (mnrow x) (mncol x) (frame0 (mdata x)))
    with (svdfirst fresh dgesdd (mdata x) (mnrow x) (mncol x)) in H.
  destruct (svdfirst fresh dgesdd (mdata x) (mnrow x) (mncol x))
    as [v fr|e fr|f]; cbn beta in H; [| |done].
  - cbn. split; [done|]. split; [done|]. by exists v, fr.
  - destruct H as [Hx He]. split; [done|]. split; [done|]. by exists fr.
Qed.

(** ** do_getF: the table and the calls *)

(** X6. The table that do_getF returns has [2 * nperm] cells, the two
    columns of [nperm] rows, and is the block [ans] of the memory. *)
Theorem result_table_shape fresh dgesdd dqrsl (perms : Rmatrix Z)
    (E : Rmatrix float) (QR : QRobj) (QZ : option QRobj)
    (first isPartial : Z) :
  match do_getF fresh dgesdd dqrsl perms E QR QZ first isPartial with
  | Ret ans m =>
      length ans = Z.to_nat (mnrow perms * 2) ∧ ans = rans m
      ∧ 0 ≤ mnrow perms * 2 ≤ INT_MAX
  | _ => True
  end.
Proof.
  destruct (do_getF fresh dgesdd dqrsl perms E QR QZ first isPartial)
    as [ans m| |] eqn:Hrun; [|done..].
  pose proof Hrun as (rk & Hinit & Hloop & ->)%do_getF_Ret.
  apply getF_init_Ret in Hinit as (_ & _ & _ & Hn & _).
  split; [|by split].
  assert (sized (mnrow perms) (mnrow E) (mncol E)
            (loop_entry fresh perms E QR QZ)) as Hs0.
  { unfold sized, loop_entry; cbn. by rewrite !length_map, !length_seq. }
  unfold getF_loop in Hloop.
  by destruct (rows_sized _ _ _ _ _ _ _ _ _ _ _ _ _ _ Hs0 Hloop) as (? & _).
Qed.

Lemma call_trace_log c m :
  call_trace (log_call c m)
  = call_trace m ++ [(c_model c, c_row c, c_col c, c_job c)].
Proof. unfold call_trace, log_call; cbn [calls]. by rewrite map_app. Qed.

Lemma call_trace_closed l :
  work_closed (λ m, call_trace m = l) ∧ rans_closed (λ m, call_trace m = l).
Proof. by repeat split; intros v m Hm _. Qed.

Section Trace.

Variable fresh : string → nat → float.
Variable dgesdd : string → Z → Z → list float → Z → Z → Z → Z → dgesdd_out.
Variable dqrsl : list float → Z → Z → Z → list float → list float → Z
                 → dqrsl_out.

Lemma partial_col_logs (P : mem → Prop) QE nr Zqrank k qrkind i s :
  work_closed P → P s →
  post (partial_col dqrsl nr Zqrank k qrkind i) s
    (λ _ s', ∃ s0 info,
       P s0
       ∧ s' = log_call {| c_model := Zmodel; c_row := k; c_col := i;
                          c_job := qrkind; c_info := info |} s0)
    QE.
Proof.
  intros (HrY & _ & _ & Hqty) Hs.
  unfold partial_col, load_block, store_block.
  repeat (mstep; try discriminate).
  all: do 2 eexists; (split; [|reflexivity]).
  all: repeat match goal with
         | H : fill _ _ _ _ = Val _ |- _ => apply fill_length in H
         end.
  all: repeat first [ done | apply HrY | apply Hqty ].
Qed.

(** A loop over the columns whose body records one call. *)
Lemma column_calls_loop (body : Z → M mem unit) (md : model) (k job : Z)
    (cnt : nat) l s :
  call_trace s = l →
  (∀ i l' s', call_trace s' = l' →
     post (body i) s'
       (λ _ s'', call_trace s'' = l' ++ [(md, k, i, job)]) (λ _ _, True)) →
  post (for_M cnt 0 body) s
    (λ _ s', call_trace s'
             = l ++ map (λ i : nat, (md, k, Z.of_nat i, job)) (seq 0 cnt))
    (λ _ _, True).
Proof.
  intros Hs Hbody.
  apply (post_for
           (λ j s', call_trace s'
                    = l ++ map (λ i : nat, (md, k, Z.of_nat i, job))
                             (seq 0 j))).
  - cbn. by rewrite app_nil_r.
  - intros j s' Hj Hs'. rewrite Z.add_0_l.
    eapply post_mono; [by apply Hbody| |done].
    intros [] s'' ->. cbn beta.
    by rewrite seq_S, map_app, app_assoc.
Qed.

Lemma perm_iter_trace nperm nr nc FIRST PARTIAL qrank Zqrank k l s :
  call_trace s = l →
  post (perm_iter fresh dgesdd dqrsl nperm nr nc FIRST PARTIAL qrank Zqrank k)
    s
    (λ _ s', call_trace s' = l ++ row_trace PARTIAL FIRST (Z.to_nat nc) k)
    (λ _ _, True).
Proof.
  intros Hs. destruct (call_trace_closed l) as [Hw Hr].
  unfold perm_iter, perm_project, row_trace. do 2 apply post_bind.
  eapply post_mono;
    [apply (keeps_for (λ m, call_trace m = l) (λ _ _, True)); [|done]
    | |done].
  { intros i. by apply permute_row_keeps. }
  intros [] s1 Hs1. cbn beta. apply post_bind.
  set (lz := if decide (PARTIAL ≠ 0)
             then map (λ i : nat, (Zmodel, k, Z.of_nat i, RESID))
                    (seq 0 (Z.to_nat nc))
             else []).
  eapply post_mono with
    (Q := λ _ s', call_trace s' = l ++ lz) (QE := λ _ _, True); [| |done].
  { subst lz. apply post_when.
    - intros Hb%bool_decide_eq_true. rewrite decide_True by done.
      apply column_calls_loop; [done|]. intros i l' s' Hs'.
      eapply post_mono;
        [by apply (partial_col_logs (λ m, call_trace m = l') (λ _ _, True));
           [apply call_trace_closed|]
        | |done].
      intros [] s'' (s0 & info & Hs0 & ->). cbn beta.
      by rewrite call_trace_log, Hs0.
    - intros Hb%bool_decide_eq_false. rewrite decide_False by done.
      by rewrite app_nil_r. }
  intros [] s2 Hs2. cbn beta.
  eapply post_mono;
    [apply (column_calls_loop _ Xmodel k (design_qrkind PARTIAL FIRST));
       [exact Hs2|]
    | |done].
  { intros i l' s' Hs'.
    eapply post_mono;
      [by apply (design_col_logs dqrsl (λ m, call_trace m = l') (λ _ _, True));
         [apply call_trace_closed|]
      | |done].
    intros [] s'' (s0 & info & Hs0 & ->). cbn beta.
    by rewrite call_trace_log, Hs0. }
  intros [] s3 Hs3. cbn beta.
  destruct (call_trace_closed
              (l ++ lz ++ map (λ i : nat, (Xmodel, k, Z.of_nat i,
                                           design_qrkind PARTIAL FIRST))
                            (seq 0 (Z.to_nat nc)))) as [Hw' Hr'].
  apply (perm_eigen_keeps fresh dgesdd _ (λ _ _, True) Hw' Hr'); [done|].
  by rewrite Hs3, <- app_assoc.
Qed.

End Trace.

(** X7. When do_getF returns it has called dqrsl, row after row of the
    permutation table, first on the partial model if there is one, once per
    column and asking for residuals only (job 10), then on the design, once
    per column; without a partial model dqrsl is never called on QZ. *)
Theorem dqrsl_call_order fresh dgesdd dqrsl (perms : Rmatrix Z)
    (E : Rmatrix float) (QR : QRobj) (QZ : option QRobj)
    (first isPartial : Z) ans m :
  do_getF fresh dgesdd dqrsl perms E QR QZ first isPartial = Ret ans m →
  call_trace m
  = full_trace isPartial first (Z.to_nat (mnrow perms)) (Z.to_nat (mncol E))
  ∧ (isPartial = 0 → Forall (λ c, c_model c = Xmodel) (calls m)).
Proof.
  intros (rk & _ & Hloop & _)%do_getF_Ret.
  assert (call_trace m
          = full_trace isPartial first (Z.to_nat (mnrow perms))
              (Z.to_nat (mncol E))) as Htrace.
  { eapply (post_Ret _ _
              (λ _ m', call_trace m'
                       = full_trace isPartial first (Z.to_nat (mnrow perms))
                           (Z.to_nat (mncol E)))
              (λ _ _, True)); [|exact Hloop].
    unfold getF_loop.
    apply (post_for
             (λ n m', call_trace m'
                      = full_trace isPartial first n (Z.to_nat (mncol E))));
      [done|].
    intros k s Hk Hs. rewrite Z.add_0_l.
    eapply post_mono; [by apply perm_iter_trace| |done].
    intros [] s' Hs'. cbn beta. rewrite Hs'.
    unfold full_trace. rewrite seq_S, flat_map_app. cbn.
    by rewrite app_nil_r. }
  split; [done|]. intros ->.
  assert (Forall (λ t : model * Z * Z * Z, t.1.1.1 = Xmodel) (call_trace m))
    as Hall.
  { rewrite Htrace. unfold full_trace. apply Forall_flat_map.
    apply Forall_forall. intros k _. unfold row_trace.
    rewrite decide_False by lia. cbn [app].
    apply Forall_map, Forall_forall. by intros i _. }
  unfold call_trace in Hall. by apply Forall_map in Hall.
Qed.

(** ** do_getF: what one turn of the loop computes *)

Lemma block_inv {A} (buf y : list A) off n :
  block buf off n = Val y →
  0 ≤ off ∧ 0 ≤ n ∧ off + n ≤ Z.of_nat (length buf)
  ∧ y = take (Z.to_nat n) (drop (Z.to_nat off) buf).
Proof. unfold block. case_decide; [|done]. intros [= <-]. tauto. Qed.

Lemma fill_inv {A} (buf buf' : list A) off n out :
  fill buf off n out = Val buf' →
  0 ≤ off ∧ 0 ≤ n ∧ off + n ≤ Z.of_nat (length buf)
  ∧ buf' = take (Z.to_nat off) buf ++ map out (seq 0 (Z.to_nat n))
           ++ drop (Z.to_nat (off + n)) buf.
Proof. unfold fill. case_decide; [|done]. intros [= <-]. tauto. Qed.

(** A buffer of which [n] cells from [a] are overwritten. *)
Lemma patch_lookup_out {A} (buf new : list A) (a i : nat) :
  (a + length new ≤ length buf)%nat →
  (i < a ∨ a + length new ≤ i)%nat →
  (take a buf ++ new ++ drop (a + length new) buf) !! i = buf !! i.
Proof.
  intros Hlen [Hi|Hi].
  - rewrite lookup_app_l by (rewrite length_take; lia).
    by apply lookup_take_lt.
  - rewrite lookup_app_r by (rewrite length_take; lia).
    rewrite length_take, Nat.min_l by lia.
    rewrite lookup_app_r by lia. rewrite lookup_drop. f_equal. lia.
Qed.

Lemma patch_segment {A} (buf new : list A) (a : nat) :
  (a + length new ≤ length buf)%nat →
  take (length new) (drop a (take a buf ++ new ++ drop (a + length new) buf))
  = new.
Proof.
  intros Hlen.
  rewrite drop_app_length' by (rewrite length_take; lia).
  by rewrite take_app_length.
Qed.

Lemma column_fill_at nr j (buf buf' : list float) out :
  0 ≤ j →
  fill buf (j * nr) nr out = Val buf' → column nr j buf' = filled nr out.
Proof.
  intros Hj (Hoff & Hn & Hlen & ->)%fill_inv. unfold column, filled.
  set (new := map out (seq 0 (Z.to_nat nr))).
  assert (length new = Z.to_nat nr) as Hnew
    by (subst new; by rewrite length_map, length_seq).
  replace (Z.to_nat (j * nr + nr))
    with (Z.to_nat (j * nr) + length new)%nat by lia.
  rewrite <- Hnew at 1. apply patch_segment. lia.
Qed.

Lemma column_fill_other nr j j' (buf buf' : list float) out :
  0 ≤ j → 0 ≤ j' → j' ≠ j →
  fill buf (j * nr) nr out = Val buf' → column nr j' buf' = column nr j' buf.
Proof.
  intros Hj Hj' Hne (Hoff & Hn & Hlen & ->)%fill_inv. unfold column.
  set (new := map out (seq 0 (Z.to_nat nr))).
  assert (length new = Z.to_nat nr) as Hnew
    by (subst new; by rewrite length_map, length_seq).
  replace (Z.to_nat (j * nr + nr))
    with (Z.to_nat (j * nr) + length new)%nat by lia.
  apply list_eq. intros i. rewrite !lookup_take.
  case_decide as Hi; [|done]. rewrite !lookup_drop.
  apply patch_lookup_out; [lia|].
  destruct (decide (j' < j)).
  - left. assert (j' * nr + nr ≤ j * nr) by nia. lia.
  - right. assert (j * nr + nr ≤ j' * nr) by nia. lia.
Qed.

Section Turn.

Variable dqrsl : list float → Z → Z → Z → list float → list float → Z
                 → dqrsl_out.

(** *** The permutation *)

Lemma permute_cell_post nr i ki j s :
  post (permute_cell nr i ki j) s
    (λ _ s',
       ∃ v, 0 ≤ ki + nr * j
            ∧ mdata (m_E s) !! Z.to_nat (ki + nr * j) = Some v
            ∧ 0 ≤ i + nr * j < Z.of_nat (length (rY s))
            ∧ s' = set_rY (<[Z.to_nat (i + nr * j) := v]> (rY s)) s)
    (λ _ _, True).
Proof.
  unfold permute_cell, load, store. repeat mstep.
  repeat match goal with
         | H : int _ = Val _ |- _ => apply int_inv in H as [-> _]
         | H : rd _ _ = Val _ |- _ => apply rd_inv in H as [? ?]
         | H : wr _ _ _ = Val _ |- _ => apply wr_inv in H as [? ->]
         end.
  eauto.
Qed.

Lemma set_rY_twice v w s : set_rY v (set_rY w s) = set_rY v s.
Proof. done. Qed.

Lemma permute_loop_post nperm nr nc k s :
  post (for_M (Z.to_nat nr) 0 (permute_row nperm nr nc k)) s
    (λ _ s',
       s' = set_rY (rY s') s ∧ length (rY s') = length (rY s)
       ∧ ∀ i j, 0 ≤ i < nr → 0 ≤ j < nc →
           permuted_cell nperm nr k (mdata (m_E s)) (iperm s) (rY s') i j)
    (λ _ _, True).
Proof.
  eapply post_mono;
    [apply (post_for
              (λ n s',
                 s' = set_rY (rY s') s ∧ length (rY s') = length (rY s)
                 ∧ ∀ i j, 0 ≤ i < Z.of_nat n → 0 ≤ j < nc →
                     permuted_cell nperm nr k (mdata (m_E s)) (iperm s)
                       (rY s') i j)
              _ (λ _ _, True))
    | |done].
  - split; [by destruct s|]. split; [done|]. intros i j ?. lia.
  - intros n s1 Hn (Hs1 & Hlen1 & Hdone). rewrite Z.add_0_l.
    unfold permute_row, load. repeat mstep.
    repeat match goal with
           | H : int _ = Val _ |- _ => apply int_inv in H as [-> _]
           | H : rd _ _ = Val _ |- _ => apply rd_inv in H as [? ?]
           end.
    match goal with
    | Hge : 0 ≤ k + _, Hrd : iperm s1 !! _ = Some ?x |- _ =>
        rename x into ki; rename Hge into Hidx; rename Hrd into Hki
    end.
    assert (iperm s1 = iperm s) as Hip by (by rewrite Hs1).
    assert (m_E s1 = m_E s) as HE by (by rewrite Hs1).
    rewrite Hip in Hki.
    eapply post_mono;
      [apply (post_for
                (λ m s2,
                   s2 = set_rY (rY s2) s ∧ length (rY s2) = length (rY s)
                   ∧ (∀ i j, 0 ≤ i < Z.of_nat n → 0 ≤ j < nc →
                        permuted_cell nperm nr k (mdata (m_E s)) (iperm s)
                          (rY s2) i j)
                   ∧ ∀ j, 0 ≤ j < Z.of_nat m →
                       permuted_cell nperm nr k (mdata (m_E s)) (iperm s)
                         (rY s2) (Z.of_nat n) j)
                _ (λ _ _, True))
      | |done].
    + split; [done|]. split; [done|]. split; [done|]. intros j ?. lia.
    + intros m s2 Hm (Hs2 & Hlen2 & Hrows & Hrow). rewrite Z.add_0_l.
      assert (Z.of_nat n < nr) as Hnr by lia.
      eapply post_mono; [apply permute_cell_post| |done].
      intros [] s3 (v & Hsrc & Hv & Hdst & ->). cbn beta.
      assert (m_E s2 = m_E s) as HE2 by (by rewrite Hs2).
      rewrite HE2 in Hv. cbn [rY set_rY].
      split; [by rewrite Hs2 at 2|].
      split; [by rewrite length_insert|].
      split.
      * intros i j Hi Hj.
        destruct (Hrows i j Hi Hj) as (ki' & v' & ? & ? & ? & ? & Hcell).
        exists ki', v'. repeat (split; [done|]).
        rewrite list_lookup_insert_ne; [done|].
        assert (Z.of_nat n + nr * Z.of_nat m ≠ i + nr * j)
          by (destruct (decide (j ≤ Z.of_nat m)); nia).
        assert (0 ≤ i + nr * j) by nia. lia.
      * intros j Hj. destruct (decide (j = Z.of_nat m)) as [->|Hne].
        -- exists ki, v. repeat (split; [done|]).
           apply list_lookup_insert_eq. lia.
        -- destruct (Hrow j ltac:(lia))
             as (ki' & v' & ? & ? & ? & ? & Hcell).
           exists ki', v'. repeat (split; [done|]).
           rewrite list_lookup_insert_ne; [done|].
           assert (Z.of_nat n + nr * Z.of_nat m ≠ Z.of_nat n + nr * j)
             by nia.
           assert (0 ≤ Z.of_nat n + nr * j) by nia. lia.
    + intros [] s2 (Hs2 & Hlen2 & Hrows & Hrow). cbn beta.
      split; [done|]. split; [done|]. intros i j Hi Hj.
      destruct (decide (i = Z.of_nat n)) as [->|Hne].
      * apply Hrow. lia.
      * apply Hrows; lia.
  - intros [] s' (Hs' & Hlen & Hcells). cbn beta.
    split; [done|]. split; [done|]. intros i j Hi Hj.
    apply Hcells; lia.
Qed.

(** *** The partial model *)

Lemma partial_col_post nr zrk k i s Zq :
  0 ≤ i → m_QZ s = Some Zq →
  post (partial_col dqrsl nr (Some zrk) k RESID i) s
    (λ _ s',
       m_QZ s' = Some Zq
       ∧ ∃ buf,
           fill (rY s) (i * nr) nr
             (q_rsd (dqrsl (qr_qr Zq) nr nr zrk (qr_qraux Zq)
                       (column nr i (rY s)) RESID)) = Val buf
           ∧ rY s' = buf)
    (λ _ _, True).
Proof.
  intros Hi HQZ. unfold partial_col, load_block, store_block.
  repeat (mstep; try discriminate).
  cbn [m_QZ rY log_call set_rY set_qty] in *.
  repeat match goal with
         | H : int _ = Val _ |- _ => apply int_inv in H as [-> _]
         | H : block _ _ _ = Val _ |- _ =>
             apply block_inv in H as (_ & _ & _ & ->)
         end.
  rewrite HQZ in *.
  repeat match goal with
         | H : Val _ = Val _ |- _ => injection H as <-
         end.
  split; [done|]. eexists. split; [|done]. done.
Qed.

Lemma partial_loop_post nr nc zrk k s Zq :
  m_QZ s = Some Zq →
  post (for_M (Z.to_nat nc) 0 (partial_col dqrsl nr (Some zrk) k RESID)) s
    (λ _ s',
       ∀ j, 0 ≤ j < nc →
         column nr j (rY s')
         = filled nr (q_rsd (dqrsl (qr_qr Zq) nr nr zrk (qr_qraux Zq)
                               (column nr j (rY s)) RESID)))
    (λ _ _, True).
Proof.
  intros HQZ.
  eapply post_mono;
    [apply (post_for
              (λ n s',
                 m_QZ s' = Some Zq
                 ∧ ∀ j, 0 ≤ j →
                     column nr j (rY s')
                     = if decide (j < Z.of_nat n)
                       then filled nr
                              (q_rsd (dqrsl (qr_qr Zq) nr nr zrk (qr_qraux Zq)
                                        (column nr j (rY s)) RESID))
                       else column nr j (rY s))
              _ (λ _ _, True))
    | |done].
  - split; [done|]. intros j Hj. by rewrite decide_False by lia.
  - intros n s1 Hn [HQ1 Hcols]. rewrite Z.add_0_l.
    eapply post_mono; [apply partial_col_post; [lia|exact HQ1]| |done].
    intros [] s2 (HQ2 & buf & Hfill & ->). cbn beta. split; [done|].
    intros j Hj.
    rewrite (Hcols (Z.of_nat n)), decide_False in Hfill by lia.
    destruct (decide (j = Z.of_nat n)) as [->|Hne].
    + rewrite decide_True by lia.
      by eapply column_fill_at; [|exact Hfill]; lia.
    + rewrite (column_fill_other nr (Z.of_nat n) j _ _ _ ltac:(lia) Hj Hne
                 Hfill).
      rewrite Hcols by done.
      destruct (decide (j < Z.of_nat n)).
      * by rewrite decide_True by lia.
      * by rewrite decide_False by lia.
  - intros [] s' [_ Hcols] j Hj. cbn beta.
    rewrite Hcols by lia. by rewrite decide_True by lia.
Qed.

(** *** The design *)

Lemma design_col_post nr qrank k job i s :
  0 ≤ i → job = FIT ∨ job = FIT + RESID →
  post (design_col dqrsl nr qrank k job i) s
    (λ _ s',
       let r := dqrsl (qr_qr (m_QR s)) nr nr qrank (qr_qraux (m_QR s))
                  (column nr i (rY s)) job in
       rY s' = rY s ∧ m_QR s' = m_QR s
       ∧ (∃ buf, fill (fitted s) (i * nr) nr (q_xb r) = Val buf
                 ∧ fitted s' = buf)
       ∧ if decide (job = FIT) then resid s' = resid s
         else ∃ buf, fill (resid s) (i * nr) nr (q_rsd r) = Val buf
                     ∧ resid s' = buf)
    (λ _ _, True).
Proof.
  intros Hi [->| ->]; unfold design_col, load_block, store_block;
    repeat (mstep; try discriminate);
    cbn [m_QR rY fitted resid log_call set_fitted set_resid set_qty] in *;
    repeat match goal with
           | H : int _ = Val _ |- _ => apply int_inv in H as [-> _]
           | H : block _ _ _ = Val _ |- _ =>
               apply block_inv in H as (_ & _ & _ & ->)
           end;
    (split; [done|]); (split; [done|]); (split; [by eexists|]).
  - by rewrite decide_True.
  - rewrite decide_False by done. by eexists.
Qed.

Lemma design_loop_post nr nc qrank k job s :
  job = FIT ∨ job = FIT + RESID →
  post (for_M (Z.to_nat nc) 0 (design_col dqrsl nr qrank k job)) s
    (λ _ s',
       rY s' = rY s ∧ m_QR s' = m_QR s
       ∧ (job = FIT → resid s' = resid s)
       ∧ ∀ j, 0 ≤ j < nc →
           let r := dqrsl (qr_qr (m_QR s)) nr nr qrank (qr_qraux (m_QR s))
                      (column nr j (rY s)) job in
           column nr j (fitted s') = filled nr (q_xb r)
           ∧ (job ≠ FIT → column nr j (resid s') = filled nr (q_rsd r)))
    (λ _ _, True).
Proof.
  intros Hjob.
  eapply post_mono;
    [apply (post_for
              (λ n s',
                 rY s' = rY s ∧ m_QR s' = m_QR s
                 ∧ (job = FIT → resid s' = resid s)
                 ∧ ∀ j, 0 ≤ j < Z.of_nat n →
                     let r := dqrsl (qr_qr (m_QR s)) nr nr qrank
                                (qr_qraux (m_QR s)) (column nr j (rY s)) job in
                     column nr j (fitted s') = filled nr (q_xb r)
                     ∧ (job ≠ FIT →
                        column nr j (resid s') = filled nr (q_rsd r)))
              _ (λ _ _, True))
    | |done].
  - repeat (split; [done|]). intros j ?. lia.
  - intros n s1 Hn (HrY & HQR & Hres & Hcols). rewrite Z.add_0_l.
    eapply post_mono; [apply design_col_post; [lia|exact Hjob]| |done].
    intros [] s2 (HrY2 & HQR2 & (bf & Hfit & ->) & Hrs). cbn beta zeta.
    rewrite HrY, HQR in *.
    split; [by rewrite HrY2|]. split; [by rewrite HQR2|].
    split.
    { intros ->. rewrite decide_True in Hrs by done.
      rewrite Hrs. by apply Hres. }
    intros j Hj. destruct (decide (j = Z.of_nat n)) as [->|Hne].
    + split; [by eapply column_fill_at; [|exact Hfit]; lia|].
      intros Hne. rewrite decide_False in Hrs by done.
      destruct Hrs as (br & Hrs & ->).
      by eapply column_fill_at; [|exact Hrs]; lia.
    + destruct (Hcols j ltac:(lia)) as [Hf Hr]. split.
      * by rewrite (column_fill_other nr (Z.of_nat n) j _ _ _ ltac:(lia)
                      ltac:(lia) Hne Hfit).
      * intros Hjb. rewrite decide_False in Hrs by done.
        destruct Hrs as (br & Hrs & ->).
        rewrite (column_fill_other nr (Z.of_nat n) j _ _ _ ltac:(lia)
                   ltac:(lia) Hne Hrs).
        by apply Hr.
  - intros [] s' (HrY & HQR & Hres & Hcols). cbn beta.
    repeat (split; [done|]). intros j Hj. apply Hcols. lia.
Qed.

End Turn.

Lemma zero_based_lookup_lt (data : list Z) (n idx : nat) ki :
  (idx < n)%nat → zero_based n data !! idx = Some ki →
  data !! idx = Some (ki + 1).
Proof.
  unfold zero_based. intros Hlt H.
  destruct (decide (idx < length data)%nat) as [Hin|Hout].
  - rewrite lookup_app_l in H by (rewrite length_map, length_take; lia).
    rewrite list_lookup_fmap, lookup_take_lt in H by lia.
    destruct (data !! idx) as [p|]; [|done].
    injection H as <-. f_equal. lia.
  - apply lookup_lt_Some in H.
    rewrite length_app, length_map, length_take, length_drop in H. lia.
Qed.

Lemma design_qrkind_cases PARTIAL FIRST :
  design_qrkind PARTIAL FIRST = FIT
  ∨ design_qrkind PARTIAL FIRST = FIT + RESID.
Proof. unfold design_qrkind. case_decide; [by right|by left]. Qed.

Section Stages.

Variable fresh : string → nat → float.
Variable dgesdd : string → Z → Z → list float → Z → Z → Z → Z → dgesdd_out.
Variable dqrsl : list float → Z → Z → Z → list float → list float → Z
                 → dqrsl_out.
Variables (perms : Rmatrix Z) (E : Rmatrix float) (QR : QRobj)
  (QZ : option QRobj) (first isPartial : Z).

Local Abbreviation nperm := (mnrow perms).
Local Abbreviation nr := (mnrow E).
Local Abbreviation nc := (mncol E).

Local Abbreviation loop_frame := (loop_frame perms E QR QZ).

Lemma loop_frame_closed : work_closed loop_frame ∧ rans_closed loop_frame.
Proof.
  split; [refine (conj _ (conj _ (conj _ _)))|]; by intros v m Hm _.
Qed.

Lemma rows_frame (k : nat) rk m1 :
  for_M k 0
    (perm_iter fresh dgesdd dqrsl nperm nr nc first isPartial (fst rk)
       (snd rk)) (loop_entry fresh perms E QR QZ) = Ret tt m1 →
  loop_frame m1.
Proof.
  intros Hrun. destruct loop_frame_closed as [Hw Hr].
  eapply (post_Ret _ _ (λ _, loop_frame) (λ _ _, True)); [|exact Hrun].
  apply keeps_for; [|done]. intros i. by apply perm_iter_keeps.
Qed.

(** The four steps of one turn. *)
Lemma perm_iter_steps rk k m1 mk :
  perm_iter fresh dgesdd dqrsl nperm nr nc first isPartial (fst rk) (snd rk)
    k m1 = Ret tt mk →
  ∃ mp mz md,
    for_M (Z.to_nat nr) 0 (permute_row nperm nr nc k) m1 = Ret tt mp
    ∧ when (bool_decide (isPartial ≠ 0))
        (for_M (Z.to_nat nc) 0 (partial_col dqrsl nr (snd rk) k RESID)) mp
      = Ret tt mz
    ∧ for_M (Z.to_nat nc) 0
        (design_col dqrsl nr (fst rk) k (design_qrkind isPartial first)) mz
      = Ret tt md
    ∧ perm_eigen fresh dgesdd nperm nr nc first isPartial k md = Ret tt mk.
Proof.
  unfold perm_iter, perm_project. intros H.
  apply bind_Ret in H as ([] & md & H & Heig).
  apply bind_Ret in H as ([] & mp & Hperm & H).
  apply bind_Ret in H as ([] & mz & Hpart & Hdes).
  by exists mp, mz, md.
Qed.

Lemma row_end_permuted k mk :
  row_end fresh dgesdd dqrsl perms E QR QZ first isPartial k mk →
  ∃ mp, row_permuted fresh dgesdd dqrsl perms E QR QZ first isPartial k mp.
Proof.
  intros (rk & m0 & m1 & Hinit & Hpre & Hk).
  apply perm_iter_steps in Hk as (mp & _ & _ & Hperm & _).
  exists mp. by exists rk, m0, m1.
Qed.

Lemma perm_eigen_blocks k md mk :
  perm_eigen fresh dgesdd nperm nr nc first isPartial k md = Ret tt mk →
  rY mk = rY md ∧ fitted mk = fitted md ∧ resid mk = resid md
  ∧ m_QR mk = m_QR md.
Proof.
  intros (ev & _ & _ & H)%perm_eigen_Ret.
  destruct (decide _); [destruct H as (ev' & _ & _ & ->)|subst mk]; done.
Qed.

Lemma row_permuted_cells (k : nat) mp i j :
  row_permuted fresh dgesdd dqrsl perms E QR QZ first isPartial k mp →
  Z.of_nat k < nperm → 0 ≤ i < nr → 0 ≤ j < nc →
  ∃ p v,
    mdata perms !! Z.to_nat (Z.of_nat k + nperm * i) = Some p
    ∧ 0 ≤ p - 1 + nr * j
    ∧ mdata E !! Z.to_nat (p - 1 + nr * j) = Some v
    ∧ rY mp !! Z.to_nat (i + nr * j) = Some v.
Proof.
  intros (rk & m0 & m1 & Hinit & Hpre & Hperm) Hk Hi Hj.
  apply getF_init_Ret in Hinit as (-> & _).
  apply rows_frame in Hpre as (HE & _ & _ & Hip).
  pose proof (post_Ret _ _ _ _ _ _
                (permute_loop_post nperm nr nc (Z.of_nat k) m1) Hperm)
    as (_ & _ & Hcells).
  destruct (Hcells i j Hi Hj) as (ki & v & Hidx & Hki & Hsrc & Hv & Hcell).
  rewrite HE in Hv. rewrite Hip in Hki.
  apply zero_based_lookup_lt in Hki; [|nia].
  exists (ki + 1), v. split; [done|].
  by replace (ki + 1 - 1) with ki by lia.
Qed.

Lemma row_partial_columns (k : nat) mp mk :
  row_permuted fresh dgesdd dqrsl perms E QR QZ first isPartial k mp →
  row_end fresh dgesdd dqrsl perms E QR QZ first isPartial k mk →
  if decide (isPartial ≠ 0)
  then ∃ Zq, QZ = Some Zq
             ∧ ∀ j, 0 ≤ j < nc →
                 column nr j (rY mk)
                 = filled nr
                     (q_rsd (dqrsl (qr_qr Zq) nr nr (qr_rank Zq) (qr_qraux Zq)
                               (column nr j (rY mp)) RESID))
  else rY mk = rY mp.
Proof.
  intros (rk & m0 & m1 & Hinit & Hpre & Hperm)
         (rk' & m0' & m1' & Hinit' & Hpre' & Hk).
  rewrite Hinit in Hinit'. injection Hinit' as <- <-.
  rewrite Hpre in Hpre'. injection Hpre' as <-.
  apply getF_init_Ret in Hinit as (-> & _ & HZ & _).
  apply rows_frame in Hpre as Hm1.
  apply perm_iter_steps in Hk as (mp' & mz & md & Hperm' & Hpart & Hdes & Heig).
  rewrite Hperm in Hperm'. injection Hperm' as <-.
  assert (loop_frame mp) as (_ & _ & HQZ & _).
  { destruct loop_frame_closed as [Hw Hr].
    eapply (post_Ret _ _ (λ _, loop_frame) (λ _ _, True)); [|exact Hperm].
    apply keeps_for; [|done]. intros i. by apply permute_row_keeps. }
  apply perm_eigen_blocks in Heig as (-> & _).
  assert (rY md = rY mz) as ->.
  { pose proof (post_Ret _ _ _ _ _ _
                  (design_loop_post dqrsl nr nc (fst rk) (Z.of_nat k)
                     (design_qrkind isPartial first) mz
                     (design_qrkind_cases _ _)) Hdes)
      as (H & _).
    exact H. }
  destruct (decide (isPartial ≠ 0)) as [HP|HP].
  - destruct (HZ HP) as (Zq & -> & Hrk). exists Zq. split; [done|].
    rewrite bool_decide_eq_true_2 in Hpart by done. cbn [when] in Hpart.
    rewrite Hrk in Hpart.
    exact (post_Ret _ _ _ _ _ _
             (partial_loop_post dqrsl nr nc (qr_rank Zq) (Z.of_nat k) mp Zq
                HQZ) Hpart).
  - rewrite bool_decide_eq_false_2 in Hpart by done. cbn [when] in Hpart.
    by injection Hpart as <-.
Qed.

Lemma row_design_columns (k : nat) mk j :
  row_end fresh dgesdd dqrsl perms E QR QZ first isPartial k mk →
  0 ≤ j < nc →
  let r := dqrsl (qr_qr QR) nr nr (qr_rank QR) (qr_qraux QR)
             (column nr j (rY mk)) (design_qrkind isPartial first) in
  column nr j (fitted mk) = filled nr (q_xb r)
  ∧ (isPartial ≠ 0 ∨ first ≠ 0 → column nr j (resid mk) = filled nr (q_rsd r)).
Proof.
  intros Hend Hj.
  assert (m_QR mk = QR) as HQR.
  { destruct loop_frame_closed as [Hw Hr].
    by apply (row_end_invariant fresh dgesdd dqrsl perms E QR QZ first
                isPartial loop_frame (λ _ _, True) Hw Hr) in Hend
      as (_ & ? & _). }
  destruct Hend as (rk & m0 & m1 & Hinit & Hpre & Hk).
  apply getF_init_Ret in Hinit as (-> & Hrk & _).
  apply perm_iter_steps in Hk as (mp & mz & md & _ & _ & Hdes & Heig).
  apply perm_eigen_blocks in Heig as (-> & -> & -> & HQRd).
  pose proof (post_Ret _ _ _ _ _ _
                (design_loop_post dqrsl nr nc (fst rk) (Z.of_nat k)
                   (design_qrkind isPartial first) mz
                   (design_qrkind_cases _ _)) Hdes)
    as (HrY & HQRz & _ & Hcols).
  rewrite HQRd, HQRz in HQR.
  destruct (Hcols j Hj) as [Hfit Hres].
  rewrite HQR, Hrk, <- HrY in Hfit, Hres. cbn zeta. split; [done|].
  intros Hflags. apply Hres. unfold design_qrkind.
  rewrite decide_True by done. done.
Qed.

End Stages.

(** X8. In the turn for row [k] of the permutation table the first loop
    makes [rY] the response with its rows permuted: its cell [(i, j)] is the
    cell of [E] in column [j] and in the row, counted from 1, that the table
    names in its cell [(k, i)]. *)
Theorem permuted_response fresh dgesdd dqrsl (perms : Rmatrix Z)
    (E : Rmatrix float) (QR : QRobj) (QZ : option QRobj)
    (first isPartial : Z) ans m (k : nat) :
  do_getF fresh dgesdd dqrsl perms E QR QZ first isPartial = Ret ans m →
  Z.of_nat k < mnrow perms →
  (∃ mp, row_permuted fresh dgesdd dqrsl perms E QR QZ first isPartial k mp)
  ∧ ∀ mp i j,
      row_permuted fresh dgesdd dqrsl perms E QR QZ first isPartial k mp →
      0 ≤ i < mnrow E → 0 ≤ j < mncol E →
      ∃ p v,
        mdata perms !! Z.to_nat (Z.of_nat k + mnrow perms * i) = Some p
        ∧ 0 ≤ p - 1 + mnrow E * j
        ∧ mdata E !! Z.to_nat (p - 1 + mnrow E * j) = Some v
        ∧ rY mp !! Z.to_nat (i + mnrow E * j) = Some v.
Proof.
  intros Hrun Hk. split.
  - destruct (row_entries _ _ _ _ _ _ _ _ _ _ _ _ Hrun Hk)
      as (mk & _ & Hend & _).
    by eapply row_end_permuted.
  - intros mp i j Hp Hi Hj. by eapply row_permuted_cells.
Qed.

(** X9. With a partial model, the second loop of the turn replaces every
    column of the permuted response, in place, by the residuals that dqrsl
    computes for that column on QZ with the rank of QZ; without a partial
    model the permuted response goes to the design as it is.  The design
    projection and the rest of the turn leave [rY] alone. *)
Theorem partial_residuals_in_place fresh dgesdd dqrsl (perms : Rmatrix Z)
    (E : Rmatrix float) (QR : QRobj) (QZ : option QRobj)
    (first isPartial : Z) (k : nat) mp mk :
  row_permuted fresh dgesdd dqrsl perms E QR QZ first isPartial k mp →
  row_end fresh dgesdd dqrsl perms E QR QZ first isPartial k mk →
  if decide (isPartial ≠ 0)
  then ∃ Zq, QZ = Some Zq
             ∧ ∀ j, 0 ≤ j < mncol E →
                 column (mnrow E) j (rY mk)
                 = filled (mnrow E)
                     (q_rsd (dqrsl (qr_qr Zq) (mnrow E) (mnrow E) (qr_rank Zq)
                               (qr_qraux Zq) (column (mnrow E) j (rY mp))
                               RESID))
  else rY mk = rY mp.
Proof. apply row_partial_columns. Qed.

(** X10. When the turn for row [k] ends, every column of [fitted] holds
    the fitted values that dqrsl computes on QR, with the rank of QR, for
    the same column of [rY]; if [isPartial] or [first] is set every column
    of [resid] holds the residuals of the same call. *)
Theorem design_projection_columns fresh dgesdd dqrsl (perms : Rmatrix Z)
    (E : Rmatrix float) (QR : QRobj) (QZ : option QRobj)
    (first isPartial : Z) (k : nat) mk j :
  row_end fresh dgesdd dqrsl perms E QR QZ first isPartial k mk →
  0 ≤ j < mncol E →
  let r := dqrsl (qr_qr QR) (mnrow E) (mnrow E) (qr_rank QR) (qr_qraux QR)
             (column (mnrow E) j (rY mk)) (design_qrkind isPartial first) in
  column (mnrow E) j (fitted mk) = filled (mnrow E) (q_xb r)
  ∧ (isPartial ≠ 0 ∨ first ≠ 0 →
     column (mnrow E) j (resid mk) = filled (mnrow E) (q_rsd r)).
Proof. apply row_design_columns. Qed.


(** ** do_getF: the runs that are defined *)

Section Runs.
Context {St : Type}.

Lemma runs_ret {A} (a : A) s (Q : A → St → Prop) QE :
  Q a s → runs (mret a) s Q QE.
Proof. done. Qed.

Lemma runs_bind {A B} (m : M St A) (k : A → M St B) s
    (Q : B → St → Prop) QE :
  runs m s (λ a s', runs (k a) s' Q QE) QE → runs (m ≫= k) s Q QE.
Proof.
  unfold runs, mbind, M_bind. by destruct (m s) as [a s'|e s'|f].
Qed.

Lemma runs_Val {A} (a : A) s (Q : A → St → Prop) QE :
  Q a s → runs (pure (Val a)) s Q QE.
Proof. done. Qed.

Lemma runs_pure {A} (r : res A) a s (Q : A → St → Prop) QE :
  r = Val a → Q a s → runs (pure r) s Q QE.
Proof. by intros ->. Qed.

Lemma runs_int z s (Q : Z → St → Prop) QE :
  INT_MIN ≤ z ≤ INT_MAX → Q z s → runs (pure (int z)) s Q QE.
Proof. intros Hz HQ. by apply (runs_pure _ z); [apply int_Val|]. Qed.

Lemma runs_rd {A} (buf : list A) i s (Q : A → St → Prop) QE :
  0 ≤ i < Z.of_nat (length buf) →
  (∀ v, buf !! Z.to_nat i = Some v → Q v s) →
  runs (pure (rd buf i)) s Q QE.
Proof.
  intros Hi HQ.
  destruct (lookup_lt_is_Some_2 buf (Z.to_nat i) ltac:(lia)) as [v Hv].
  apply (runs_pure _ v); [|by apply HQ].
  unfold rd. rewrite decide_True by lia. by rewrite Hv.
Qed.

Lemma runs_wr {A} (buf : list A) i v s (Q : list A → St → Prop) QE :
  0 ≤ i < Z.of_nat (length buf) →
  Q (<[Z.to_nat i := v]> buf) s →
  runs (pure (wr buf i v)) s Q QE.
Proof.
  intros Hi HQ. apply (runs_pure _ (<[Z.to_nat i := v]> buf)); [|done].
  unfold wr. by rewrite decide_True.
Qed.

Lemma runs_block {A} (buf : list A) off n s (Q : list A → St → Prop) QE :
  0 ≤ off → 0 ≤ n → off + n ≤ Z.of_nat (length buf) →
  (∀ y, Q y s) → runs (pure (block buf off n)) s Q QE.
Proof.
  intros H1 H2 H3 HQ. eapply runs_pure; [|apply HQ].
  unfold block. by rewrite decide_True.
Qed.

Lemma runs_fill {A} (buf : list A) off n out s (Q : list A → St → Prop) QE :
  0 ≤ off → 0 ≤ n → off + n ≤ Z.of_nat (length buf) →
  (∀ buf', length buf' = length buf → Q buf' s) →
  runs (pure (fill buf off n out)) s Q QE.
Proof.
  intros H1 H2 H3 HQ.
  assert (fill buf off n out
          = Val (take (Z.to_nat off) buf ++ map out (seq 0 (Z.to_nat n))
                 ++ drop (Z.to_nat (off + n)) buf)) as Hfill
    by (unfold fill; by rewrite decide_True).
  eapply runs_pure; [exact Hfill|]. apply HQ. by eapply fill_length.
Qed.

Lemma runs_gets {A} (f : St → A) s (Q : A → St → Prop) QE :
  Q (f s) s → runs (gets f) s Q QE.
Proof. done. Qed.

Lemma runs_modify (f : St → St) s (Q : unit → St → Prop) QE :
  Q tt (f s) → runs (modify f) s Q QE.
Proof. done. Qed.

Lemma runs_when (b : bool) (m : M St unit) s (Q : unit → St → Prop) QE :
  (b = true → runs m s Q QE) → (b = false → Q tt s) →
  runs (when b m) s Q QE.
Proof. destruct b; cbn; auto. Qed.

Lemma runs_mono {A} (m : M St A) s (Q Q' : A → St → Prop) QE QE' :
  runs m s Q QE →
  (∀ a s', Q a s' → Q' a s') → (∀ e s', QE e s' → QE' e s') →
  runs m s Q' QE'.
Proof.
  unfold runs. intros H HQ HE. destruct (m s) as [a s'|e s'|f]; auto.
Qed.

Lemma runs_for (I : nat → St → Prop) (body : Z → M St unit) QE
    (cnt : nat) (i0 : Z) s :
  I O s →
  (∀ j s', (j < cnt)%nat → I j s' →
           runs (body (i0 + Z.of_nat j)) s' (λ _, I (S j)) QE) →
  runs (for_M cnt i0 body) s (λ _, I cnt) QE.
Proof.
  revert I i0 s. induction cnt as [|cnt IH]; intros I i0 s H0 Hstep; [done|].
  cbn [for_M]. apply runs_bind.
  pose proof (Hstep O s ltac:(lia) H0) as Hb. rewrite Z.add_0_r in Hb.
  eapply runs_mono; [exact Hb| |done].
  intros [] s' Hs'. cbn beta.
  apply (IH (λ j, I (S j))); [done|].
  intros j s'' Hj Hs''.
  replace (i0 + 1 + Z.of_nat j) with (i0 + Z.of_nat (S j)) by lia.
  apply Hstep; [lia|done].
Qed.

(** A run that is defined and whose results are known. *)
Lemma runs_post {A} (m : M St A) s (Q Q' : A → St → Prop) QE QE' :
  runs m s Q QE → post m s Q' QE' →
  runs m s (λ a s', Q a s' ∧ Q' a s') (λ e s', QE e s' ∧ QE' e s').
Proof.
  unfold runs, post. by destruct (m s) as [a s'|e s'|f].
Qed.

End Runs.

Ltac rstep :=
  lazymatch goal with
  | |- runs (mbind _ _) _ _ _ => apply runs_bind
  | |- runs (mret _) _ _ _ => apply runs_ret
  | |- runs (pure (Val _)) _ _ _ => apply runs_Val
  | |- runs (pure (int _)) _ _ _ => apply runs_int
  | |- runs (pure (rd _ _)) _ _ _ => apply runs_rd; [|intros ? ?]
  | |- runs (pure (wr _ _ _)) _ _ _ => apply runs_wr
  | |- runs (pure (block _ _ _)) _ _ _ => apply runs_block; [| | |intros ?]
  | |- runs (pure (fill _ _ _ _)) _ _ _ =>
      apply runs_fill; [| | |intros ? ?]
  | |- runs (gets _) _ _ _ => apply runs_gets
  | |- runs (modify _) _ _ _ => apply runs_modify
  | |- runs (when _ _) _ _ _ => apply runs_when; intros ?
  end; cbn beta zeta.

Ltac rside :=
  cbn [rans rY fitted resid qty iperm m_E m_QZ m_QR m_perms calls set_rans
       set_rY set_fitted set_resid set_qty set_iperm log_call];
  unfold INT_MIN, INT_MAX in *; nia.

Lemma zero_based_lookup_at (data : list Z) (j : nat) :
  zero_based j data !! j = data !! j.
Proof.
  unfold zero_based.
  destruct (decide (j ≤ length data)%nat).
  - rewrite lookup_app_r by (rewrite length_map, length_take; lia).
    rewrite length_map, length_take, lookup_drop. f_equal. lia.
  - rewrite (lookup_ge_None_2 data) by lia.
    apply lookup_ge_None_2.
    rewrite length_app, length_map, length_take, length_drop. lia.
Qed.

Lemma zero_based_length (data : list Z) (n : nat) :
  length (zero_based n data) = length data.
Proof.
  unfold zero_based.
  rewrite length_app, length_map, length_take, length_drop. lia.
Qed.

Section Defined.

Variable fresh : string → nat → float.
Variable dgesdd : string → Z → Z → list float → Z → Z → Z → Z → dgesdd_out.
Variable dqrsl : list float → Z → Z → Z → list float → list float → Z
                 → dqrsl_out.
Variables (perms : Rmatrix Z) (E : Rmatrix float) (QR : QRobj)
  (QZ : option QRobj) (first isPartial : Z).

Local Abbreviation nperm := (mnrow perms).
Local Abbreviation nr := (mnrow E).
Local Abbreviation nc := (mncol E).
Local Abbreviation ready := (loop_ready perms E QR QZ).

Hypothesis Hwf : getF_wf perms E QZ isPartial.
Hypothesis Hsvd : first ≠ 0 → dgesdd_usable dgesdd nr nc.

(** What do_getF can raise. *)
Local Abbreviation QE :=
  (λ (e : Rcondition) (_ : mem), first ≠ 0 ∧ ∃ code, dgesdd_failed code e).

Lemma loop_ready_closed : work_closed ready ∧ rans_closed ready.
Proof.
  split; [refine (conj _ (conj _ (conj _ _)))|];
    intros v m (Hf & (H1 & H2 & H3) & H4 & H5) Hv;
    (split; [exact Hf|]); unfold sized;
    cbn [rans rY fitted resid qty set_rans set_rY set_fitted set_resid
         set_qty];
    repeat split; congruence.
Qed.

Lemma loop_ready_log c m : ready m → ready (log_call c m).
Proof. done. Qed.

Lemma permute_cell_runs i ki j s :
  ready s → 0 ≤ i < nr → 0 ≤ j < nc → 0 ≤ ki < nr →
  runs (permute_cell nr i ki j) s (λ _, ready) QE.
Proof.
  destruct Hwf as (Hnp & Hnr & Hnc & Hans & Hlen & Htab & HE & Hperms & _).
  destruct loop_ready_closed as [(HrY & _) _].
  intros Hs Hi Hj Hki.
  pose proof Hs as ((HmE & _) & _ & Hy & _).
  assert (Z.of_nat (length (mdata (m_E s))) = nr * nc) by (rewrite HmE; lia).
  assert (Z.of_nat (length (rY s)) = nr * nc) by lia.
  unfold permute_cell, load, store.
  repeat rstep; try rside.
  apply HrY; [done|]. by rewrite length_insert.
Qed.

Lemma permute_row_runs k i s :
  ready s → 0 ≤ k < nperm → 0 ≤ i < nr →
  runs (permute_row nperm nr nc k i) s (λ _, ready) QE.
Proof.
  destruct Hwf as (Hnp & Hnr & Hnc & Hans & Hlen & Htab & HE & Hperms
                   & Hrange & _).
  intros Hs Hk Hi.
  pose proof Hs as ((_ & _ & _ & Hip) & _).
  assert (Z.of_nat (length (iperm s)) = nperm * nr)
    by (rewrite Hip, zero_based_length; lia).
  unfold permute_row, load.
  repeat rstep; try rside.
  match goal with
  | H : iperm s !! _ = Some ?v |- _ =>
      rewrite Hip, zero_based_whole, list_lookup_fmap in H by done;
      destruct (mdata perms !! Z.to_nat (k + nperm * i)) as [p|] eqn:Hp;
        [|done];
      injection H as <-
  end.
  pose proof (Forall_lookup_1 _ _ _ _ Hrange Hp) as Hpr. cbn beta in Hpr.
  eapply runs_mono;
    [apply (runs_for (λ _, ready) _ QE); [done|]| |done].
  - intros j s' Hj Hs'. rewrite Z.add_0_l.
    apply permute_cell_runs; [done|lia|lia|lia].
  - done.
Qed.

Lemma partial_col_runs zrk Zq k i s :
  QZ = Some Zq → ready s → 0 ≤ i < nc →
  runs (partial_col dqrsl nr (Some zrk) k RESID i) s (λ _, ready) QE.
Proof.
  destruct Hwf as (Hnp & Hnr & Hnc & Hans & Hlen & Htab & HE & Hperms & _).
  destruct loop_ready_closed as [(HrY & _ & _ & Hqty) _].
  intros HQZ Hs Hi.
  pose proof Hs as ((_ & _ & HmQZ & _) & _ & Hy & Hq).
  assert (Z.of_nat (length (rY s)) = nr * nc) by lia.
  assert (Z.of_nat (length (qty s)) = nr) by lia.
  unfold partial_col, load_block, store_block.
  repeat rstep; try rside.
  rewrite HmQZ, HQZ.
  repeat (rstep; try discriminate); try rside.
  rewrite <- HQZ.
  repeat first [done | apply loop_ready_log | apply HrY | apply Hqty].
Qed.

Lemma design_col_runs qrank k job i s :
  job = FIT ∨ job = FIT + RESID → ready s → 0 ≤ i < nc →
  runs (design_col dqrsl nr qrank k job i) s (λ _, ready) QE.
Proof.
  destruct Hwf as (Hnp & Hnr & Hnc & Hans & Hlen & Htab & HE & Hperms & _).
  destruct loop_ready_closed as [(_ & Hfit & Hres & Hqty) _].
  intros Hjob Hs Hi.
  pose proof Hs as (_ & (_ & Hf & Hr) & Hy & Hq).
  assert (Z.of_nat (length (rY s)) = nr * nc) by lia.
  assert (Z.of_nat (length (fitted s)) = nr * nc) by lia.
  assert (Z.of_nat (length (resid s)) = nr * nc) by lia.
  assert (Z.of_nat (length (qty s)) = nr) by lia.
  unfold design_col, load_block, store_block.
  destruct Hjob as [-> | ->];
    repeat (rstep; try discriminate); try rside;
    repeat first [done | apply loop_ready_log | apply Hfit | apply Hres
                 | apply Hqty].
Qed.

Lemma call_getEV_runs (get : mem → list float) s :
  ready s → length (get s) = Z.to_nat (nr * nc) →
  runs (call_getEV get nr nc 0) s (λ _, ready) QE.
Proof.
  destruct Hwf as (Hnp & Hnr & Hnc & Hans & Hlen & _).
  intros Hs Hg. unfold call_getEV. rstep. rstep.
  eapply runs_pure; [|done].
  apply getEV_all_Val; [done|done|done|]. rewrite Hg. nia.
Qed.

Lemma call_svdfirst_runs s :
  first ≠ 0 → ready s →
  runs (call_svdfirst fresh dgesdd nr nc) s (λ _, ready) QE.
Proof.
  destruct Hwf as (Hnp & Hnr & Hnc & Hans & Hlen & _).
  destruct loop_ready_closed as [(_ & Hfit & _) _].
  intros Hfirst Hs. destruct (Hsvd Hfirst) as (Hmin & Hmin8 & Hquery).
  pose proof Hs as (_ & (_ & Hf & _) & _).
  assert (svd_wf (fitted s) nr nc) as Hsw.
  { unfold svd_wf. rewrite Hf. repeat split; nia. }
  pose proof (svdfirst_input fresh dgesdd (fitted s) nr nc) as Hin.
  unfold post in Hin.
  change (svdfirst_body fresh dgesdd nr nc (frame0 (fitted s)))
    with (svdfirst fresh dgesdd (fitted s) nr nc) in Hin.
  unfold runs, call_svdfirst.
  destruct (svdfirst fresh dgesdd (fitted s) nr nc) as [v fr|e fr|f] eqn:Hrun;
    cbn beta in Hin.
  - apply Hfit; [done|]. by rewrite Hin.
  - by destruct Hin as [_ He].
  - rewrite svdfirst_unfold in Hrun by done.
    destruct (decide (g_info (svd_query dgesdd (fitted s) nr nc) = 0))
      as [Hq|Hq].
    + destruct (Hquery (svd_input (fitted s) nr nc)) as (lwork & Hlw & Hpos).
      rewrite (svd_calls_decomp _ _ _ _ _ lwork) in Hrun by done.
      case_decide; [done|].
      unfold frame2 in Hrun; cbn [sv_sigma] in Hrun.
      destruct (Z.to_nat (Z.min nr nc)) as [|n] eqn:En; [lia|].
      done.
    + by rewrite svd_calls_query_fails in Hrun.
Qed.

Lemma perm_eigen_runs k s :
  ready s → 0 ≤ k < nperm →
  runs (perm_eigen fresh dgesdd nperm nr nc first isPartial k) s
    (λ _, ready) QE.
Proof.
  destruct Hwf as (Hnp & Hnr & Hnc & Hans & Hlen & _).
  destruct loop_ready_closed as [_ Hrans].
  assert (∀ v idx s', ready s' → 0 ≤ idx < nperm * 2 →
            runs (store rans set_rans idx v) s' (λ _, ready) QE) as Hstore.
  { intros v idx s' Hs' Hidx. pose proof Hs' as (_ & (Ha & _) & _).
    unfold store. rstep. rstep. rstep. rstep; [rewrite Ha; lia|].
    rstep. apply Hrans; [done|]. by rewrite length_insert. }
  intros Hs Hk. unfold perm_eigen. rstep.
  eapply runs_mono with (Q := λ _, ready) (QE := QE); [| |done].
  { case_decide as Hfirst.
    - rstep.
      eapply runs_mono; [by apply call_svdfirst_runs| |done].
      intros ev1 s' Hs'. cbn beta. apply Hstore; [done|lia].
    - rstep.
      eapply runs_mono; [apply call_getEV_runs; [done|]| |done].
      { by destruct Hs as (_ & (_ & Hf & _) & _). }
      intros ev s' Hs'. cbn beta. apply Hstore; [done|lia]. }
  intros [] s1 Hs1. cbn beta.
  apply runs_when; [intros _|done].
  rstep. rstep; [unfold INT_MIN, INT_MAX in *; lia|]. rstep.
  eapply runs_mono; [apply call_getEV_runs; [done|]| |done].
  { by destruct Hs1 as (_ & (_ & _ & Hr) & _). }
  intros ev s' Hs'. cbn beta. apply Hstore; [done|lia].
Qed.

Lemma perm_iter_runs rk k s :
  (isPartial ≠ 0 → ∃ Zq, QZ = Some Zq ∧ snd rk = Some (qr_rank Zq)) →
  ready s → 0 ≤ k < nperm →
  runs (perm_iter fresh dgesdd dqrsl nperm nr nc first isPartial (fst rk)
          (snd rk) k) s (λ _, ready) QE.
Proof.
  intros HZ Hs Hk. unfold perm_iter, perm_project.
  rstep. rstep.
  eapply runs_mono; [apply (runs_for (λ _, ready) _ QE); [done|]| |done].
  { intros i s' Hi Hs'. rewrite Z.add_0_l.
    apply permute_row_runs; [done|done|lia]. }
  intros [] s1 Hs1. cbn beta. rstep.
  eapply runs_mono with (Q := λ _, ready) (QE := QE); [| |done].
  { apply runs_when; [|done]. intros HP%bool_decide_eq_true.
    destruct (HZ HP) as (Zq & HQZ & ->).
    eapply runs_mono; [apply (runs_for (λ _, ready) _ QE); [done|]| |done].
    - intros i s' Hi Hs'. rewrite Z.add_0_l.
      eapply partial_col_runs; [done|done|lia].
    - done. }
  intros [] s2 Hs2. cbn beta.
  eapply runs_mono; [apply (runs_for (λ _, ready) _ QE); [done|]| |done].
  { intros i s' Hi Hs'. rewrite Z.add_0_l.
    apply design_col_runs; [apply design_qrkind_cases|done|lia]. }
  intros [] s3 Hs3. cbn beta. by apply perm_eigen_runs.
Qed.

Lemma zero_base_runs (s0 : mem) (cnt : nat) :
  iperm s0 = mdata perms → (cnt ≤ length (mdata perms))%nat →
  runs (for_M cnt 0 zero_base) s0 (λ _ _, True) (λ _ _, False).
Proof.
  destruct Hwf as (Hnp & Hnr & Hnc & Hans & Hlen & Htab & HE & Hperms
                   & Hrange & _).
  intros H0 Hcnt.
  eapply runs_mono;
    [apply (runs_for
              (λ j s, iperm s = zero_based j (mdata perms))
              _ (λ _ _, False))| |done].
  - rewrite H0. unfold zero_based. by rewrite take_0, drop_0.
  - intros j s Hj Hs. rewrite Z.add_0_l. unfold zero_base, load, store.
    assert (Z.of_nat (length (iperm s)) = Z.of_nat (length (mdata perms)))
      by (by rewrite Hs, zero_based_length).
    repeat rstep; try rside.
    all: match goal with
         | H : iperm _ !! _ = Some _ |- _ =>
             rewrite Hs, Nat2Z.id, zero_based_lookup_at in H;
             pose proof (Forall_lookup_1 _ _ _ _ Hrange H) as Hv;
             cbn beta in Hv
         end.
    + assert (1 ≤ nperm * nr) by lia.
      assert (nr ≤ nperm * nr)
        by (destruct (decide (nperm = 0)) as [Hz|Hz];
              [rewrite Hz in *; lia|nia]).
      unfold INT_MIN, INT_MAX in *. lia.
    + cbn [iperm set_iperm]. rewrite Hs, Nat2Z.id.
      by apply zero_based_step.
  - done.
Qed.

Lemma getF_init_runs :
  runs (getF_init fresh nperm nr nc isPartial) (entry_mem perms E QR QZ)
    (λ rk m0,
       m0 = loop_entry fresh perms E QR QZ
       ∧ (isPartial ≠ 0 → ∃ Zq, QZ = Some Zq ∧ snd rk = Some (qr_rank Zq)))
    (λ _ _, False).
Proof.
  assert (runs (getF_init fresh nperm nr nc isPartial)
            (entry_mem perms E QR QZ) (λ _ _, True) (λ _ _, False)) as Hr.
  2: { pose proof (runs_post _ _ _ _ _ _ Hr
                     (getF_init_post fresh perms E QR QZ isPartial)) as H.
       eapply runs_mono; [exact H| |].
       - intros rk m0 (_ & -> & _ & HZ & _). by split.
       - by intros e s' [[] _]. }
  destruct Hwf as (Hnp & Hnr & Hnc & Hans & Hlen & Htab & HE & Hperms
                   & Hrange & HQZ).
  unfold getF_init.
  rstep. eapply (runs_pure (allocMatrix fresh nperm 2));
    [unfold allocMatrix; by rewrite decide_True by lia|].
  repeat rstep.
  eapply runs_mono with
    (Q := λ _ s, m_perms s = perms) (QE := λ _ _, False); [| |done].
  { case_decide as HP; [|by rstep].
    repeat rstep. cbn [m_QZ set_rY set_rans entry_mem].
    destruct (HQZ HP) as [Zq HZq]. rewrite HZq. by rstep. }
  intros Zqrank s1 Hs1. cbn beta.
  repeat rstep; [rside|].
  eapply runs_pure; [unfold R_alloc; by rewrite decide_True by nia|].
  repeat rstep.
  eapply runs_pure; [unfold R_alloc; by rewrite decide_True by nia|].
  repeat rstep.
  eapply runs_pure; [unfold R_alloc; by rewrite decide_True by nia|].
  repeat rstep; [rside|].
  eapply runs_mono;
    [apply zero_base_runs; [cbn; by rewrite Hs1|lia]| |done].
  intros [] s2 _. cbn beta. by rstep.
Qed.

Lemma loop_entry_ready : ready (loop_entry fresh perms E QR QZ).
Proof.
  destruct Hwf as (Hnp & Hnr & Hnc & Hans & Hlen & Htab & HE & Hperms & _).
  unfold loop_ready, loop_frame, sized, loop_entry; cbn.
  rewrite !length_map, !length_seq. by repeat split.
Qed.

Lemma do_getF_runs :
  match do_getF fresh dgesdd dqrsl perms E QR QZ first isPartial with
  | Ret ans m => ready m ∧ ans = rans m
  | Raise e m => first ≠ 0 ∧ ∃ code, dgesdd_failed code e
  | Fault _ => False
  end.
Proof.
  destruct Hwf as (Hnp & _).
  unfold do_getF. set (body := _ ≫= _).
  assert (runs body (entry_mem perms E QR QZ)
            (λ ans m, ready m ∧ ans = rans m) QE) as H; [|exact H].
  subst body. rstep.
  eapply runs_mono; [apply getF_init_runs| |done].
  intros rk m0 [-> HZ]. cbn beta. rstep. unfold getF_loop.
  eapply runs_mono;
    [apply (runs_for (λ _, ready) _ QE); [apply loop_entry_ready|]| |done].
  - intros k s Hk Hs. rewrite Z.add_0_l.
    apply perm_iter_runs; [done|done|lia].
  - intros [] m1 Hm1. cbn beta. by rstep.
Qed.

End Defined.


(** ** do_getF: a missing value in the permutation table *)

Lemma bind_Ret_then {St A B} (m : M St A) (k : A → M St B) s a s' :
  m s = Ret a s' → (m ≫= k) s = k a s'.
Proof. unfold mbind, M_bind. by intros ->. Qed.

Lemma bind_Fault {St A B} (m : M St A) (k : A → M St B) s f :
  m s = Fault f → (m ≫= k) s = Fault f.
Proof. unfold mbind, M_bind. by intros ->. Qed.

Lemma zero_base_step (j : nat) v s :
  iperm s !! j = Some v →
  zero_base (Z.of_nat j) s
  = if decide (INT_MIN ≤ v - 1 ≤ INT_MAX)
    then Ret tt (set_iperm (<[j := v - 1]> (iperm s)) s)
    else Fault int_overflow.
Proof.
  intros Hv. pose proof (lookup_lt_Some _ _ _ Hv) as Hlt.
  unfold zero_base, load, store.
  rewrite (bind_Ret_then _ _ s v s)
    by (unfold mbind, M_bind, gets, pure; by rewrite (rd_Val _ _ _ Hv)).
  unfold int. case_decide as Hr.
  - rewrite (bind_Ret_then _ _ s (v - 1) s) by done.
    rewrite (bind_Ret_then _ _ s (iperm s) s) by done.
    rewrite (bind_Ret_then _ _ s (<[j := v - 1]> (iperm s)) s); [done|].
    unfold pure, wr. rewrite decide_True by lia. by rewrite Nat2Z.id.
  - by apply bind_Fault.
Qed.

Lemma zero_base_overflow (cnt j i : nat) s :
  (i < cnt)%nat → iperm s !! (j + i)%nat = Some INT_MIN →
  for_M cnt (Z.of_nat j) zero_base s = Fault int_overflow.
Proof.
  revert j i s. induction cnt as [|cnt IH]; intros j i s Hi Hna; [lia|].
  cbn [for_M].
  destruct (lookup_lt_is_Some_2 (iperm s) j) as [v Hv].
  { apply lookup_lt_Some in Hna. lia. }
  pose proof (zero_base_step j v s Hv) as Hstep.
  destruct (decide (INT_MIN ≤ v - 1 ≤ INT_MAX)) as [Hr|Hr].
  - rewrite (bind_Ret_then _ _ _ _ _ Hstep).
    destruct i as [|i].
    + rewrite Nat.add_0_r, Hv in Hna. injection Hna as ->.
      unfold INT_MIN, INT_MAX in Hr. lia.
    + replace (Z.of_nat j + 1) with (Z.of_nat (S j)) by lia.
      apply (IH (S j) i); [lia|]. cbn [iperm set_iperm].
      rewrite list_lookup_insert_ne by lia.
      by replace (S j + i)%nat with (j + S i)%nat by lia.
  - by apply bind_Fault.
Qed.

(** X13. A missing value in the part of the permutation table that
    do_getF uses (R's NA_integer_ is INT_MIN) makes the decrement to zero
    base overflow: on arguments whose sizes are sound the run is undefined
    before the loop over the permutations starts. *)
Theorem missing_permutation_overflows fresh dgesdd dqrsl (perms : Rmatrix Z)
    (E : Rmatrix float) (QR : QRobj) (QZ : option QRobj)
    (first isPartial : Z) (i : nat) :
  0 ≤ mnrow perms * 2 ≤ INT_MAX →
  0 ≤ mnrow E → 0 ≤ mnrow E * mncol E ≤ INT_MAX →
  mnrow perms * mnrow E ≤ INT_MAX →
  (isPartial ≠ 0 → is_Some QZ) →
  (i < Z.to_nat (mnrow perms * mnrow E))%nat →
  mdata perms !! i = Some INT_MIN →
  do_getF fresh dgesdd dqrsl perms E QR QZ first isPartial
  = Fault int_overflow.
Proof.
  intros Hans Hnr Hlen Htab HQZ Hi Hna.
  unfold do_getF. apply bind_Fault. unfold getF_init.
  erewrite bind_Ret_then;
    [|unfold pure, allocMatrix; by rewrite decide_True by done].
  erewrite bind_Ret_then by done.
  erewrite bind_Ret_then by done.
  erewrite bind_Ret_then by done.
  erewrite bind_Ret_then by done.
  assert (∃ zq, (if decide (isPartial ≠ 0)
                 then QZ0 ← gets m_QZ;
                      pure (match QZ0 with
                            | Some Z => Val (Some (qr_rank Z))
                            | None => Bad bad_object
                            end)
                 else mret None)
                  (set_rY (mdata E)
                     (set_rans
                        (map (fresh "ans"%string)
                           (seq 0 (Z.to_nat (mnrow perms * 2))))
                        (entry_mem perms E QR QZ)))
                = Ret zq
                    (set_rY (mdata E)
                       (set_rans
                          (map (fresh "ans"%string)
                             (seq 0 (Z.to_nat (mnrow perms * 2))))
                          (entry_mem perms E QR QZ)))) as [zq Hzq].
  { case_decide as HP; [|by eexists].
    destruct (HQZ HP) as [Zq HZq]. exists (Some (qr_rank Zq)).
    unfold mbind, M_bind, gets, pure. cbn [m_QZ set_rY set_rans entry_mem].
    by rewrite HZq. }
  erewrite bind_Ret_then by exact Hzq.
  erewrite bind_Ret_then
    by (unfold pure; rewrite int_Val; [done|unfold INT_MIN; lia]).
  erewrite bind_Ret_then
    by (unfold pure, R_alloc; by rewrite decide_True by lia).
  erewrite bind_Ret_then by done.
  erewrite bind_Ret_then
    by (unfold pure, R_alloc; by rewrite decide_True by lia).
  erewrite bind_Ret_then by done.
  erewrite bind_Ret_then
    by (unfold pure, R_alloc; by rewrite decide_True by lia).
  erewrite bind_Ret_then by done.
  erewrite bind_Ret_then by done.
  erewrite bind_Ret_then by done.
  erewrite bind_Ret_then
    by (unfold pure; rewrite int_Val; [done|unfold INT_MIN; lia]).
  apply bind_Fault.
  by apply (zero_base_overflow _ 0 i).
Qed.

(** ** do_getF: from the projections to the table *)

Lemma columns_concat (buf : list float) (nr : Z) (n : nat) :
  0 ≤ nr → length buf = (n * Z.to_nat nr)%nat →
  buf = flat_map (λ j : nat, column nr (Z.of_nat j) buf) (seq 0 n).
Proof.
  intros Hnr Hlen.
  assert (∀ m, (m ≤ n)%nat →
            take (m * Z.to_nat nr) buf
            = flat_map (λ j : nat, column nr (Z.of_nat j) buf) (seq 0 m))
    as Hm.
  { induction m as [|m IH]; intros Hle; [done|].
    rewrite seq_S, flat_map_app, <- IH by lia. cbn [flat_map].
    rewrite app_nil_r. unfold column.
    replace (Z.to_nat (Z.of_nat (0 + m) * nr)) with (m * Z.to_nat nr)%nat
      by lia.
    rewrite take_take_drop. f_equal. lia. }
  rewrite <- (Hm n) by lia. by rewrite take_ge by lia.
Qed.

Lemma flat_map_seq_ext {B} (f g : nat → list B) (n : nat) :
  (∀ j, (j < n)%nat → f j = g j) →
  flat_map f (seq 0 n) = flat_map g (seq 0 n).
Proof.
  induction n as [|n IH]; intros H; [done|].
  rewrite seq_S, !flat_map_app, IH by (intros j Hj; apply H; lia).
  cbn. by rewrite (H n) by lia.
Qed.

(** X14. Row [k] of the table from the projections: without [first] its
    first cell is the sum of the squares of the fitted values that dqrsl
    computes on QR for the columns of [rY], column after column; with
    [isPartial] or [first] set its second cell is the sum of the squares of
    the residuals of the same calls. *)
Theorem table_row_from_projection fresh dgesdd dqrsl (perms : Rmatrix Z)
    (E : Rmatrix float) (QR : QRobj) (QZ : option QRobj)
    (first isPartial : Z) ans m (k : nat) mk :
  do_getF fresh dgesdd dqrsl perms E QR QZ first isPartial = Ret ans m →
  Z.of_nat k < mnrow perms →
  row_end fresh dgesdd dqrsl perms E QR QZ first isPartial k mk →
  let cols := Z.to_nat (mncol E) in
  let job := design_qrkind isPartial first in
  (first = 0 →
   ans !! k
   = Some (foldl acc_sq d0
             (projected dqrsl QR (mnrow E) cols job q_xb (rY mk))))
  ∧ (isPartial ≠ 0 ∨ first ≠ 0 →
     ans !! (k + Z.to_nat (mnrow perms))%nat
     = Some (foldl acc_sq d0
               (projected dqrsl QR (mnrow E) cols job q_rsd (rY mk)))).
Proof.
  intros Hrun Hk Hend cols job.
  destruct (row_entries _ _ _ _ _ _ _ _ _ _ _ _ Hrun Hk)
    as (mk' & ev & Hend' & (_ & Hlf & Hlr) & Hev & Hcol0 & Hcol1).
  rewrite (row_end_functional _ _ _ _ _ _ _ _ _ _ _ _ Hend' Hend) in *.
  clear mk' Hend'.
  pose proof Hrun as (rk & Hinit & _)%do_getF_Ret.
  apply getF_init_Ret in Hinit as (_ & _ & _ & _ & Hsize & Hnr).
  assert (Z.to_nat (mnrow E * mncol E) = (cols * Z.to_nat (mnrow E))%nat)
    as Hcells by (subst cols; nia).
  assert (∀ j, (j < cols)%nat → 0 ≤ Z.of_nat j < mncol E) as Hj
    by (subst cols; lia).
  split.
  - intros Hfirst. rewrite Hcol0. f_equal.
    unfold explained_by in Hev. rewrite decide_False in Hev by lia.
    apply getEV_all_inv in Hev as ->.
    rewrite (sumOfSquares_all_whole _ _ _ Hlf). f_equal.
    rewrite (columns_concat (fitted mk) (mnrow E) cols) at 1 by lia.
    unfold projected. apply flat_map_seq_ext. intros j Hlt.
    by destruct (row_design_columns fresh dgesdd dqrsl perms E QR QZ first
                   isPartial k mk (Z.of_nat j) Hend (Hj j Hlt)) as [-> _].
  - intros Hflags. rewrite Hcol1, decide_True by done. f_equal.
    rewrite (sumOfSquares_all_whole _ _ _ Hlr). f_equal.
    rewrite (columns_concat (resid mk) (mnrow E) cols) at 1 by lia.
    unfold projected. apply flat_map_seq_ext. intros j Hlt.
    destruct (row_design_columns fresh dgesdd dqrsl perms E QR QZ first
                isPartial k mk (Z.of_nat j) Hend (Hj j Hlt)) as [_ Hres].
    by apply Hres.
Qed.

(** ** Sample runs *)

Ltac run_row_permuted :=
  unfold row_permuted22, row_permuted; eexists _, _, _;
  split; [vm_compute; reflexivity|];
  split; [vm_compute; reflexivity|];
  vm_compute; reflexivity.

Lemma dqrsl_call_order_witness :
  ∃ ans m,
    run22 0 QRfull (Some QRnull) 0 1 = Ret ans m
    ∧ call_trace m
      = [(Zmodel, 0, 0, 10); (Zmodel, 0, 1, 10);
         (Xmodel, 0, 0, 11); (Xmodel, 0, 1, 11);
         (Zmodel, 1, 0, 10); (Zmodel, 1, 1, 10);
         (Xmodel, 1, 0, 11); (Xmodel, 1, 1, 11)].
Proof.
  eexists _, _. split; [vm_compute; reflexivity|].
  edestruct (dqrsl_call_order junk dgesdd_norm (dqrsl_plain 0) perms22 E22
               QRfull (Some QRnull) 0 1) as [Ht _];
    [vm_compute; reflexivity|].
  exact Ht.
Defined.

Lemma permuted_response_witness :
  ∃ ans m mp,
    do_getF junk dgesdd_norm (dqrsl_plain 0) perms22 E22 QRfull None 0 0
    = Ret ans m
    ∧ Z.of_nat 1 < mnrow perms22
    ∧ row_permuted22 0 QRfull None 0 0 1 mp
    ∧ ∃ p v,
        mdata perms22 !! Z.to_nat (Z.of_nat 1 + mnrow perms22 * 0) = Some p
        ∧ 0 ≤ p - 1 + mnrow E22 * 1
        ∧ mdata E22 !! Z.to_nat (p - 1 + mnrow E22 * 1) = Some v
        ∧ rY mp !! Z.to_nat (0 + mnrow E22 * 1) = Some v.
Proof.
  assert (∃ ans m,
            do_getF junk dgesdd_norm (dqrsl_plain 0) perms22 E22 QRfull None
              0 0 = Ret ans m) as (ans & m & Hrun)
    by (eexists _, _; vm_compute; reflexivity).
  assert (∃ mp, row_permuted22 0 QRfull None 0 0 1 mp) as [mp Hp]
    by (eexists; run_row_permuted).
  assert (Z.of_nat 1 < mnrow perms22) as Hk by (cbn; lia).
  exists ans, m, mp. split; [exact Hrun|]. split; [exact Hk|].
  split; [exact Hp|].
  destruct (permuted_response junk dgesdd_norm (dqrsl_plain 0) perms22 E22
              QRfull None 0 0 ans m 1 Hrun Hk) as [_ Hcells].
  apply (Hcells mp 0 1 Hp); cbn; lia.
Defined.

Lemma partial_residuals_in_place_witness :
  ∃ mp mk,
    row_permuted22 0 QRfull (Some QRnull) 0 1 1 mp
    ∧ row_end22 0 QRfull (Some QRnull) 0 1 1 mk
    ∧ column 2 1 (rY mk)
      = filled 2 (q_rsd (dqrsl_plain 0 (qr_qr QRnull) 2 2 (qr_rank QRnull)
                           (qr_qraux QRnull) (column 2 1 (rY mp)) RESID)).
Proof.
  assert (∃ mp, row_permuted22 0 QRfull (Some QRnull) 0 1 1 mp) as [mp Hp]
    by (eexists; run_row_permuted).
  assert (∃ mk, row_end22 0 QRfull (Some QRnull) 0 1 1 mk) as [mk He]
    by (eexists; run_row_end).
  exists mp, mk. split; [exact Hp|]. split; [exact He|].
  pose proof (partial_residuals_in_place junk dgesdd_norm (dqrsl_plain 0)
                perms22 E22 QRfull (Some QRnull) 0 1 1 mp mk Hp He) as H.
  rewrite decide_True in H by lia.
  destruct H as (Zq & [= <-] & Hcols). apply (Hcols 1). cbn. lia.
Defined.

Lemma design_projection_columns_witness :
  ∃ mk,
    row_end22 0 QRfull None 1 0 1 mk
    ∧ 0 ≤ 1 < mncol E22
    ∧ column 2 1 (fitted mk)
      = filled 2 (q_xb (dqrsl_plain 0 (qr_qr QRfull) 2 2 (qr_rank QRfull)
                          (qr_qraux QRfull) (column 2 1 (rY mk))
                          (design_qrkind 0 1)))
    ∧ column 2 1 (resid mk)
      = filled 2 (q_rsd (dqrsl_plain 0 (qr_qr QRfull) 2 2 (qr_rank QRfull)
                           (qr_qraux QRfull) (column 2 1 (rY mk))
                           (design_qrkind 0 1))).
Proof.
  assert (∃ mk, row_end22 0 QRfull None 1 0 1 mk) as [mk He]
    by (eexists; run_row_end).
  assert (0 ≤ 1 < mncol E22) as Hj by (cbn; lia).
  exists mk. split; [exact He|]. split; [exact Hj|].
  destruct (design_projection_columns junk dgesdd_norm (dqrsl_plain 0)
              perms22 E22 QRfull None 1 0 1 mk 1 He Hj) as [Hfit Hres].
  split; [exact Hfit|]. apply Hres. right. lia.
Defined.



Lemma missing_permutation_overflows_witness :
  mdata permsNA !! 2%nat = Some INT_MIN
  ∧ do_getF junk dgesdd_norm (dqrsl_plain 0) permsNA E22 QRfull None 0 0
    = Fault int_overflow.
Proof.
  split; [done|].
  apply (missing_permutation_overflows junk dgesdd_norm (dqrsl_plain 0)
           permsNA E22 QRfull None 0 0 2);
    unfold INT_MAX; cbn; (done || lia).
Defined.

Lemma table_row_from_projection_witness :
  ∃ ans m mk,
    do_getF junk dgesdd_norm (dqrsl_plain 0) perms22 E22 QRfull
      (Some QRnull) 0 1 = Ret ans m
    ∧ Z.of_nat 1 < mnrow perms22
    ∧ row_end22 0 QRfull (Some QRnull) 0 1 1 mk
    ∧ ans !! 1%nat
      = Some (foldl acc_sq d0
                (projected (dqrsl_plain 0) QRfull 2 2 (design_qrkind 1 0)
                   q_xb (rY mk)))
    ∧ ans !! 3%nat
      = Some (foldl acc_sq d0
                (projected (dqrsl_plain 0) QRfull 2 2 (design_qrkind 1 0)
                   q_rsd (rY mk))).
Proof.
  assert (∃ ans m,
            do_getF junk dgesdd_norm (dqrsl_plain 0) perms22 E22 QRfull
              (Some QRnull) 0 1 = Ret ans m)
    as (ans & m & Hrun) by (eexists _, _; vm_compute; reflexivity).
  assert (∃ mk, row_end22 0 QRfull (Some QRnull) 0 1 1 mk) as [mk He]
    by (eexists; run_row_end).
  assert (Z.of_nat 1 < mnrow perms22) as Hk by (cbn; lia).
  exists ans, m, mk. split; [exact Hrun|]. split; [exact Hk|].
  split; [exact He|].
  destruct (table_row_from_projection junk dgesdd_norm (dqrsl_plain 0)
              perms22 E22 QRfull (Some QRnull) 0 1 ans m 1 mk Hrun Hk He)
    as [Hfit Hres].
  split; [by apply Hfit|]. apply Hres. left. lia.
Defined.
